(** * Comment-tolerant JSON normalizer ([.ci/remove-json-comments.py])

    A shallow embedding of [remove_comments_from_json_string],
    [clean_json_content], [process_json_file] and [main], together with the
    properties the design document states about them and further properties
    read off the code.

    A Python [str] is a sequence of Unicode code points; it is modelled as a
    list of code points ([N]).  The two hand-written scanners are index loops
    over a string; the loop body is a function of the current flags, the
    current character [s[i]] and the look-ahead [s[i+1]] (absent when
    [i + 1 >= len(s)]), and the loop itself is a recursion over the text that
    is still to be read, [s[i:]]. *)

From Stdlib Require Import String Ascii.
From Stdlib Require Import List NArith ZArith Bool Arith Lia.
From Stdlib Require DecimalFacts DecimalPos DecimalN DecimalZ.
From Equations Require Import Equations.
Import ListNotations.

Set Implicit Arguments.
Local Open Scope N_scope.

(* ===================================================================== *)
(** ** Characters and strings                                             *)
(* ===================================================================== *)

Definition uchar := N.
Definition str := list uchar.

Definition NUL : uchar := 0.
Definition TAB : uchar := 9.
Definition LF : uchar := 10.
Definition CR : uchar := 13.
Definition SPACE : uchar := 32.
Definition DQUOTE : uchar := 34.
Definition STAR : uchar := 42.
Definition COMMA : uchar := 44.
Definition SLASH : uchar := 47.
Definition BACKSLASH : uchar := 92.
Definition RBRACKET : uchar := 93.
Definition RBRACE : uchar := 125.
Definition BOM : uchar := 65279.  (* U+FEFF *)

(** Test vectors are written as Rocq strings in which an apostrophe stands
    for the double quote character; every other byte is its own code point. *)
Definition dq (s : string) : str :=
  map (fun a => let n := N_of_ascii a in if n =? 39 then DQUOTE else n)
      (list_ascii_of_string s).
Arguments dq s%_string.

(** [c in s] for a one-character string [c]. *)
Definition char_in (c : uchar) (s : str) : bool := existsb (N.eqb c) s.

(** [sep.join(parts)] *)
Fixpoint join (sep : str) (parts : list str) : str :=
  match parts with
  | [] => []
  | [p] => p
  | p :: rest => p ++ sep ++ join sep rest
  end.

(** Line boundaries recognised by [str.splitlines]:
    LF, CR, VT, FF, FS, GS, RS, NEL, LS and PS (and the pair CR LF). *)
Definition is_linebreak (c : uchar) : bool :=
  (c =? 10) || (c =? 13) || (c =? 11) || (c =? 12) || (c =? 28) ||
  (c =? 29) || (c =? 30) || (c =? 133) || (c =? 8232) || (c =? 8233).

(** [s.splitlines()]: no line is produced for the empty string, nor after a
    final line boundary. *)
Fixpoint splitlines (s : str) : list str :=
  match s with
  | [] => []
  | c :: rest =>
      if is_linebreak c then
        [] :: match rest with
              | c2 :: rest' =>
                  if (c =? CR) && (c2 =? LF) then splitlines rest'
                  else splitlines rest
              | [] => splitlines rest
              end
      else
        match splitlines rest with
        | [] => [[c]]
        | l :: ls => (c :: l) :: ls
        end
  end.

(** [s.split('\n')]: always at least one piece. *)
Fixpoint split_nl (s : str) : list str :=
  match s with
  | [] => [[]]
  | c :: rest =>
      if c =? LF then [] :: split_nl rest
      else match split_nl rest with
           | [] => [[c]]
           | l :: ls => (c :: l) :: ls
           end
  end.

(** Unicode white space: [str.isspace] on one character, which is also what
    [\s] matches in a [str] pattern. *)
Definition is_space (c : uchar) : bool :=
  ((9 <=? c) && (c <=? 13)) || ((28 <=? c) && (c <=? 32)) ||
  (c =? 133) || (c =? 160) || (c =? 5760) ||
  ((8192 <=? c) && (c <=? 8202)) || (c =? 8232) || (c =? 8233) ||
  (c =? 8239) || (c =? 8287) || (c =? 12288).

(** [line.strip()] is truthy exactly when some character is not white space. *)
Definition strip_nonempty (line : str) : bool :=
  existsb (fun c => negb (is_space c)) line.

(* ===================================================================== *)
(** ** [remove_comments_from_json_string]                                 *)
(* ===================================================================== *)

(** The flags of a scan.  The first loop has no [in_comment] variable; there
    the field stays [false]. *)
Record ScanState := mkState {
  in_comment : bool;
  in_string : bool;
  escape_next : bool
}.

Definition initial : ScanState := mkState false false false.

Definition next_is (c : uchar) (next : option uchar) : bool :=
  match next with
  | Some n => n =? c
  | None => false
  end.

(** *** First loop: inline comments *)

Inductive LineAction := Append | Break.

(** Body of the [while i < len(line)] loop: [char = line[i]], [next] is
    [line[i + 1]] when [i + 1 < len(line)]. *)
Definition line_body (st : ScanState) (char : uchar) (next : option uchar)
  : LineAction * ScanState :=
  if st.(escape_next) then
    (Append, mkState st.(in_comment) st.(in_string) false)
  else if char =? BACKSLASH then
    (Append, mkState st.(in_comment) st.(in_string) true)
  else if (char =? DQUOTE) && negb st.(escape_next) then
    (Append, mkState st.(in_comment) (negb st.(in_string)) st.(escape_next))
  else if (char =? SLASH) && next_is SLASH next && negb st.(in_string) then
    (Break, st)
  else
    (Append, st).

(** One line: the characters kept and the flags when the loop is left. *)
Fixpoint scan_line (st : ScanState) (line : str) : str * ScanState :=
  match line with
  | [] => ([], st)
  | char :: rest =>
      match line_body st char (hd_error rest) with
      | (Break, st') => ([], st')
      | (Append, st') =>
          let (new_line, st'') := scan_line st' rest in
          (char :: new_line, st'')
      end
  end.

(** [for line in json_str.splitlines()]: the flags live outside the loop. *)
Fixpoint scan_lines (st : ScanState) (lines : list str) : list str :=
  match lines with
  | [] => []
  | line :: rest =>
      let (new_line, st') := scan_line st line in
      new_line :: scan_lines st' rest
  end.

Definition strip_line_comments (json_str : str) : str :=
  join [LF] (scan_lines initial (splitlines json_str)).

(** *** Second loop: multi-line comments *)

(** What one iteration does: whether [char] is appended to [cleaned],
    whether the extra [i += 1] is taken, and the flags afterwards. *)
Record BlockStep := mkStep {
  emit : bool;
  skip : bool;
  after : ScanState
}.

Definition block_body (st : ScanState) (char : uchar) (next : option uchar)
  : BlockStep :=
  if st.(escape_next) then
    mkStep (negb st.(in_comment)) false
           (mkState st.(in_comment) st.(in_string) false)
  else if char =? BACKSLASH then
    mkStep (negb st.(in_comment)) false
           (mkState st.(in_comment) st.(in_string) true)
  else if (char =? DQUOTE) && negb st.(escape_next) then
    if negb st.(in_comment) then
      mkStep true false
             (mkState st.(in_comment) (negb st.(in_string)) st.(escape_next))
    else mkStep false false st
  else if (char =? SLASH) && next_is STAR next && negb st.(in_string) then
    mkStep false true (mkState true st.(in_string) st.(escape_next))
  else if (char =? STAR) && next_is SLASH next && st.(in_comment) then
    mkStep false true (mkState false st.(in_string) st.(escape_next))
  else if negb st.(in_comment) then
    mkStep true false st
  else
    mkStep false false st.

Fixpoint scan_block (st : ScanState) (s : str) : str * ScanState :=
  match s with
  | [] => ([], st)
  | char :: rest =>
      let r := block_body st char (hd_error rest) in
      let (cleaned, st') :=
        if r.(skip) then
          match rest with
          | _ :: rest' => scan_block r.(after) rest'
          | [] => ([], r.(after))
          end
        else scan_block r.(after) rest in
      ((if r.(emit) then char :: cleaned else cleaned), st')
  end.

Definition strip_block_comments (json_str : str) : str :=
  fst (scan_block initial json_str).

(** *** Trailing commas: [re.sub(r',(\s*[}\]])', r'\1', json_str)] *)

Definition is_closer (c : uchar) : bool := (c =? RBRACE) || (c =? RBRACKET).

(** Match of the group [(\s*[}\]])] at the head of [s]: the group's text and
    what follows the match.  White space and closers are disjoint, so the
    greedy [\s*] never has to give a character back. *)
Fixpoint match_group (s : str) : option (str * str) :=
  match s with
  | [] => None
  | c :: rest =>
      if is_closer c then Some ([c], rest)
      else if is_space c then
        match match_group rest with
        | Some (g, rest') => Some (c :: g, rest')
        | None => None
        end
      else None
  end.

Lemma match_group_length s g rest :
  match_group s = Some (g, rest) -> (length rest < length s)%nat.
Proof.
  revert g rest. induction s as [|c s IH]; intros g rest; simpl; [discriminate|].
  destruct (is_closer c).
  - intros [= <- <-]. lia.
  - destruct (is_space c); [|discriminate].
    destruct (match_group s) as [[g' r']|] eqn:E; [|discriminate].
    intros [= <- <-]. specialize (IH _ _ eq_refl). lia.
Qed.

Definition inspect {A : Type} (a : A) : {b : A | a = b} := exist _ a eq_refl.

(** [re.sub]: scan from the left; at a match emit the group and resume after
    the match, otherwise copy one character. *)
Equations re_sub_trailing (s : str) : str by wf (length s) lt :=
  re_sub_trailing [] := [];
  re_sub_trailing (c :: rest) with inspect (if c =? COMMA then match_group rest else None) => {
    | exist _ (Some (g, rest')) E := g ++ re_sub_trailing rest';
    | exist _ None _ := c :: re_sub_trailing rest }.
Next Obligation.
  destruct (c =? COMMA); [|discriminate].
  apply match_group_length in E. simpl. lia.
Qed.

(** *** Empty lines *)

Definition drop_blank_lines (json_str : str) : str :=
  join [LF] (filter strip_nonempty (splitlines json_str)).

Definition remove_comments_from_json_string (json_str : str) : str :=
  let json_str := strip_line_comments json_str in
  let json_str := strip_block_comments json_str in
  let json_str := re_sub_trailing json_str in
  drop_blank_lines json_str.

(* ===================================================================== *)
(** ** [clean_json_content]: the text handed to the strippers             *)
(* ===================================================================== *)

Definition strip_bom (content : str) : str :=
  match content with
  | c :: rest => if c =? BOM then rest else content
  | [] => content
  end.

Definition allowed_char (c : uchar) : bool :=
  (32 <=? c) || char_in c [LF; CR; TAB].

Definition preprocess (content : str) : str :=
  let content := strip_bom content in
  let content := filter (fun c => negb (c =? NUL)) content in
  filter allowed_char content.

(* ===================================================================== *)
(** ** The [json] module of the Python standard library                   *)
(* ===================================================================== *)

(** [json.loads] and [json.dump] are not code of this repository.  They are
    modelled after CPython's [json] package: the decoder after the scanner
    CPython runs by default ([_json.c], which [json/decoder.py] and
    [json/scanner.py] mirror), with the messages and positions of
    Python 3.12; the encoder after [json/encoder.py] for [indent=2] and
    [ensure_ascii=False].  An [int] is an unbounded integer.  A [float] is
    kept abstract: the conversion from text, [float(...)], and the
    conversion to text, the encoder's [floatstr], are parameters. *)
Class PyFloat := {
  pyfloat : Type;
  float_of_str : str -> pyfloat;
  floatstr : pyfloat -> str
}.

(** Two limits of the interpreter end a call of [json.loads] with an
    exception that is no [JSONDecodeError].  The scanner enters every array
    and object through [Py_EnterRecursiveCall], which raises
    [RecursionError] when the recursion limit is reached; how many
    containers, one inside the other, it can enter depends on
    [sys.getrecursionlimit()], on the version of the interpreter and on the
    place of the call, and is a parameter; an interpreter that runs the
    script can enter at least one.  And [int(...)] raises [ValueError] for
    a numeral of more than [sys.get_int_max_str_digits()] digits, 4300
    unless the interpreter is started with another setting. *)
Class Interpreter := {
  recursion_depth : nat;
  recursion_depth_positive : (0 < recursion_depth)%nat
}.

Definition int_max_str_digits : N := 4300.

(** What ends a scan other than a [JSONDecodeError]: the two limits above,
    and the fuel of the model itself, which [json_loads] never lets run out
    ([json_loads_answers]). *)
Inductive Limit :=
| IntDigits
| Nesting
| Fuel.

Definition LBRACE : uchar := 123.
Definition LBRACKET : uchar := 91.
Definition COLON : uchar := 58.
Definition MINUS : uchar := 45.
Definition PLUS : uchar := 43.
Definition DOT : uchar := 46.

Section Json.
Context {PF : PyFloat} {PI : Interpreter}.

Unset Elimination Schemes.
Inductive value : Type :=
| VNone
| VBool (b : bool)
| VInt (z : Z)
| VFloat (f : pyfloat)
| VStr (s : str)
| VList (lst : list value)
| VDict (dct : list (str * value)).
Set Elimination Schemes.

(** *** Decoder *)

Inductive Message :=
| ExpectingValue
| ExpectingPropertyName
| ExpectingColon
| ExpectingComma
| UnterminatedString
| InvalidControlCharacter
| InvalidEscape
| InvalidUnicodeEscape
| ExtraData
| UnexpectedBOM.

(** Outcome of a scanning function on the text from its start index on:
    the parsed item and the text after it; [StopIteration(idx)]; a
    [JSONDecodeError] at [pos]; or a limit reached.  A position is given by
    the number of characters from it to the end of the document. *)
Inductive scan (A : Type) : Type :=
| Parsed (a : A) (rest : str)
| StopIteration (left : nat)
| DecodeError (m : Message) (left : nat)
| Exhausted (why : Limit).
Arguments Parsed {A} a rest.
Arguments StopIteration {A} left.
Arguments DecodeError {A} m left.
Arguments Exhausted {A} why.

Definition scan_map {A B : Type} (f : A -> B) (r : scan A) : scan B :=
  match r with
  | Parsed a rest => Parsed (f a) rest
  | StopIteration n => StopIteration n
  | DecodeError m n => DecodeError m n
  | Exhausted why => Exhausted why
  end.

(** [WHITESPACE]: blank, tab, newline, carriage return. *)
Definition is_ws (c : uchar) : bool :=
  (c =? SPACE) || (c =? TAB) || (c =? LF) || (c =? CR).

Fixpoint skip_ws (s : str) : str :=
  match s with
  | c :: rest => if is_ws c then skip_ws rest else s
  | [] => []
  end.

(** [s[idx:idx + len(p)] == p]; the text after the prefix. *)
Fixpoint starts_with (p s : str) : option str :=
  match p, s with
  | [], _ => Some s
  | a :: p', c :: s' => if a =? c then starts_with p' s' else None
  | _ :: _, [] => None
  end.

Definition hex_value (c : uchar) : option N :=
  if (48 <=? c) && (c <=? 57) then Some (c - 48)
  else if (97 <=? c) && (c <=? 102) then Some (c - 87)
  else if (65 <=? c) && (c <=? 70) then Some (c - 55)
  else None.

Definition hex4 (h1 h2 h3 h4 : uchar) : option N :=
  match hex_value h1, hex_value h2, hex_value h3, hex_value h4 with
  | Some a, Some b, Some c, Some d => Some (((a * 16 + b) * 16 + c) * 16 + d)
  | _, _, _, _ => None
  end.

(** The table [BACKSLASH] of the decoder. *)
Definition unescape (esc : uchar) : option uchar :=
  if esc =? DQUOTE then Some DQUOTE
  else if esc =? BACKSLASH then Some BACKSLASH
  else if esc =? SLASH then Some SLASH
  else if esc =? 98 then Some 8
  else if esc =? 102 then Some 12
  else if esc =? 110 then Some LF
  else if esc =? 114 then Some CR
  else if esc =? 116 then Some TAB
  else None.

Definition is_high_surrogate (c : N) : bool := (55296 <=? c) && (c <=? 56319).
Definition is_low_surrogate (c : N) : bool := (56320 <=? c) && (c <=? 57343).
Definition join_surrogates (c c2 : N) : N :=
  65536 + ((c - 55296) * 1024 + (c2 - 56320)).

(** [scanstring(s, end, strict=True)]: [s] is the text after the opening
    quote, [begin] the position of that quote. *)
Fixpoint scanstring (begin : nat) (s : str) : scan str :=
  match s with
  | [] => DecodeError UnterminatedString begin
  | c :: r =>
      if c =? DQUOTE then Parsed [] r
      else if c =? BACKSLASH then
        match r with
        | [] => DecodeError UnterminatedString begin
        | esc :: r2 =>
            if esc =? 117 then
              match r2 with
              | h1 :: h2 :: h3 :: h4 :: ((_ :: _) as r6) =>
                  match hex4 h1 h2 h3 h4 with
                  | None => DecodeError InvalidUnicodeEscape (length r)
                  | Some uni =>
                      if is_high_surrogate uni then
                        match r6 with
                        | b :: u :: g1 :: g2 :: g3 :: g4 :: ((_ :: _) as r12) =>
                            if (b =? BACKSLASH) && (u =? 117) then
                              match hex4 g1 g2 g3 g4 with
                              | None =>
                                  DecodeError InvalidUnicodeEscape
                                    (S (length (g1 :: g2 :: g3 :: g4 :: r12)))
                              | Some uni2 =>
                                  if is_low_surrogate uni2 then
                                    scan_map (cons (join_surrogates uni uni2))
                                             (scanstring begin r12)
                                  else scan_map (cons uni) (scanstring begin r6)
                              end
                            else scan_map (cons uni) (scanstring begin r6)
                        | _ => scan_map (cons uni) (scanstring begin r6)
                        end
                      else scan_map (cons uni) (scanstring begin r6)
                  end
              | _ => DecodeError InvalidUnicodeEscape (length r)
              end
            else
              match unescape esc with
              | Some char => scan_map (cons char) (scanstring begin r2)
              | None => DecodeError InvalidEscape (length s)
              end
        end
      else if c <=? 31 then DecodeError InvalidControlCharacter (length s)
      else scan_map (cons c) (scanstring begin r)
  end.

(** [NUMBER_RE]: an optional minus and either a zero or a non-zero digit
    followed by digits (group [integer]); optionally a dot and one or more
    digits (group [frac]); optionally [e] or [E], an optional sign and one or
    more digits (group [exp]). *)
Definition is_digit (c : uchar) : bool := (48 <=? c) && (c <=? 57).

Fixpoint span_digits (s : str) : str * str :=
  match s with
  | c :: r =>
      if is_digit c then let (d, rest) := span_digits r in (c :: d, rest)
      else ([], s)
  | [] => ([], [])
  end.

Definition match_integer (s : str) : option (str * str) :=
  let (sign, s1) :=
    match s with
    | c :: r => if c =? MINUS then ([MINUS], r) else ([], s)
    | [] => ([], s)
    end in
  match s1 with
  | c :: r =>
      if c =? 48 then Some (sign ++ [c], r)
      else if is_digit c then
        let (d, rest) := span_digits r in Some (sign ++ c :: d, rest)
      else None
  | [] => None
  end.

Definition match_frac (s : str) : str * str :=
  match s with
  | c :: r =>
      if c =? DOT then
        match span_digits r with
        | ([], _) => ([], s)
        | (d, rest) => (c :: d, rest)
        end
      else ([], s)
  | [] => ([], s)
  end.

Definition match_exp (s : str) : str * str :=
  match s with
  | c :: r =>
      if (c =? 101) || (c =? 69) then
        let (sign, r1) :=
          match r with
          | c2 :: r' => if (c2 =? PLUS) || (c2 =? MINUS) then ([c2], r') else ([], r)
          | [] => ([], r)
          end in
        match span_digits r1 with
        | ([], _) => ([], s)
        | (d, rest) => (c :: sign ++ d, rest)
        end
      else ([], s)
  | [] => ([], s)
  end.

(** The groups [integer], [frac], [exp] and the text after the match. *)
Definition match_number (s : str) : option (str * str * str * str) :=
  match match_integer s with
  | None => None
  | Some (integer, s1) =>
      let (frac, s2) := match_frac s1 in
      let (exp, s3) := match_exp s2 in
      Some (integer, frac, exp, s3)
  end.

Definition digit_of_char (c : uchar) (d : Decimal.uint) : Decimal.uint :=
  match c - 48 with
  | 0 => Decimal.D0 d | 1 => Decimal.D1 d | 2 => Decimal.D2 d
  | 3 => Decimal.D3 d | 4 => Decimal.D4 d | 5 => Decimal.D5 d
  | 6 => Decimal.D6 d | 7 => Decimal.D7 d | 8 => Decimal.D8 d
  | _ => Decimal.D9 d
  end.

Fixpoint uint_of_digits (s : str) : Decimal.uint :=
  match s with
  | [] => Decimal.Nil
  | c :: r => digit_of_char c (uint_of_digits r)
  end.

(** The digits of a text matched by the first group, which [int] counts
    against the limit. *)
Definition int_digits (integer : str) : nat :=
  match integer with
  | c :: r => if c =? MINUS then length r else length integer
  | [] => 0
  end.

(** [int(integer)] on a text matched by the first group, of no more digits
    than the limit. *)
Definition int_of_str (integer : str) : Z :=
  match integer with
  | c :: r =>
      if c =? MINUS then Z.of_int (Decimal.Neg (uint_of_digits r))
      else Z.of_int (Decimal.Pos (uint_of_digits integer))
  | [] => 0%Z
  end.

(** [dict(pairs)]: a key keeps the place of its first occurrence and takes
    the value of its last. *)
Fixpoint dict_set (d : list (str * value)) (k : str) (v : value)
  : list (str * value) :=
  match d with
  | [] => [(k, v)]
  | (k', v') :: d' =>
      if list_eq_dec N.eq_dec k k' then (k', v) :: d'
      else (k', v') :: dict_set d' k v
  end.

Definition dict_of_pairs (pairs : list (str * value)) : list (str * value) :=
  fold_left (fun d kv => dict_set d (fst kv) (snd kv)) pairs [].

(** [JSONArray]: [s] is the text after the opening bracket; [values] reads
    the terms of a non-empty array. *)
Definition JSONArray (values : str -> scan (list value)) (s : str) : scan value :=
  let s := skip_ws s in
  match s with
  | c :: r => if c =? RBRACKET then Parsed (VList []) r
              else scan_map VList (values s)
  | [] => scan_map VList (values s)
  end.

(** [JSONObject]: [s] is the text after the opening brace; [pairs] reads
    the members of a non-empty object. *)
Definition JSONObject (pairs : str -> scan (list (str * value))) (s : str)
  : scan value :=
  let s := skip_ws s in
  match s with
  | c :: r => if c =? RBRACE then Parsed (VDict []) r
              else scan_map (fun p => VDict (dict_of_pairs p)) (pairs s)
  | [] => scan_map (fun p => VDict (dict_of_pairs p)) (pairs s)
  end.

Definition scan_cons {A : Type} (a : A) (r : scan (list A)) : scan (list A) :=
  scan_map (cons a) r.

(** The constants and numbers of [scan_once]. *)
Definition scan_atom (s : str) : scan value :=
  match starts_with (dq "null") s with
  | Some rest => Parsed VNone rest
  | None =>
  match starts_with (dq "true") s with
  | Some rest => Parsed (VBool true) rest
  | None =>
  match starts_with (dq "false") s with
  | Some rest => Parsed (VBool false) rest
  | None =>
  match match_number s with
  | Some (integer, frac, exp, rest) =>
      match frac, exp with
      | [], [] =>
          if N.of_nat (int_digits integer) <=? int_max_str_digits
          then Parsed (VInt (int_of_str integer)) rest
          else Exhausted IntDigits
      | _, _ => Parsed (VFloat (float_of_str (integer ++ frac ++ exp))) rest
      end
  | None =>
  match starts_with (dq "NaN") s with
  | Some rest => Parsed (VFloat (float_of_str (dq "NaN"))) rest
  | None =>
  match starts_with (dq "Infinity") s with
  | Some rest => Parsed (VFloat (float_of_str (dq "Infinity"))) rest
  | None =>
  match starts_with (dq "-Infinity") s with
  | Some rest => Parsed (VFloat (float_of_str (dq "-Infinity"))) rest
  | None => StopIteration (length s)
  end end end end end end end.

(** [scan_once(s, idx)], with the loops of [JSONArray] and [JSONObject].
    [depth] is the number of containers, one inside the other, that can
    still be entered; [fuel] bounds the calls of the model. *)
Fixpoint scan_once (fuel depth : nat) (s : str) : scan value :=
  match fuel with
  | O => Exhausted Fuel
  | S fuel =>
      match s with
      | [] => StopIteration 0
      | nextchar :: r =>
          if nextchar =? DQUOTE then scan_map VStr (scanstring (length s) r)
          else if nextchar =? LBRACE then
            match depth with
            | O => Exhausted Nesting
            | S depth => JSONObject (object_pairs fuel depth) r
            end
          else if nextchar =? LBRACKET then
            match depth with
            | O => Exhausted Nesting
            | S depth => JSONArray (array_values fuel depth) r
            end
          else scan_atom s
      end
  end

with array_values (fuel depth : nat) (s : str) : scan (list value) :=
  match fuel with
  | O => Exhausted Fuel
  | S fuel =>
      match scan_once fuel depth s with
      | Parsed val rest =>
          let rest := skip_ws rest in
          match rest with
          | c :: r =>
              if c =? RBRACKET then Parsed [val] r
              else if c =? COMMA then
                scan_cons val (array_values fuel depth (skip_ws r))
              else DecodeError ExpectingComma (length rest)
          | [] => DecodeError ExpectingComma 0
          end
      | StopIteration n => StopIteration n
      | DecodeError m n => DecodeError m n
      | Exhausted why => Exhausted why
      end
  end

with object_pairs (fuel depth : nat) (s : str) : scan (list (str * value)) :=
  match fuel with
  | O => Exhausted Fuel
  | S fuel =>
      match s with
      | [] => DecodeError ExpectingPropertyName 0
      | q :: r =>
          if q =? DQUOTE then
            match scanstring (length s) r with
            | Parsed key rest =>
                let rest := skip_ws rest in
                match rest with
                | [] => DecodeError ExpectingColon 0
                | c :: r2 =>
                    if c =? COLON then
                      match scan_once fuel depth (skip_ws r2) with
                      | Parsed val rest3 =>
                          let rest3 := skip_ws rest3 in
                          match rest3 with
                          | c3 :: r3 =>
                              if c3 =? RBRACE then Parsed [(key, val)] r3
                              else if c3 =? COMMA then
                                scan_cons (key, val)
                                  (object_pairs fuel depth (skip_ws r3))
                              else DecodeError ExpectingComma (length rest3)
                          | [] => DecodeError ExpectingComma 0
                          end
                      | StopIteration n => StopIteration n
                      | DecodeError m n => DecodeError m n
                      | Exhausted why => Exhausted why
                      end
                    else DecodeError ExpectingColon (length rest)
                end
            | StopIteration n => StopIteration n
            | DecodeError m n => DecodeError m n
            | Exhausted why => Exhausted why
            end
          else DecodeError ExpectingPropertyName (length s)
      end
  end.

(** [JSONDecodeError(msg, doc, pos)] *)
Record JSONDecodeError := mkError {
  msg : Message;
  pos : nat;
  lineno : nat;
  colno : nat
}.

(** [doc.count('\n', 0, pos)] *)
Definition count_nl (doc : str) (pos : nat) : nat :=
  length (filter (N.eqb LF) (firstn pos doc)).

(** [pos - doc.rfind('\n', 0, pos)]: one more than the number of characters
    between the last newline before [pos] and [pos]. *)
Fixpoint column_of (doc : str) (pos : nat) (col : nat) : nat :=
  match pos, doc with
  | S pos', c :: doc' => column_of doc' pos' (if c =? LF then 1%nat else S col)
  | _, _ => col
  end.

Definition raise_error (m : Message) (doc : str) (pos : nat) : JSONDecodeError :=
  mkError m pos (count_nl doc pos + 1) (column_of doc pos 1).

(** What [json.loads] does: a value, a [JSONDecodeError], or a limit
    reached: [ValueError] for [IntDigits], [RecursionError] for [Nesting].
    The scanner is given fuel for any text, so that [Fuel] never occurs
    ([json_loads_answers]). *)
Inductive loaded :=
| Value (obj : value)
| Raised (e : JSONDecodeError)
| Refused (why : Limit).

(** [json.loads(s)] for a [str]: the check for a byte-order mark, then
    [JSONDecoder.decode]. *)
Definition json_loads (s : str) : loaded :=
  match s with
  | c :: _ =>
      if c =? BOM then Raised (raise_error UnexpectedBOM s 0)
      else
        match scan_once (2 * length s + 2) recursion_depth (skip_ws s) with
        | Parsed obj rest =>
            let rest := skip_ws rest in
            match rest with
            | [] => Value obj
            | _ :: _ => Raised (raise_error ExtraData s (length s - length rest))
            end
        | StopIteration n => Raised (raise_error ExpectingValue s (length s - n))
        | DecodeError m n => Raised (raise_error m s (length s - n))
        | Exhausted why => Refused why
        end
  | [] => Raised (raise_error ExpectingValue s 0)
  end.

(** *** Encoder *)

Definition hex_digit (n : N) : uchar := if n <? 10 then 48 + n else 87 + n.

(** [ESCAPE_DCT] applied where [ESCAPE] matches. *)
Definition encode_char (c : uchar) : str :=
  if c =? DQUOTE then [BACKSLASH; DQUOTE]
  else if c =? BACKSLASH then [BACKSLASH; BACKSLASH]
  else if c =? LF then [BACKSLASH; 110]
  else if c =? CR then [BACKSLASH; 114]
  else if c =? TAB then [BACKSLASH; 116]
  else if c =? 8 then [BACKSLASH; 98]
  else if c =? 12 then [BACKSLASH; 102]
  else if c <? 32 then [BACKSLASH; 117; 48; 48; hex_digit (c / 16); hex_digit (c mod 16)]
  else [c].

(** [encode_basestring], the string encoder for [ensure_ascii=False]. *)
Definition encode_basestring (s : str) : str :=
  DQUOTE :: flat_map encode_char s ++ [DQUOTE].

Fixpoint chars_of_uint (d : Decimal.uint) : str :=
  match d with
  | Decimal.Nil => []
  | Decimal.D0 d => 48 :: chars_of_uint d
  | Decimal.D1 d => 49 :: chars_of_uint d
  | Decimal.D2 d => 50 :: chars_of_uint d
  | Decimal.D3 d => 51 :: chars_of_uint d
  | Decimal.D4 d => 52 :: chars_of_uint d
  | Decimal.D5 d => 53 :: chars_of_uint d
  | Decimal.D6 d => 54 :: chars_of_uint d
  | Decimal.D7 d => 55 :: chars_of_uint d
  | Decimal.D8 d => 56 :: chars_of_uint d
  | Decimal.D9 d => 57 :: chars_of_uint d
  end.

(** [int.__repr__], for an integer of no more digits than the limit: all
    that [json.loads] returns.  (A longer one makes it raise [ValueError];
    the encoder is not used on such a value here.) *)
Definition int_repr (z : Z) : str :=
  match Z.to_int z with
  | Decimal.Pos d => chars_of_uint d
  | Decimal.Neg d => MINUS :: chars_of_uint d
  end.

(** ['\n' + _indent * _current_indent_level] with [_indent = '  '] *)
Definition newline_indent (level : nat) : str := LF :: repeat SPACE (2 * level).

(** [_iterencode(o, _current_indent_level)], its chunks concatenated. *)
Fixpoint iterencode (o : value) (level : nat) : str :=
  match o with
  | VStr s => encode_basestring s
  | VNone => dq "null"
  | VBool true => dq "true"
  | VBool false => dq "false"
  | VInt z => int_repr z
  | VFloat f => floatstr f
  | VList [] => dq "[]"
  | VList lst =>
      [LBRACKET] ++ newline_indent (S level) ++
      join (COMMA :: newline_indent (S level))
           (map (fun v => iterencode v (S level)) lst) ++
      newline_indent level ++ [RBRACKET]
  | VDict [] => dq "{}"
  | VDict dct =>
      [LBRACE] ++ newline_indent (S level) ++
      join (COMMA :: newline_indent (S level))
           (map (fun kv => encode_basestring (fst kv) ++ [COLON; SPACE] ++
                           iterencode (snd kv) (S level)) dct) ++
      newline_indent level ++ [RBRACE]
  end.

(** What [json.dump(obj, f, indent=2, ensure_ascii=False)] writes. *)
Definition json_dump (obj : value) : str := iterencode obj 0.

(* ===================================================================== *)
(** ** [clean_json_content] and [process_json_file]                       *)
(* ===================================================================== *)

(** What reaches the caller of [clean_json_content] when parsing fails: the
    re-raised error, and the line shown after [Content:]. *)
Record Diagnostic := mkDiagnostic {
  line : nat;
  column : nat;
  message : Message;
  contextLine : str
}.

Definition line_not_found : str := dq "Line not found".

Definition error_line (content : str) (e : JSONDecodeError) : str :=
  let lines := split_nl content in
  if (lineno e <=? length lines)%nat then nth (lineno e - 1) lines []
  else line_not_found.

(** What [clean_json_content] does: the value returned, the
    [JSONDecodeError] re-raised after its position is printed, or the
    [ValueError] or [RecursionError] of [json.loads], which no handler here
    catches. *)
Inductive cleaned :=
| Ok (json_data : value)
| MalformedJson (d : Diagnostic)
| Unfinished (why : Limit).

Definition clean_json_content (content : str) : cleaned :=
  let content := preprocess content in
  let content := remove_comments_from_json_string content in
  match json_loads content with
  | Value obj => Ok obj
  | Raised e =>
      MalformedJson (mkDiagnostic (lineno e) (colno e) (msg e) (error_line content e))
  | Refused why => Unfinished why
  end.

(** [process_json_file] on the text read from the file: the text written
    back, or nothing written when cleaning fails. *)
Definition normalize (content : str) : option str :=
  match clean_json_content content with
  | Ok json_data => Some (json_dump json_data)
  | _ => None
  end.

End Json.

Arguments value {PF}.
Arguments loaded {PF}.
Arguments cleaned {PF}.
Arguments Exhausted {A} why.

(** Floats as the text handed to [float]: an instance on which the model
    runs.  No conversion is done, so two spellings of one number stay
    apart. *)
Definition text_float : PyFloat :=
  {| pyfloat := str; float_of_str := fun s => s; floatstr := fun s => s |}.

(** An interpreter on which the model runs: CPython 3.11 with the recursion
    limit of 1000 it starts with.  [json.loads], called as the script calls
    it, enters 991 containers one inside the other, and raises
    [RecursionError] at the next. *)
Definition cpython : Interpreter :=
  {| recursion_depth := 991; recursion_depth_positive := Nat.lt_0_succ 990 |}.

(* ===================================================================== *)
(** ** The loops as written: an index into the text                       *)
(* ===================================================================== *)

(** The loops of [remove_comments_from_json_string] read [line[i]] and
    [line[i + 1]] by index.  Here subscripting can fail, a [while] loop runs
    on fuel, and the conditions are evaluated left to right with [and]
    cutting the evaluation short, as Python does. *)
Inductive outcome (A : Type) : Type :=
| Returned (a : A)
| IndexError
| OutOfFuel.
Arguments Returned {A} a.
Arguments IndexError {A}.
Arguments OutOfFuel {A}.

Definition bind {A B : Type} (m : outcome A) (k : A -> outcome B) : outcome B :=
  match m with
  | Returned a => k a
  | IndexError => IndexError
  | OutOfFuel => OutOfFuel
  end.

Notation "x <- m ;; k" := (bind m (fun x => k))
  (at level 61, m at next level, right associativity).

(** [s[i]] *)
Definition getitem (s : str) (i : nat) : outcome uchar :=
  match nth_error s i with
  | Some c => Returned c
  | None => IndexError
  end.

(** [char == a and i + 1 < len(s) and s[i + 1] == b and flag] *)
Definition pair_at (s : str) (i : nat) (char a b : uchar) (flag : bool)
  : outcome bool :=
  if char =? a then
    if (i + 1 <? length s)%nat then
      c2 <- getitem s (i + 1) ;;
      Returned ((c2 =? b) && flag)
    else Returned false
  else Returned false.

Fixpoint line_while (fuel : nat) (line : str) (i : nat) (st : ScanState)
    (new_line : str) : outcome (str * ScanState) :=
  match fuel with
  | O => OutOfFuel
  | S fuel =>
      if (i <? length line)%nat then
        char <- getitem line i ;;
        if st.(escape_next) then
          line_while fuel line (i + 1)
            (mkState st.(in_comment) st.(in_string) false) (new_line ++ [char])
        else if char =? BACKSLASH then
          line_while fuel line (i + 1)
            (mkState st.(in_comment) st.(in_string) true) (new_line ++ [char])
        else if (char =? DQUOTE) && negb st.(escape_next) then
          line_while fuel line (i + 1)
            (mkState st.(in_comment) (negb st.(in_string)) st.(escape_next))
            (new_line ++ [char])
        else
          comment <- pair_at line i char SLASH SLASH (negb st.(in_string)) ;;
          if comment then Returned (new_line, st)
          else line_while fuel line (i + 1) st (new_line ++ [char])
      else Returned (new_line, st)
  end.

Fixpoint lines_for (st : ScanState) (todo : list str) (lines : list str)
  : outcome (list str) :=
  match todo with
  | [] => Returned lines
  | line :: rest =>
      r <- line_while (S (length line)) line 0 st [] ;;
      lines_for (snd r) rest (lines ++ [fst r])
  end.

Fixpoint block_while (fuel : nat) (json_str : str) (i : nat) (st : ScanState)
    (cleaned : str) : outcome (str * ScanState) :=
  match fuel with
  | O => OutOfFuel
  | S fuel =>
      if (i <? length json_str)%nat then
        char <- getitem json_str i ;;
        if st.(escape_next) then
          block_while fuel json_str (i + 1)
            (mkState st.(in_comment) st.(in_string) false)
            (if negb st.(in_comment) then cleaned ++ [char] else cleaned)
        else if char =? BACKSLASH then
          block_while fuel json_str (i + 1)
            (mkState st.(in_comment) st.(in_string) true)
            (if negb st.(in_comment) then cleaned ++ [char] else cleaned)
        else if (char =? DQUOTE) && negb st.(escape_next) then
          if negb st.(in_comment) then
            block_while fuel json_str (i + 1)
              (mkState st.(in_comment) (negb st.(in_string)) st.(escape_next))
              (cleaned ++ [char])
          else block_while fuel json_str (i + 1) st cleaned
        else
          opens <- pair_at json_str i char SLASH STAR (negb st.(in_string)) ;;
          if opens then
            block_while fuel json_str (i + 1 + 1)
              (mkState true st.(in_string) st.(escape_next)) cleaned
          else
            closes <- pair_at json_str i char STAR SLASH st.(in_comment) ;;
            if closes then
              block_while fuel json_str (i + 1 + 1)
                (mkState false st.(in_string) st.(escape_next)) cleaned
            else if negb st.(in_comment) then
              block_while fuel json_str (i + 1) st (cleaned ++ [char])
            else block_while fuel json_str (i + 1) st cleaned
      else Returned (cleaned, st)
  end.

(** The whole function, with the loops run on the indices. *)
Definition remove_comments_indexed (json_str : str) : outcome str :=
  lines <- lines_for initial (splitlines json_str) [] ;;
  let json_str := join [LF] lines in
  r <- block_while (S (length json_str)) json_str 0 initial [] ;;
  let json_str := fst r in
  let json_str := re_sub_trailing json_str in
  Returned (drop_blank_lines json_str).

(* ===================================================================== *)
(** ** Plain JSON text                                                    *)
(* ===================================================================== *)

(** Texts on which the cleaning stages have nothing to do are described by
    three small automata that read the text from left to right, and a
    condition on the single characters. *)
Section Automaton.
Variable Q : Type.
Variable step : Q -> uchar -> option Q.

Fixpoint run (q : Q) (s : str) : option Q :=
  match s with
  | [] => Some q
  | c :: rest =>
      match step q c with
      | Some q' => run q' rest
      | None => None
      end
  end.

End Automaton.

(** Characters the preprocessor keeps and that end a line only if they are
    the newline character. *)
Definition text_char (c : uchar) : bool :=
  ((32 <=? c) && negb (is_linebreak c)) || (c =? LF) || (c =? TAB).

(** String literals: the state is (inside a string, after a backslash).
    Refused: a backslash or a slash outside a string literal, and a newline
    right after a backslash. *)
Definition quote_step (q : bool * bool) (c : uchar) : option (bool * bool) :=
  let (i, e) := q in
  if e then (if c =? LF then None else Some (i, false))
  else if c =? BACKSLASH then (if i then Some (i, true) else None)
  else if c =? DQUOTE then Some (negb i, false)
  else if c =? SLASH then (if i then Some (i, false) else None)
  else Some (i, false).

(** Commas: the state tells whether a comma has been read with only white
    space after it.  Refused: a closer in that state. *)
Definition comma_step (p : bool) (c : uchar) : option bool :=
  if is_closer c then (if p then None else Some false)
  else if c =? COMMA then Some true
  else if is_space c then Some p
  else Some false.

(** Lines: the state tells whether the current line holds a character that
    is not white space.  Refused: a newline that ends a blank line. *)
Definition content_step (k : bool) (c : uchar) : option bool :=
  if c =? LF then (if k then Some false else None)
  else Some (k || negb (is_space c)).

(** Plain JSON text: no byte-order mark in front; only characters the
    preprocessor keeps, and no line end but the newline character; every
    slash and backslash inside a string literal; no comma followed only by
    white space and a closer; no blank line and no newline at the end. *)
Definition plain_json_text (s : str) : bool :=
  match s with c :: _ => negb (c =? BOM) | [] => true end &&
  forallb text_char s &&
  match run quote_step (false, false) s with Some _ => true | None => false end &&
  match run comma_step false s with Some _ => true | None => false end &&
  match run content_step false s with Some k => k | None => false end.

(* ===================================================================== *)
(** ** Observing the scans                                                *)
(* ===================================================================== *)

(** One execution of a loop body: the flags on entry, [char], and the
    look-ahead character the conditions may read. *)
Record Iteration := mkIter {
  before : ScanState;
  current : uchar;
  lookahead : option uchar
}.

(** The iterations of the first loop over one line, the breaking one
    included. *)
Fixpoint line_iterations (st : ScanState) (line : str) : list Iteration :=
  match line with
  | [] => []
  | char :: rest =>
      mkIter st char (hd_error rest) ::
      match line_body st char (hd_error rest) with
      | (Break, _) => []
      | (Append, st') => line_iterations st' rest
      end
  end.

Fixpoint lines_iterations (st : ScanState) (lines : list str) : list Iteration :=
  match lines with
  | [] => []
  | line :: rest =>
      line_iterations st line ++ lines_iterations (snd (scan_line st line)) rest
  end.

(** The flags with which the scan of each line starts. *)
Fixpoint line_start_states (st : ScanState) (lines : list str) : list ScanState :=
  match lines with
  | [] => []
  | line :: rest => st :: line_start_states (snd (scan_line st line)) rest
  end.

(** The iterations of the second loop. *)
Fixpoint block_iterations (st : ScanState) (s : str) : list Iteration :=
  match s with
  | [] => []
  | char :: rest =>
      let r := block_body st char (hd_error rest) in
      mkIter st char (hd_error rest) ::
      (if r.(skip) then
         match rest with
         | _ :: rest' => block_iterations r.(after) rest'
         | [] => []
         end
       else block_iterations r.(after) rest)
  end.

(** The value [escape_next] must have on entry to each iteration if it is
    set exactly by an unescaped backslash in the iteration before. *)
Fixpoint escape_chain (e : bool) (its : list Iteration) : Prop :=
  match its with
  | [] => True
  | it :: rest =>
      escape_next (before it) = e /\
      escape_chain ((current it =? BACKSLASH) && negb e) rest
  end.

Fixpoint escape_after (e : bool) (its : list Iteration) : bool :=
  match its with
  | [] => e
  | it :: rest => escape_after ((current it =? BACKSLASH) && negb e) rest
  end.

(** A character that is neither a slash nor a backslash: inside a block
    comment it neither opens, nor closes, nor escapes. *)
Definition plain_in_comment (c : uchar) : bool :=
  negb (c =? SLASH) && negb (c =? BACKSLASH).

(** [escape_next] is false on entry to the first iteration, and on entry to
    any later one it is true exactly when the iteration before read a
    backslash while [escape_next] was false. *)
Definition escape_rule (its : list Iteration) : Prop :=
  (forall it, nth_error its 0 = Some it -> escape_next (before it) = false) /\
  (forall k it1 it2,
      nth_error its k = Some it1 ->
      nth_error its (S k) = Some it2 ->
      escape_next (before it2) =
        (current it1 =? BACKSLASH) && negb (escape_next (before it1))).

(** The stronger reading: [escape_next] is true on entry to an iteration
    only if the iteration before read an unescaped backslash inside a
    string. *)
Definition escape_only_in_string (its : list Iteration) : Prop :=
  forall k it2,
    nth_error its k = Some it2 ->
    escape_next (before it2) = true ->
    exists j it1,
      k = S j /\ nth_error its j = Some it1 /\
      current it1 = BACKSLASH /\
      escape_next (before it1) = false /\
      in_string (before it1) = true.

(** A comma followed only by white space and then a closer, somewhere in
    the text. *)
Definition trailing_here (c : uchar) (rest : str) : bool :=
  (c =? COMMA) && match match_group rest with Some _ => true | None => false end.

Fixpoint has_trailing_comma (s : str) : bool :=
  match s with
  | [] => false
  | c :: rest => trailing_here c rest || has_trailing_comma rest
  end.

(** The substitution seen one character at a time: a comma is dropped when
    the group matches right after it, every other character is copied. *)
Fixpoint drop_trailing (s : str) : str :=
  match s with
  | [] => []
  | c :: rest =>
      if trailing_here c rest then drop_trailing rest
      else c :: drop_trailing rest
  end.

(** White space, then a comma that is itself followed only by white space
    and a closer. *)
Fixpoint comma_ahead (s : str) : bool :=
  match s with
  | [] => false
  | c :: rest =>
      if c =? COMMA then trailing_here c rest
      else if is_space c then comma_ahead rest
      else false
  end.

(** Two commas with only white space between them and only white space
    between the second and a closer, somewhere in the text. *)
Fixpoint has_stacked_commas (s : str) : bool :=
  match s with
  | [] => false
  | c :: rest => ((c =? COMMA) && comma_ahead rest) || has_stacked_commas rest
  end.

(** The text carries no byte-order mark, and none of the characters the
    preprocessor is meant to remove. *)
Definition no_bom (text : str) : Prop := hd_error text <> Some BOM.

Definition no_control (text : str) : Prop :=
  Forall (fun c => 32 <= c \/ c = LF \/ c = CR \/ c = TAB) text /\ ~ In NUL text.

(* ===================================================================== *)
(** ** Values that survive a second normalization                         *)
(* ===================================================================== *)

Section Stability.
Context {PF : PyFloat} {PI : Interpreter}.

(** The product of the three automata, with the condition on characters. *)
Definition Lex : Type := (bool * bool) * bool * bool.

Definition lex_step (q : Lex) (c : uchar) : option Lex :=
  let '(s, p, k) := q in
  if text_char c then
    match quote_step s c, comma_step p c, content_step k c with
    | Some s', Some p', Some k' => Some (s', p', k')
    | _, _, _ => None
    end
  else None.

(** Characters of which numbers and constants are made. *)
Definition atom_char (c : uchar) : bool :=
  text_char c && negb (is_space c) && negb (is_closer c) &&
  negb (c =? COMMA) && negb (c =? DQUOTE) && negb (c =? BACKSLASH) &&
  negb (c =? SLASH) && negb (c =? BOM).

(** What may follow a value in a document. *)
Definition delimited (tail : str) : bool :=
  match tail with
  | [] => true
  | c :: _ => is_ws c || (c =? COMMA) || is_closer c
  end.

(** A string whose encoded form the cleaning stages leave alone: none of
    the line ends U+0085, U+2028, U+2029 (the other line ends are written as
    escapes), and no comma followed only by white space and a closer. *)
Definition stable_string (s : str) : bool :=
  forallb (fun c => negb ((c =? 133) || (c =? 8232) || (c =? 8233))) s &&
  negb (has_trailing_comma (encode_basestring s)).

(** A float whose text is made of number characters and is read back by
    the decoder as the same float (no container is entered for it, so the
    depth left is of no account). *)
Definition stable_float (f : pyfloat) : Prop :=
  forallb atom_char (floatstr f) = true /\
  forall fuel tail,
    delimited tail = true ->
    scan_once (S fuel) 0 (floatstr f ++ tail) = Parsed (VFloat f) tail.

Fixpoint stable (v : value) : Prop :=
  match v with
  | VStr s => stable_string s = true
  | VFloat f => stable_float f
  | VList lst =>
      (fix all (l : list value) : Prop :=
         match l with
         | [] => True
         | x :: l' => stable x /\ all l'
         end) lst
  | VDict dct =>
      (fix all (l : list (str * value)) : Prop :=
         match l with
         | [] => True
         | (k, x) :: l' => stable_string k = true /\ stable x /\ all l'
         end) dct
  | _ => True
  end.

(** The keys of every mapping are pairwise different, as in a [dict]. *)
Fixpoint unique_keys (v : value) : Prop :=
  match v with
  | VList lst =>
      (fix all (l : list value) : Prop :=
         match l with
         | [] => True
         | x :: l' => unique_keys x /\ all l'
         end) lst
  | VDict dct =>
      NoDup (map fst dct) /\
      (fix all (l : list (str * value)) : Prop :=
         match l with
         | [] => True
         | (_, x) :: l' => unique_keys x /\ all l'
         end) dct
  | _ => True
  end.

End Stability.

(* ===================================================================== *)
(** ** What a stage may do to a text                                      *)
(* ===================================================================== *)

(** [a] is [b] with some characters deleted. *)
Inductive subsequence : str -> str -> Prop :=
| sub_nil : subsequence [] []
| sub_keep c a b : subsequence a b -> subsequence (c :: a) (c :: b)
| sub_drop c a b : subsequence a b -> subsequence a (c :: b).

(** The newline character is the only line boundary in the text. *)
Definition newline_only (s : str) : bool :=
  forallb (fun c => implb (is_linebreak c) (c =? LF)) s.

(** A line as the first loop leaves it: the whole line, or the part of it
    before a [//]. *)
Definition cut_at_comment (line new_line : str) : Prop :=
  exists cut,
    line = new_line ++ cut /\
    (cut = [] \/ exists comment, cut = SLASH :: SLASH :: comment).

Definition not_comma (c : uchar) : bool := negb (c =? COMMA).

Definition no_linebreak (line : str) : bool :=
  forallb (fun c => negb (is_linebreak c)) line.

(** The first loop's view of a text in which it finds no [//] to cut at.
    The state is (inside a string, after a backslash, after a slash read
    outside a string).  Refused: a slash outside a string right after
    another one, and a newline right after a backslash. *)
Definition slash_step (q : bool * bool * bool) (c : uchar)
  : option (bool * bool * bool) :=
  let '(i, e, sl) := q in
  if e then (if c =? LF then None else Some (i, false, false))
  else if c =? BACKSLASH then Some (i, true, false)
  else if c =? DQUOTE then Some (negb i, false, false)
  else if c =? SLASH then
    (if i then Some (i, false, false)
     else if sl then None else Some (i, false, true))
  else Some (i, false, false).

(** A character of the text of a block comment that neither loop reacts
    to: no slash, backslash or double quote, and no line boundary but the
    newline character. *)
Definition comment_char (c : uchar) : bool :=
  plain_in_comment c && negb (c =? DQUOTE) &&
  implb (is_linebreak c) (c =? LF).

(* ===================================================================== *)
(** ** Values and mappings                                                *)
(* ===================================================================== *)

Section Values.
Context {PF : PyFloat} {PI : Interpreter}.

(** A value whose floats are written as texts that the decoder reads back
    as the same floats. *)
Fixpoint readable (v : value) : Prop :=
  match v with
  | VFloat f => stable_float f
  | VList lst =>
      (fix all (l : list value) : Prop :=
         match l with
         | [] => True
         | x :: l' => readable x /\ all l'
         end) lst
  | VDict dct =>
      (fix all (l : list (str * value)) : Prop :=
         match l with
         | [] => True
         | (_, x) :: l' => readable x /\ all l'
         end) dct
  | _ => True
  end.

(** The containers of a value, one inside the other. *)
Fixpoint nesting (v : value) : nat :=
  match v with
  | VList lst =>
      S ((fix deepest (l : list value) : nat :=
            match l with
            | [] => 0%nat
            | x :: l' => Nat.max (nesting x) (deepest l')
            end) lst)
  | VDict dct =>
      S ((fix deepest (l : list (str * value)) : nat :=
            match l with
            | [] => 0%nat
            | (_, x) :: l' => Nat.max (nesting x) (deepest l')
            end) dct)
  | _ => 0%nat
  end.

(** No integer of the value has more digits than [int] and [int.__repr__]
    convert. *)
Fixpoint short_ints (v : value) : Prop :=
  match v with
  | VInt z => N.of_nat (int_digits (int_repr z)) <= int_max_str_digits
  | VList lst =>
      (fix all (l : list value) : Prop :=
         match l with
         | [] => True
         | x :: l' => short_ints x /\ all l'
         end) lst
  | VDict dct =>
      (fix all (l : list (str * value)) : Prop :=
         match l with
         | [] => True
         | (_, x) :: l' => short_ints x /\ all l'
         end) dct
  | _ => True
  end.

(** [d.get(k)]: the value of the first member with key [k]. *)
Fixpoint dict_get (d : list (str * value)) (k : str) : option value :=
  match d with
  | [] => None
  | (k', v) :: d' =>
      if list_eq_dec N.eq_dec k k' then Some v else dict_get d' k
  end.

End Values.

(* ===================================================================== *)
(** ** The serialization with an indent of two spaces, line by line       *)
(* ===================================================================== *)

(** [k] spaces in front of a line, and in front of every line of a block
    but the first. *)
Definition pad (k : nat) (l : str) : str := repeat SPACE k ++ l.

Definition shift (k : nat) (lines : list str) : list str :=
  match lines with
  | [] => []
  | l :: rest => l :: map (pad k) rest
  end.

Section Indented.
Context {PF : PyFloat}.

(** Two more spaces in front of every line. *)
Definition indent (lines : list str) : list str :=
  map (fun l => SPACE :: SPACE :: l) lines.

(** [tail] at the end of the last line. *)
Fixpoint append_last (lines : list str) (tail : str) : list str :=
  match lines with
  | [] => [tail]
  | [l] => [l ++ tail]
  | l :: rest => l :: append_last rest tail
  end.

(** [head] at the start of the first line. *)
Definition prepend_first (head : str) (lines : list str) : list str :=
  match lines with
  | [] => [head]
  | l :: rest => (head ++ l) :: rest
  end.

(** The lines of the items of a container, one item after the other: a
    comma ends the last line of every item but the last. *)
Fixpoint items (blocks : list (list str)) : list str :=
  match blocks with
  | [] => []
  | [b] => b
  | b :: rest => append_last b [COMMA] ++ items rest
  end.

(** The serialization of a value with an indent of two spaces, as the list
    of its lines.  A scalar and an empty container are written on one line.
    A container that is not empty is an opening line, a closing line, and
    between them the lines of its items, each item starting on a line of
    its own, two spaces further in than the two lines around them; the
    value of a member of an object starts on the line of its key, after a
    colon and a space. *)
Fixpoint indented (v : value) : list str :=
  match v with
  | VStr s => [encode_basestring s]
  | VNone => [dq "null"]
  | VBool true => [dq "true"]
  | VBool false => [dq "false"]
  | VInt z => [int_repr z]
  | VFloat f => [floatstr f]
  | VList [] => [dq "[]"]
  | VList lst =>
      [LBRACKET] :: indent (items (map indented lst)) ++ [[RBRACKET]]
  | VDict [] => [dq "{}"]
  | VDict dct =>
      [LBRACE] ::
      indent (items (map (fun kv =>
                            prepend_first
                              (encode_basestring (fst kv) ++ [COLON; SPACE])
                              (indented (snd kv))) dct)) ++
      [[RBRACE]]
  end.

End Indented.

(* ===================================================================== *)
(** ** A text as code, string literals and comments                       *)
(* ===================================================================== *)















(** What the preprocessor keeps of a text, the check for a byte-order mark
    in front apart. *)
Definition kept_chars (s : str) : str :=
  filter allowed_char (filter (fun c => negb (c =? NUL)) s).

(* ===================================================================== *)
(** ** Files: [process_json_file] and [main]                              *)
(* ===================================================================== *)

(** The content of a file is a sequence of bytes, numbers below 256. *)
Definition bytes := list N.

(** *** The [utf-8] codec, [errors='strict'] *)

(** One code point.  A surrogate cannot be encoded
    ([UnicodeEncodeError]); numbers from [0x110000] on are no code points
    and occur in no [str]. *)
Definition utf8_encode_char (c : uchar) : option bytes :=
  if c <? 128 then Some [c]
  else if c <? 2048 then Some [192 + c / 64; 128 + c mod 64]
  else if c <? 65536 then
    if (55296 <=? c) && (c <=? 57343) then None
    else Some [224 + c / 4096; 128 + (c / 64) mod 64; 128 + c mod 64]
  else if c <? 1114112 then
    Some [240 + c / 262144; 128 + (c / 4096) mod 64;
          128 + (c / 64) mod 64; 128 + c mod 64]
  else None.

(** [text.encode('utf-8')] *)
Fixpoint utf8_encode (text : str) : option bytes :=
  match text with
  | [] => Some []
  | c :: rest =>
      match utf8_encode_char c, utf8_encode rest with
      | Some b, Some bs => Some (b ++ bs)
      | _, _ => None
      end
  end.

Definition continuation (b : N) : bool := (128 <=? b) && (b <=? 191).

(** [data.decode('utf-8')]: the well-formed sequences only; no overlong
    form, no surrogate, nothing above [0x10FFFF].  [None] stands for
    [UnicodeDecodeError]. *)
Fixpoint utf8_decode (data : bytes) : option str :=
  match data with
  | [] => Some []
  | b1 :: r1 =>
      if b1 <? 128 then option_map (cons b1) (utf8_decode r1)
      else if (194 <=? b1) && (b1 <=? 223) then
        match r1 with
        | b2 :: r2 =>
            if continuation b2
            then option_map (cons ((b1 - 192) * 64 + (b2 - 128)))
                            (utf8_decode r2)
            else None
        | [] => None
        end
      else if (224 <=? b1) && (b1 <=? 239) then
        match r1 with
        | b2 :: b3 :: r3 =>
            if (if b1 =? 224 then 160 <=? b2 else true) &&
               (if b1 =? 237 then b2 <=? 159 else true) &&
               continuation b2 && continuation b3
            then option_map
                   (cons ((b1 - 224) * 4096 + (b2 - 128) * 64 + (b3 - 128)))
                   (utf8_decode r3)
            else None
        | _ => None
        end
      else if (240 <=? b1) && (b1 <=? 244) then
        match r1 with
        | b2 :: b3 :: b4 :: r4 =>
            if (if b1 =? 240 then 144 <=? b2 else true) &&
               (if b1 =? 244 then b2 <=? 143 else true) &&
               continuation b2 && continuation b3 && continuation b4
            then option_map
                   (cons ((b1 - 240) * 262144 + (b2 - 128) * 4096 +
                          (b3 - 128) * 64 + (b4 - 128)))
                   (utf8_decode r4)
            else None
        | _ => None
        end
      else None
  end.

(** The decoder of [utf-8-sig] on the whole content of a file: a
    byte-order mark in front is skipped; fewer than three bytes that are the
    beginning of a byte-order mark are kept back for more input, and give
    the empty text when none comes. *)
Definition utf8_sig_decode (data : bytes) : option str :=
  match data with
  | [] => Some []
  | [b1] => if b1 =? 239 then Some [] else utf8_decode data
  | [b1; b2] =>
      if (b1 =? 239) && (b2 =? 187) then Some [] else utf8_decode data
  | b1 :: b2 :: b3 :: rest =>
      if (b1 =? 239) && (b2 =? 187) && (b3 =? 191) then utf8_decode rest
      else utf8_decode data
  end.

(** *** Text files *)

(** Reading with [newline=None]: CR LF and CR become the newline
    character. *)
Fixpoint translate_newlines (text : str) : str :=
  match text with
  | [] => []
  | c :: rest =>
      if c =? CR then
        LF :: match rest with
              | c2 :: rest' =>
                  if c2 =? LF then translate_newlines rest'
                  else translate_newlines rest
              | [] => []
              end
      else c :: translate_newlines rest
  end.

(** Writing with [newline=None]: the newline character becomes
    [os.linesep]. *)
Inductive platform := Posix | Windows.

Definition linesep (os : platform) : str :=
  match os with Posix => [LF] | Windows => [CR; LF] end.

Definition write_translate (os : platform) (text : str) : str :=
  flat_map (fun c => if c =? LF then linesep os else [c]) text.

(** *** [json.dump]: the chunks of [_make_iterencode] *)

Section Chunks.
Context {PF : PyFloat} {PI : Interpreter}.
Variable chunks : value -> list str.
Variable text : value -> str.
Variable separator : str.

Definition is_container (o : value) : bool :=
  match o with VList _ | VDict _ => true | _ => false end.

(** The loop of [_iterencode_list]: [buf] is yielded together with a term
    that is no list or mapping, and on its own before one that is. *)
Fixpoint list_chunks (lst : list value) (buf : str) : list str :=
  match lst with
  | [] => []
  | value :: rest =>
      (if is_container value then buf :: chunks value
       else [buf ++ text value]) ++
      list_chunks rest separator
  end.

(** The loop of [_iterencode_dict]. *)
Fixpoint dict_chunks (dct : list (str * value)) (first : bool) : list str :=
  match dct with
  | [] => []
  | (key, value) :: rest =>
      (if first then [] else [separator]) ++
      [encode_basestring key; [COLON; SPACE]] ++
      chunks value ++ dict_chunks rest false
  end.

End Chunks.

Section Files.
Context {PF : PyFloat} {PI : Interpreter}.
Variable path : Type.
Hypothesis path_eq_dec : forall p q : path, {p = q} + {p <> q}.
Variable os : platform.

(** The texts that [_iterencode(o, level)] yields one after the other. *)
Fixpoint iterencode_chunks (o : value) (level : nat) : list str :=
  match o with
  | VList [] => [dq "[]"]
  | VList lst =>
      list_chunks (fun v => iterencode_chunks v (S level))
                  (fun v => iterencode v (S level))
                  (COMMA :: newline_indent (S level))
                  lst (LBRACKET :: newline_indent (S level)) ++
      [newline_indent level; [RBRACKET]]
  | VDict [] => [dq "{}"]
  | VDict dct =>
      [[LBRACE]; newline_indent (S level)] ++
      dict_chunks (fun v => iterencode_chunks v (S level))
                  (COMMA :: newline_indent (S level)) dct true ++
      [newline_indent level; [RBRACE]]
  | _ => [iterencode o level]
  end.

(** [for chunk in iterable: fp.write(chunk)]: the bytes handed to the file
    before the first chunk that cannot be encoded, and whether there was
    none. *)
Fixpoint write_chunks (chunks : list str) : bytes * bool :=
  match chunks with
  | [] => ([], true)
  | chunk :: rest =>
      match utf8_encode (write_translate os chunk) with
      | Some b => let (bs, ok) := write_chunks rest in (b ++ bs, ok)
      | None => ([], false)
      end
  end.

(** *** The world of the script *)

(** A file that can be opened for reading, and whether it can be opened for
    writing. *)
Record file := mkFile {
  data : bytes;
  writable : bool
}.

Inductive exn :=
| OSError
| UnicodeDecodeError
| JSONDecodeErr (d : Diagnostic)
| ValueError
| RecursionError
| UnicodeEncodeError.

(** The exception of [json.loads] for a limit reached. *)
Definition limit_exn (why : Limit) : exn :=
  match why with
  | IntDigits => ValueError
  | Nesting | Fuel => RecursionError
  end.

(** [except json.JSONDecodeError]; every exception above is caught by
    [except Exception]. *)
Definition is_json_decode_error (e : exn) : bool :=
  match e with JSONDecodeErr _ => true | _ => false end.

Definition is_exception (e : exn) : bool := true.

Inductive directory := Themes | Plugins.

(** The lines printed. *)
Inductive event :=
| Starting
| DirectoryNotFound (d : directory)
| ErrorAtLine (lineno : nat)
| Content (error_line : str)
| Position (colno : nat)
| SuccessfullyProcessed (file_path : path)
| ErrorProcessing (file_path : path)
| ErrorReadingWriting (file_path : path) (e : exn)
| ProcessingComplete
| SuccessfullyProcessedCount (successful_files total_files : nat).

(** The files by path ([None] where [open] fails: nothing there, a
    directory, no permission) and what has been printed.  Printing itself
    and writing to an open file are taken not to fail. *)
Record world := mkWorld {
  files : path -> option file;
  stdout : list event
}.

Inductive result (A : Type) : Type :=
| Done (a : A)
| Raise (e : exn).
Arguments Done {A} a.
Arguments Raise {A} e.

Definition io (A : Type) : Type := world -> result A * world.

Definition io_ret {A : Type} (a : A) : io A := fun w => (Done a, w).

Definition io_bind {A B : Type} (m : io A) (k : A -> io B) : io B :=
  fun w =>
    match m w with
    | (Done a, w') => k a w'
    | (Raise e, w') => (Raise e, w')
    end.

Definition raise {A : Type} (e : exn) : io A := fun w => (Raise e, w).

Definition print (e : event) : io unit :=
  fun w => (Done tt, mkWorld (files w) (stdout w ++ [e])).

(** [try: body except E: handler] *)
Definition try_except {A : Type} (body : io A) (caught : exn -> bool)
    (handler : exn -> io A) : io A :=
  fun w =>
    match body w with
    | (Raise e, w') => if caught e then handler e w' else (Raise e, w')
    | r => r
    end.

Notation "x <~ m ;; k" := (io_bind m (fun x => k))
  (at level 61, m at next level, right associativity).
Notation "m >> k" := (io_bind m (fun _ => k))
  (at level 61, right associativity).

(** [with open(file_path, 'r', encoding='utf-8-sig') as f: f.read()] *)
Definition read_text (file_path : path) : io str :=
  fun w =>
    match files w file_path with
    | None => (Raise OSError, w)
    | Some f =>
        match utf8_sig_decode (data f) with
        | None => (Raise UnicodeDecodeError, w)
        | Some text => (Done (translate_newlines text), w)
        end
    end.

Definition set_file (w : world) (file_path : path) (f : file) : world :=
  mkWorld (fun q => if path_eq_dec q file_path then Some f else files w q)
          (stdout w).

(** [with open(file_path, 'w', encoding='utf-8') as f: json.dump(...)]:
    opening empties the file; what has been written when a chunk cannot be
    encoded reaches the file when it is closed. *)
Definition dump_to_file (file_path : path) (json_data : value) : io unit :=
  fun w =>
    match files w file_path with
    | None => (Raise OSError, w)
    | Some f =>
        if writable f then
          let (written, ok) := write_chunks (iterencode_chunks json_data 0) in
          let w' := set_file w file_path (mkFile written true) in
          if ok then (Done tt, w') else (Raise UnicodeEncodeError, w')
        else (Raise OSError, w)
    end.

(** [clean_json_content] with what it prints before it raises again. *)
Definition clean_json_content_io (content : str) : io value :=
  match clean_json_content content with
  | Ok json_data => io_ret json_data
  | MalformedJson d =>
      print (ErrorAtLine (line d)) >>
      print (Content (contextLine d)) >>
      print (Position (column d)) >>
      raise (JSONDecodeErr d)
  | Unfinished why => raise (limit_exn why)
  end.

Definition process_json_file (file_path : path) : io unit :=
  try_except
    (content <~ read_text file_path ;;
     try_except
       (json_data <~ clean_json_content_io content ;;
        dump_to_file file_path json_data >>
        print (SuccessfullyProcessed file_path))
       is_json_decode_error
       (fun _ => print (ErrorProcessing file_path)))
    is_exception
    (fun e => print (ErrorReadingWriting file_path e)).

(** What a call of [process_json_file] can do to the world: the cases of
    [process_json_file_cases]. *)
Inductive outcome_of (w : world) (file_path : path)
  : world -> Prop :=
| cannot_open :
    files w file_path = None ->
    outcome_of w file_path
      (mkWorld (files w)
               (stdout w ++ [ErrorReadingWriting file_path OSError]))
| cannot_decode f :
    files w file_path = Some f ->
    utf8_sig_decode (data f) = None ->
    outcome_of w file_path
      (mkWorld (files w)
               (stdout w ++ [ErrorReadingWriting file_path UnicodeDecodeError]))
| malformed f text d :
    files w file_path = Some f ->
    utf8_sig_decode (data f) = Some text ->
    clean_json_content (translate_newlines text) = MalformedJson d ->
    outcome_of w file_path
      (mkWorld (files w)
               (stdout w ++ [ErrorAtLine (line d);
                             Content (contextLine d);
                             Position (column d);
                             ErrorProcessing file_path]))
| refused f text why :
    files w file_path = Some f ->
    utf8_sig_decode (data f) = Some text ->
    clean_json_content (translate_newlines text) = Unfinished why ->
    outcome_of w file_path
      (mkWorld (files w)
               (stdout w ++ [ErrorReadingWriting file_path (limit_exn why)]))
| read_only f text json_data :
    files w file_path = Some f ->
    utf8_sig_decode (data f) = Some text ->
    clean_json_content (translate_newlines text) = Ok json_data ->
    writable f = false ->
    outcome_of w file_path
      (mkWorld (files w)
               (stdout w ++ [ErrorReadingWriting file_path OSError]))
| rewritten f text json_data b :
    files w file_path = Some f ->
    utf8_sig_decode (data f) = Some text ->
    clean_json_content (translate_newlines text) = Ok json_data ->
    writable f = true ->
    write_chunks (iterencode_chunks json_data 0) = (b, true) ->
    outcome_of w file_path
      (mkWorld (fun q => if path_eq_dec q file_path
                         then Some (mkFile b true) else files w q)
               (stdout w ++ [SuccessfullyProcessed file_path]))
| cut_short f text json_data b :
    files w file_path = Some f ->
    utf8_sig_decode (data f) = Some text ->
    clean_json_content (translate_newlines text) = Ok json_data ->
    writable f = true ->
    write_chunks (iterencode_chunks json_data 0) = (b, false) ->
    outcome_of w file_path
      (mkWorld (fun q => if path_eq_dec q file_path
                         then Some (mkFile b true) else files w q)
               (stdout w ++
                [ErrorReadingWriting file_path UnicodeEncodeError])).

(** *** [main] *)

(** The three counters. *)
Record counters := mkCounters {
  total_files : nat;
  processed_files : nat;
  successful_files : nat
}.

(** [for json_file in directory.rglob('*.json')] *)
Fixpoint process_directory (json_files : list path) (n : counters)
  : io counters :=
  match json_files with
  | [] => io_ret n
  | json_file :: rest =>
      let total := S (total_files n) in
      successful <~
        try_except
          (process_json_file json_file >>
           io_ret (S (successful_files n)))
          (fun _ => true)
          (fun _ => io_ret (successful_files n)) ;;
      process_directory rest
        (mkCounters total (S (processed_files n)) successful)
  end.

(** What [exists()] and [rglob('*.json')] give for the two directories:
    nothing for a directory that does not exist. *)
Definition tree : Type := directory -> option (list path).

Fixpoint process_directories (t : tree) (directories : list directory)
    (n : counters) : io counters :=
  match directories with
  | [] => io_ret n
  | d :: rest =>
      match t d with
      | None =>
          print (DirectoryNotFound d) >> process_directories t rest n
      | Some json_files =>
          n' <~ process_directory json_files n ;;
          process_directories t rest n'
      end
  end.

Definition main (t : tree) : io unit :=
  print Starting >>
  n <~ process_directories t [Themes; Plugins] (mkCounters 0 0 0) ;;
  print ProcessingComplete >>
  print (SuccessfullyProcessedCount (successful_files n) (total_files n)).

End Files.

(** The number of paths that [rglob] yields in the directories that
    exist. *)
Definition found_files {path : Type} (t : tree path) : nat :=
  length (concat (map (fun d => match t d with Some l => l | None => [] end)
                      [Themes; Plugins])).

(** A world for examples: paths are numbers, one writable file at path 7,
    nothing printed yet. *)
Definition one_file_world (content : bytes) : world nat :=
  mkWorld (fun p : nat =>
             if Nat.eq_dec p 7 then Some (mkFile content true) else None)
          [].

(* ===================================================================== *)
(** * Invariants of the proofs                                            *)
(* ===================================================================== *)

Section Invariants.
Context {PF : PyFloat} {PI : Interpreter}.

(** States of [lex_step] outside strings: [p] tells that a comma is
    pending, [k] that the line read so far has content. *)
Definition ready (p k : bool) : Lex := ((false, false), p, k).
Definition done : Lex := ((false, false), false, true).

(** Text that can stand inside a string of the encoder's output: it leaves
    the string open, unescaped, and the line with content. *)
Definition inside_string (T : str) : bool :=
  forallb text_char T &&
  match run quote_step (true, false) T with
  | Some (true, false) => true
  | _ => false
  end &&
  match run content_step true T with
  | Some true => true
  | _ => false
  end.

(** A decimal numeral as [Pos.to_uint] writes it: not empty, and without a
    leading zero unless it is the single digit zero. *)
Definition normal (d : Decimal.uint) : Prop :=
  match d with
  | Decimal.Nil => False
  | Decimal.D0 Decimal.Nil => True
  | Decimal.D0 _ => False
  | _ => True
  end.

(** What may follow the digits of a number: anything but a digit. *)
Definition not_digit_head (tail : str) : bool :=
  match tail with
  | [] => true
  | c :: _ => negb (is_digit c)
  end.

(** The head of a number: a digit or a minus sign. *)
Definition number_head (s : str) : bool :=
  match s with
  | c :: _ => is_digit c || (c =? MINUS)
  | [] => false
  end.

(** One member of an object as [iterencode] writes it: the key, a colon
    and a space, the value one level deeper. *)
Definition member (level : nat) (kv : str * value) : str :=
  encode_basestring (fst kv) ++ [COLON; SPACE] ++ iterencode (snd kv) (S level).

(** The encoding of [v] at any level, followed by a delimiter, is read
    back as [v] by a scanner with fuel for its length that can enter the
    containers of [v]. *)
Definition reads_back (v : value) : Prop :=
  forall level fuel depth tail,
    delimited tail = true ->
    (2 * length (iterencode v level ++ tail) + 1 <= fuel)%nat ->
    (nesting v <= depth)%nat ->
    scan_once fuel depth (iterencode v level ++ tail) = Parsed v tail.

(** A scanning function that succeeds moves forward, and this one never
    runs out of fuel. *)
Definition advances {A : Type} (x : scan A) (len : nat) : Prop :=
  match x with
  | Parsed _ rest => (length rest < len)%nat
  | Exhausted Fuel => False
  | _ => True
  end.

(** With [n] the length of the text, [scan_once] has enough fuel at
    [2 n + 1], the two loops at [2 n + 2]. *)
Definition fueled {A : Type} (x : scan A) (len fuel bound : nat) : Prop :=
  match x with
  | Parsed _ rest => (length rest < len)%nat
  | Exhausted Fuel => (fuel < bound)%nat
  | _ => True
  end.

End Invariants.

(* ===================================================================== *)
(** * Properties                                                          *)
(* ===================================================================== *)

(** An example with one container, for any interpreter. *)
Ltac one_deep :=
  let H := fresh "Hdepth" in
  pose proof recursion_depth_positive as H;
  unfold normalize, clean_json_content, json_loads;
  destruct recursion_depth; [inversion H|].

(** ** Preprocessor *)

Lemma allowed_char_spec c :
  allowed_char c = true <-> 32 <= c \/ c = LF \/ c = CR \/ c = TAB.
Proof.
  unfold allowed_char, char_in, LF, CR, TAB; simpl.
  rewrite !orb_true_iff, N.leb_le, !N.eqb_eq. intuition congruence.
Qed.

Lemma preprocess_no_control raw : no_control (preprocess raw).
Proof.
  unfold no_control, preprocess. split.
  - apply Forall_forall. intros c Hc. apply filter_In in Hc as [_ Hc].
    now apply allowed_char_spec.
  - intros Hin. apply filter_In in Hin as [Hin _].
    apply filter_In in Hin as [_ Hin]. discriminate.
Qed.

Lemma preprocess_In c raw : In c (preprocess raw) -> In c (strip_bom raw).
Proof.
  unfold preprocess. intros H. apply filter_In in H as [H _].
  now apply filter_In in H as [H _].
Qed.

Lemma strip_bom_In c raw : In c (strip_bom raw) -> c <> BOM \/ In BOM (tl raw).
Proof.
  destruct raw as [|a raw]; simpl; [tauto|].
  destruct (N.eqb_spec a BOM) as [->|Hne].
  - intros H. destruct (N.eq_dec c BOM) as [->|]; auto.
  - intros [<-|H]; auto. destruct (N.eq_dec c BOM) as [->|]; auto.
Qed.

Lemma filter_allowed_not_nul s :
  filter allowed_char (filter (fun c => negb (c =? NUL)) s) =
  filter allowed_char s.
Proof.
  induction s as [|c s IH]; [reflexivity|]. cbn [filter].
  destruct (N.eqb_spec c NUL) as [->|Hc]; cbn [negb filter]; [exact IH|].
  destruct (allowed_char c); [now f_equal|exact IH].
Qed.

Lemma filter_head (f : uchar -> bool) x s :
  hd_error (filter f s) = Some x <->
  exists pre rest,
    s = pre ++ x :: rest /\ Forall (fun c => f c = false) pre /\ f x = true.
Proof.
  induction s as [|c s IH]; cbn [filter hd_error].
  - split; [discriminate|]. intros (pre & rest & E & _). now destruct pre.
  - destruct (f c) eqn:Ec; cbn [hd_error].
    + split.
      * intros [= ->]. exists [], s. repeat split; auto.
      * intros (pre & rest & E & Hpre & Hx). destruct pre as [|p pre].
        -- now injection E as ->.
        -- injection E as -> _. inversion Hpre; subst. congruence.
    + rewrite IH. split.
      * intros (pre & rest & -> & Hpre & Hx). exists (c :: pre), rest.
        repeat split; auto.
      * intros (pre & rest & E & Hpre & Hx). destruct pre as [|p pre].
        -- injection E as -> _. congruence.
        -- injection E as -> ->. inversion Hpre; subst. eauto.
Qed.

(** C9, as stated, at two inputs: one that starts with two marks, and one
    with a null before a mark, which is looked for before the null is
    removed.  The text handed to the strippers starts with a byte-order
    mark. *)
Lemma preprocess_keeps_second_bom :
  ~ (no_control (preprocess [BOM; BOM; 123; 125]) /\
     no_bom (preprocess [BOM; BOM; 123; 125])) /\
  ~ (no_control (preprocess [NUL; BOM; 123; 125]) /\
     no_bom (preprocess [NUL; BOM; 123; 125])).
Proof. split; intros [_ H]; apply H; reflexivity. Qed.

(** C9, amended.  For every raw input the text handed to the comment
    strippers is the raw input without one U+FEFF in front, if it starts
    with one, and without its characters below 32 other than newline,
    carriage return and tab; so it holds none of these, and no null.  It
    starts with a byte-order mark exactly when, after that one mark is
    taken off, U+FEFF is the first character that is kept; and it holds
    U+FEFF somewhere exactly when the raw input holds one after a mark in
    front. *)
Theorem preprocess_sanitizes :
  (forall raw, no_control (preprocess raw)) /\
  (forall rest, preprocess (BOM :: rest) = filter allowed_char rest) /\
  (forall raw,
     hd_error raw <> Some BOM -> preprocess raw = filter allowed_char raw) /\
  (forall raw,
     no_bom (preprocess raw) <->
     ~ exists pre rest,
         strip_bom raw = pre ++ BOM :: rest /\
         Forall (fun c => allowed_char c = false) pre) /\
  (forall raw, In BOM (preprocess raw) <-> In BOM (strip_bom raw)).
Proof.
  assert (Hp : forall raw,
            preprocess raw = filter allowed_char (strip_bom raw))
    by (intros raw; apply filter_allowed_not_nul).
  split; [exact preprocess_no_control|].
  split; [intros rest; now rewrite Hp|].
  split.
  { intros raw Hh. rewrite Hp. f_equal. destruct raw as [|c raw]; [reflexivity|].
    cbn [strip_bom]. destruct (N.eqb_spec c BOM) as [->|]; [|reflexivity].
    now contradiction Hh. }
  split.
  - intros raw. unfold no_bom. rewrite Hp. split.
    + intros Hn (pre & rest & E & Hpre). apply Hn. apply filter_head.
      exists pre, rest. now repeat split.
    + intros Hn E. apply Hn. apply filter_head in E as (pre & rest & E & Hpre & _).
      eauto.
  - intros raw. rewrite Hp, filter_In. split; [now intros [H _]|].
    intros H. now split.
Qed.

Lemma preprocess_sanitizes_witness :
  preprocess [123; NUL; 7; BOM; 125; LF] = [123; BOM; 125; LF].
Proof.
  exact (proj1 (proj2 (proj2 preprocess_sanitizes)) [123; NUL; 7; BOM; 125; LF]
           ltac:(discriminate)).
Defined.

(** ** Trailing commas *)

Lemma closer_not_comma c : is_closer c = true -> (c =? COMMA) = false.
Proof.
  unfold is_closer, RBRACE, RBRACKET, COMMA.
  rewrite orb_true_iff, !N.eqb_eq. intros [->| ->]; reflexivity.
Qed.

Lemma closer_not_space c : is_closer c = true -> is_space c = false.
Proof.
  unfold is_closer, RBRACE, RBRACKET.
  rewrite orb_true_iff, !N.eqb_eq. intros [->| ->]; reflexivity.
Qed.

Lemma space_not_comma c : is_space c = true -> (c =? COMMA) = false.
Proof.
  intros H. destruct (N.eqb_spec c COMMA) as [->|]; [discriminate H|reflexivity].
Qed.

Lemma drop_trailing_group s g rest :
  match_group s = Some (g, rest) -> drop_trailing s = g ++ drop_trailing rest.
Proof.
  revert g rest. induction s as [|c s IH]; intros g rest; simpl; [discriminate|].
  unfold trailing_here.
  destruct (is_closer c) eqn:Hc.
  - intros [= <- <-]. now rewrite (closer_not_comma _ Hc).
  - destruct (is_space c) eqn:Hs; [|discriminate].
    destruct (match_group s) as [[g' r']|] eqn:E; [|discriminate].
    intros [= <- <-]. rewrite (space_not_comma _ Hs). simpl.
    now rewrite (IH _ _ eq_refl).
Qed.

Lemma re_sub_trailing_drop s : re_sub_trailing s = drop_trailing s.
Proof.
  funelim (re_sub_trailing s); simp re_sub_trailing; [reflexivity| |].
  - simpl. unfold trailing_here.
    destruct (c =? COMMA); [|discriminate].
    rewrite E. simpl. rewrite H. symmetry. now apply drop_trailing_group.
  - simpl. unfold trailing_here.
    destruct (c =? COMMA); simpl; [|now rewrite H].
    rewrite e. now rewrite H.
Qed.

Lemma match_group_drop_none rest :
  match_group rest = None ->
  match match_group (drop_trailing rest) with Some _ => true | None => false end
  = comma_ahead rest.
Proof.
  induction rest as [|x r IH]; simpl; [reflexivity|].
  destruct (is_closer x) eqn:Hc; [discriminate|].
  destruct (is_space x) eqn:Hs.
  - rewrite (space_not_comma _ Hs).
    destruct (match_group r) as [[g r']|] eqn:E; [discriminate|]. intros _.
    unfold trailing_here. rewrite (space_not_comma _ Hs). simpl.
    rewrite Hc, Hs. specialize (IH eq_refl).
    destruct (match_group (drop_trailing r)) as [[g r']|]; exact IH.
  - intros _. unfold trailing_here.
    destruct (x =? COMMA) eqn:Hx; simpl.
    + destruct (match_group r) as [[g r']|] eqn:E.
      * rewrite (drop_trailing_group _ E).
        clear -E. revert g r' E. induction r as [|y r IH]; intros g r'; simpl;
          [discriminate|].
        destruct (is_closer y) eqn:Hy.
        { intros [= <- <-]. simpl. now rewrite Hy. }
        destruct (is_space y) eqn:Hsy; [|discriminate].
        destruct (match_group r) as [[g0 r0]|] eqn:E0; [|discriminate].
        intros [= <- <-]. simpl. rewrite Hy, Hsy.
        specialize (IH _ _ eq_refl).
        destruct (match_group (g0 ++ drop_trailing r0)) as [[? ?]|];
          [reflexivity|discriminate].
      * simpl. now rewrite Hc, Hs.
    + now rewrite Hc, Hs.
Qed.

Lemma match_group_no_comma_ahead rest p :
  match_group rest = Some p -> comma_ahead rest = false.
Proof.
  revert p. induction rest as [|x r IH]; intros p; simpl; [discriminate|].
  destruct (is_closer x) eqn:Hc.
  - intros _. now rewrite (closer_not_comma _ Hc), (closer_not_space _ Hc).
  - destruct (is_space x) eqn:Hs; [|discriminate].
    rewrite (space_not_comma _ Hs).
    destruct (match_group r) as [q|] eqn:E; [|discriminate].
    intros _. now apply (IH q).
Qed.

Lemma trailing_after_drop s :
  has_trailing_comma (drop_trailing s) = has_stacked_commas s.
Proof.
  induction s as [|c rest IH]; simpl; [reflexivity|].
  unfold trailing_here at 1.
  destruct (c =? COMMA) eqn:Hc; simpl.
  - destruct (match_group rest) as [p|] eqn:E.
    + rewrite IH. now rewrite (match_group_no_comma_ahead _ E).
    + simpl. unfold trailing_here. rewrite Hc. simpl.
      rewrite (match_group_drop_none _ E). now rewrite IH.
  - unfold trailing_here. rewrite Hc. simpl. exact IH.
Qed.

(** C4, as stated, at [[1,,]]: one pass leaves [[1,]], in which a comma is
    followed by a closer. *)
Lemma one_pass_leaves_trailing_comma :
  (re_sub_trailing (dq "[1,,]") = dq "[1,]") /\
  (has_trailing_comma (re_sub_trailing (dq "[1,,]")) = true).
Proof. split; reflexivity. Qed.

(** C4, amended: the pass removes exactly the commas that are followed only
    by white space and then a closing brace or bracket (it is the
    character-wise filter [drop_trailing]); afterwards a comma followed only
    by white space and a closer remains exactly when the input held two
    commas, separated by white space only, before white space and a closer.
    On every other input the single pass leaves no such comma. *)
Theorem trailing_commas_after_one_pass s :
  re_sub_trailing s = drop_trailing s /\
  has_trailing_comma (re_sub_trailing s) = has_stacked_commas s.
Proof.
  split; [apply re_sub_trailing_drop|].
  rewrite re_sub_trailing_drop. apply trailing_after_drop.
Qed.

(** ** The flags of the two scans *)

Lemma line_body_escape st c n :
  escape_next (snd (line_body st c n)) = (c =? BACKSLASH) && negb (escape_next st).
Proof.
  unfold line_body. destruct st as [ic ins [|]]; simpl; [now rewrite andb_false_r|].
  rewrite andb_true_r.
  destruct (c =? BACKSLASH); [reflexivity|].
  destruct (c =? DQUOTE); simpl; [reflexivity|].
  destruct (_ && _); reflexivity.
Qed.

Lemma block_body_escape st c n :
  escape_next (after (block_body st c n)) = (c =? BACKSLASH) && negb (escape_next st).
Proof.
  unfold block_body. destruct st as [ic ins [|]]; simpl; [now rewrite andb_false_r|].
  rewrite andb_true_r.
  destruct (c =? BACKSLASH); [reflexivity|].
  destruct (c =? DQUOTE); simpl; [destruct ic; reflexivity|].
  destruct (_ && _); [reflexivity|].
  destruct (_ && _); [reflexivity|].
  destruct ic; reflexivity.
Qed.

Lemma escape_chain_app e its1 its2 :
  escape_chain e (its1 ++ its2) <->
  escape_chain e its1 /\ escape_chain (escape_after e its1) its2.
Proof.
  revert e. induction its1 as [|it its1 IH]; intros e; simpl; [tauto|].
  rewrite IH. tauto.
Qed.

Lemma line_iterations_chain line : forall st,
  escape_chain (escape_next st) (line_iterations st line) /\
  escape_next (snd (scan_line st line)) =
    escape_after (escape_next st) (line_iterations st line).
Proof.
  induction line as [|c rest IH]; intros st; simpl; [auto|].
  pose proof (line_body_escape st c (hd_error rest)) as Hb.
  destruct (line_body st c (hd_error rest)) as [[|] st'] eqn:E; simpl in *.
  - specialize (IH st'). destruct (scan_line st' rest) as [nl st''].
    simpl in *. rewrite <- Hb. tauto.
  - rewrite <- Hb. auto.
Qed.

Lemma lines_iterations_chain lines : forall st,
  escape_chain (escape_next st) (lines_iterations st lines).
Proof.
  induction lines as [|l rest IH]; intros st; simpl; [exact I|].
  apply escape_chain_app. destruct (line_iterations_chain l st) as [H1 H2].
  split; [exact H1|]. rewrite <- H2. apply IH.
Qed.

Lemma block_iterations_chain n : forall s st,
  (length s <= n)%nat ->
  escape_chain (escape_next st) (block_iterations st s).
Proof.
  induction n as [|n IH]; intros [|c rest] st Hn; simpl in *; try exact I; [lia|].
  split; [reflexivity|].
  rewrite <- (block_body_escape st c (hd_error rest)).
  destruct (skip (block_body st c (hd_error rest))).
  - destruct rest as [|c2 rest']; [exact I|]. apply IH. simpl in Hn. lia.
  - apply IH. lia.
Qed.

(** Consecutive iterations of a chained list obey the rule. *)
Lemma escape_chain_nth its : forall e k it1 it2,
  escape_chain e its ->
  nth_error its k = Some it1 ->
  nth_error its (S k) = Some it2 ->
  escape_next (before it2) =
    (current it1 =? BACKSLASH) && negb (escape_next (before it1)).
Proof.
  induction its as [|it its IH]; intros e k it1 it2 Hc H1 H2.
  - destruct k; discriminate.
  - destruct Hc as [He Hc]. destruct k as [|k].
    + injection H1 as <-. destruct its as [|it' its]; [discriminate|].
      injection H2 as <-. destruct Hc as [He' _]. now rewrite He', He.
    + apply (IH _ k it1 it2 Hc); assumption.
Qed.

(** The iterations are those of the code: the text kept by a scan is read
    off its iterations. *)
Lemma scan_line_iterations line : forall st,
  fst (scan_line st line) =
  flat_map (fun it =>
              match fst (line_body (before it) (current it) (lookahead it)) with
              | Append => [current it]
              | Break => []
              end) (line_iterations st line).
Proof.
  induction line as [|c rest IH]; intros st; simpl; [reflexivity|].
  destruct (line_body st c (hd_error rest)) as [[|] st'] eqn:E; simpl.
  - specialize (IH st'). destruct (scan_line st' rest) as [nl st''].
    simpl in *. now rewrite IH.
  - reflexivity.
Qed.

Lemma scan_block_iterations n : forall s st,
  (length s <= n)%nat ->
  fst (scan_block st s) =
  flat_map (fun it =>
              if emit (block_body (before it) (current it) (lookahead it))
              then [current it] else []) (block_iterations st s).
Proof.
  induction n as [|n IH]; intros [|c rest] st Hn; simpl in *; try reflexivity; [lia|].
  destruct (skip (block_body st c (hd_error rest))).
  - destruct rest as [|c2 rest'].
    + simpl. destruct (emit _); reflexivity.
    + specialize (IH rest' (after (block_body st c (Some c2)))).
      simpl in *. destruct (scan_block _ rest') as [cl st']. simpl in *.
      rewrite <- IH by lia. destruct (emit _); reflexivity.
  - specialize (IH rest (after (block_body st c (hd_error rest)))).
    destruct (scan_block _ rest) as [cl st']. simpl in *.
    rewrite <- IH by lia. destruct (emit _); reflexivity.
Qed.

(** C6, as stated, at the text [/* \ */]: in both scans the backslash is read
    outside any string and [escape_next] is true for the character after
    it. *)
Lemma escape_set_outside_string :
  ~ escape_only_in_string (lines_iterations initial (splitlines (dq "/* \ */"))) /\
  ~ escape_only_in_string (block_iterations initial (dq "/* \ */")).
Proof.
  split; intros H.
  - destruct (H 4%nat _ eq_refl eq_refl) as (j & it1 & Hk & Hn & _ & _ & Hs).
    injection Hk as <-. injection Hn as <-. discriminate Hs.
  - destruct (H 3%nat _ eq_refl eq_refl) as (j & it1 & Hk & Hn & _ & _ & Hs).
    injection Hk as <-. injection Hn as <-. discriminate Hs.
Qed.

(** C6, amended: throughout both comment-stripping scans, [escape_next] is
    true only for the character read immediately after an unescaped
    backslash, wherever that backslash stands (inside a string, outside one,
    or inside a block comment); it is false again once that character has
    been read.  In the first scan the rule runs across line ends. *)
Theorem escape_next_rule json_str :
  escape_rule (lines_iterations initial (splitlines json_str)) /\
  escape_rule (block_iterations initial json_str).
Proof.
  assert (Hrule : forall its, escape_chain false its -> escape_rule its).
  { intros its Hc. split.
    - intros it H0. destruct its as [|it' its]; [discriminate|].
      injection H0 as <-. apply Hc.
    - intros k it1 it2. now apply escape_chain_nth with (e := false). }
  split; apply Hrule.
  - apply (lines_iterations_chain _ initial).
  - apply (@block_iterations_chain _ json_str initial (le_n _)).
Qed.

(** ** The flags at line starts *)

Lemma scan_lines_states lines : forall st,
  scan_lines st lines =
  map (fun p => fst (scan_line (fst p) (snd p)))
      (combine (line_start_states st lines) lines).
Proof.
  induction lines as [|l rest IH]; intros st; simpl; [reflexivity|].
  destruct (scan_line st l) as [nl st'] eqn:E. simpl. now rewrite IH.
Qed.

Lemma line_start_states_step lines : forall st k line stk st',
  nth_error lines k = Some line ->
  nth_error (line_start_states st lines) k = Some stk ->
  nth_error (line_start_states st lines) (S k) = Some st' ->
  st' = snd (scan_line stk line).
Proof.
  induction lines as [|l rest IH]; intros st k line stk st' Hl Hk HS.
  - destruct k; discriminate.
  - destruct k as [|k]; simpl in *.
    + injection Hl as <-. injection Hk as <-.
      destruct rest; simpl in HS; [discriminate|]. now injection HS.
    + eapply IH; eassumption.
Qed.

(** C3, as stated, at the two lines [\] and [// c]: the scan of the second
    line starts with [escape_next] true, so its first slash is taken as an
    escaped character and the comment is kept. *)
Lemma escape_next_survives_line_end :
  ~ Forall (fun st => escape_next st = false)
      (line_start_states initial (splitlines (dq "\" ++ [LF] ++ dq "// c"))) /\
  strip_line_comments (dq "\" ++ [LF] ++ dq "// c") = dq "\" ++ [LF] ++ dq "// c".
Proof.
  split; [|reflexivity].
  intros H. inversion H as [|? ? _ H1]; subst.
  inversion H1 as [|? ? H2 _]; subst. discriminate H2.
Qed.

(** C3, amended: both flags are set to false once, before the first line;
    neither is reset at a line start.  The scan of every later line starts
    with the values of [in_string] and [escape_next] that the scan of the
    line before ended with, so a backslash that ends one line does escape
    the first character of the next. *)
Theorem line_flags_carry json_str k line st :
  nth_error (splitlines json_str) k = Some line ->
  nth_error (line_start_states initial (splitlines json_str)) k = Some st ->
  scan_lines initial (splitlines json_str) =
    map (fun p => fst (scan_line (fst p) (snd p)))
        (combine (line_start_states initial (splitlines json_str))
                 (splitlines json_str)) /\
  (k = 0%nat -> st = initial) /\
  (forall st', nth_error (line_start_states initial (splitlines json_str)) (S k)
               = Some st' ->
     in_string st' = in_string (snd (scan_line st line)) /\
     escape_next st' = escape_next (snd (scan_line st line)) /\
     escape_next st' = escape_after (escape_next st) (line_iterations st line)).
Proof.
  intros Hl Hk. split; [apply scan_lines_states|]. split.
  - intros ->. destruct (splitlines json_str); simpl in *; [discriminate|].
    now injection Hk.
  - intros st' HS.
    rewrite (line_start_states_step _ _ _ Hl Hk HS).
    repeat split. apply line_iterations_chain.
Qed.

Lemma line_flags_carry_witness :
  exists st',
    nth_error (line_start_states initial
                 (splitlines (dq "{'a': 'b\" ++ [LF] ++ dq "c'}"))) 1
      = Some st' /\
    in_string st' = true /\ escape_next st' = true.
Proof.
  eexists. split; [reflexivity|].
  destruct (@line_flags_carry (dq "{'a': 'b\" ++ [LF] ++ dq "c'}") 0
              (dq "{'a': 'b\") initial eq_refl eq_refl) as (_ & _ & H).
  destruct (H _ eq_refl) as (H1 & H2 & _). split; reflexivity.
Defined.

(** ** The index loops and the recursion over the remaining text agree *)

Lemma skipn_cons_inv (s : str) : forall i c rest,
  skipn i s = c :: rest ->
  nth_error s i = Some c /\ (i < length s)%nat /\ skipn (i + 1) s = rest.
Proof.
  induction s as [|a s IH]; intros i c rest H.
  - destruct i; discriminate.
  - destruct i as [|i]; simpl in *.
    + injection H as <- <-. repeat split. lia.
    + destruct (IH _ _ _ H) as (H1 & H2 & H3). repeat split; auto. lia.
Qed.

Lemma skipn_nil_inv (s : str) i : skipn i s = [] -> (length s <= i)%nat.
Proof.
  intros H. apply (f_equal (@length _)) in H. rewrite length_skipn in H.
  simpl in H. lia.
Qed.

Lemma getitem_at s i c rest : skipn i s = c :: rest -> getitem s i = Returned c.
Proof.
  intros H. apply skipn_cons_inv in H as (H & _). unfold getitem. now rewrite H.
Qed.

Lemma pair_at_next s i c rest a b flag :
  skipn i s = c :: rest ->
  pair_at s i c a b flag = Returned ((c =? a) && next_is b (hd_error rest) && flag).
Proof.
  intros H. unfold pair_at. destruct (c =? a); [|reflexivity]. simpl.
  apply skipn_cons_inv in H as (_ & _ & H).
  destruct rest as [|c2 rest]; simpl.
  - apply skipn_nil_inv in H.
    destruct (Nat.ltb_spec (i + 1) (length s)); [lia|reflexivity].
  - pose proof (skipn_cons_inv _ _ H) as (Hn & Hlt & _).
    destruct (Nat.ltb_spec (i + 1) (length s)); [|lia].
    unfold getitem. rewrite Hn. reflexivity.
Qed.

Lemma line_while_scan fuel : forall line i st acc,
  (length line - i < fuel)%nat ->
  line_while fuel line i st acc =
  Returned (acc ++ fst (scan_line st (skipn i line)),
            snd (scan_line st (skipn i line))).
Proof.
  induction fuel as [|fuel IH]; intros line i st acc Hf; [lia|].
  simpl. destruct (skipn i line) as [|c rest] eqn:E.
  - apply skipn_nil_inv in E.
    destruct (Nat.ltb_spec i (length line)); [lia|]. simpl.
    now rewrite app_nil_r.
  - pose proof (skipn_cons_inv _ _ E) as (_ & Hlt & Hrest).
    destruct (Nat.ltb_spec i (length line)); [|lia].
    rewrite (getitem_at _ _ E). simpl.
    unfold line_body.
    assert (Hrec : forall st',
      line_while fuel line (i + 1) st' (acc ++ [c]) =
      Returned (acc ++ c :: fst (scan_line st' rest), snd (scan_line st' rest))).
    { intros st'. rewrite IH by lia. rewrite Hrest.
      now rewrite <- app_assoc. }
    destruct (escape_next st).
    { rewrite Hrec. now destruct (scan_line _ rest). }
    destruct (c =? BACKSLASH).
    { rewrite Hrec. now destruct (scan_line _ rest). }
    destruct (c =? DQUOTE); simpl.
    { rewrite Hrec. now destruct (scan_line _ rest). }
    erewrite pair_at_next by exact E. simpl.
    destruct (_ && _); simpl.
    { now rewrite app_nil_r. }
    rewrite Hrec. now destruct (scan_line _ rest).
Qed.

Lemma lines_for_scan todo : forall st lines,
  lines_for st todo lines = Returned (lines ++ scan_lines st todo).
Proof.
  induction todo as [|line rest IH]; intros st lines; cbn [lines_for].
  - now rewrite app_nil_r.
  - rewrite line_while_scan by lia. cbn [bind skipn app fst snd].
    rewrite IH. cbn [scan_lines]. destruct (scan_line st line) as [nl st'].
    cbn [fst snd]. now rewrite <- app_assoc.
Qed.

Lemma block_while_scan fuel : forall s i st acc,
  (length s - i < fuel)%nat ->
  block_while fuel s i st acc =
  Returned (acc ++ fst (scan_block st (skipn i s)),
            snd (scan_block st (skipn i s))).
Proof.
  induction fuel as [|fuel IH]; intros s i st acc Hf; [lia|].
  simpl. destruct (skipn i s) as [|c rest] eqn:E.
  - apply skipn_nil_inv in E.
    destruct (Nat.ltb_spec i (length s)); [lia|]. simpl.
    now rewrite app_nil_r.
  - pose proof (skipn_cons_inv _ _ E) as (_ & Hlt & Hrest).
    destruct (Nat.ltb_spec i (length s)); [|lia].
    rewrite (getitem_at _ _ E). simpl.
    unfold block_body.
    assert (Hrec : forall st' acc',
      block_while fuel s (i + 1) st' acc' =
      Returned (acc' ++ fst (scan_block st' rest), snd (scan_block st' rest))).
    { intros st' acc'. rewrite IH by lia. now rewrite Hrest. }
    assert (Hskip : forall st' c2 rest',
      rest = c2 :: rest' ->
      block_while fuel s (i + 1 + 1) st' acc =
      Returned (acc ++ fst (scan_block st' rest'), snd (scan_block st' rest'))).
    { intros st' c2 rest' ->. rewrite IH by lia.
      apply skipn_cons_inv in Hrest as (_ & _ & ->). reflexivity. }
    destruct (escape_next st).
    { rewrite Hrec. simpl. destruct (scan_block _ rest), (in_comment st); simpl;
        now rewrite <- ?app_assoc. }
    destruct (c =? BACKSLASH).
    { rewrite Hrec. simpl. destruct (scan_block _ rest), (in_comment st); simpl;
        now rewrite <- ?app_assoc. }
    destruct (c =? DQUOTE); simpl.
    { destruct (in_comment st); simpl; rewrite Hrec;
        destruct (scan_block _ rest); simpl; now rewrite <- ?app_assoc. }
    erewrite pair_at_next by exact E. cbn [bind].
    destruct ((c =? SLASH) && next_is STAR (hd_error rest) && negb (in_string st))
      eqn:Ho.
    { destruct rest as [|c2 rest'].
      { simpl in Ho. rewrite andb_false_r in Ho. discriminate Ho. }
      rewrite (Hskip _ _ _ eq_refl). cbn [skip after emit].
      now destruct (scan_block _ rest'). }
    erewrite pair_at_next by exact E. cbn [bind].
    destruct ((c =? STAR) && next_is SLASH (hd_error rest) && in_comment st) eqn:Hc.
    { destruct rest as [|c2 rest'].
      { simpl in Hc. rewrite andb_false_r in Hc. discriminate Hc. }
      rewrite (Hskip _ _ _ eq_refl). cbn [skip after emit].
      now destruct (scan_block _ rest'). }
    destruct (in_comment st); simpl; rewrite Hrec;
      destruct (scan_block _ rest); simpl; now rewrite <- ?app_assoc.
Qed.

Lemma remove_comments_indexed_returns json_str :
  remove_comments_indexed json_str =
  Returned (remove_comments_from_json_string json_str).
Proof.
  unfold remove_comments_indexed, remove_comments_from_json_string.
  rewrite lines_for_scan. cbn [bind app].
  fold (strip_line_comments json_str).
  rewrite block_while_scan by lia. reflexivity.
Qed.

(** ** A block comment that is never closed *)

Lemma block_body_skip_next st c n :
  skip (block_body st c n) = true ->
  emit (block_body st c n) = false /\ exists c2, n = Some c2.
Proof.
  unfold block_body. destruct st as [ic ins e]; simpl.
  destruct e; [discriminate|].
  destruct (c =? BACKSLASH); [discriminate|].
  destruct (c =? DQUOTE); simpl; [destruct ic; discriminate|].
  destruct n as [c2|]; simpl.
  - destruct ((c =? SLASH) && (c2 =? STAR) && negb ins); simpl; [eauto|].
    destruct ((c =? STAR) && (c2 =? SLASH) && ic); simpl; [eauto|].
    destruct ic; discriminate.
  - rewrite !andb_false_r. simpl. destruct ic; discriminate.
Qed.

Lemma block_body_opens st c n :
  skip (block_body st c n) = true ->
  in_comment (after (block_body st c n)) = true ->
  c = SLASH /\ n = Some STAR.
Proof.
  unfold block_body. destruct st as [ic ins e]; simpl.
  destruct e; [discriminate|].
  destruct (c =? BACKSLASH); [discriminate|].
  destruct (c =? DQUOTE); simpl; [destruct ic; discriminate|].
  destruct (N.eqb_spec c SLASH) as [->|]; simpl.
  - destruct n as [c2|]; simpl.
    + destruct (N.eqb_spec c2 STAR) as [->|]; simpl; [auto|].
      destruct ic; discriminate.
    + destruct ic; discriminate.
  - destruct ((c =? STAR) && next_is SLASH n && ic); simpl;
      [discriminate|]. destruct ic; discriminate.
Qed.

Lemma block_body_keeps_comment st c n :
  skip (block_body st c n) = false ->
  in_comment (after (block_body st c n)) = in_comment st.
Proof.
  unfold block_body. destruct st as [ic ins e]; simpl.
  destruct e; [reflexivity|].
  destruct (c =? BACKSLASH); [reflexivity|].
  destruct (c =? DQUOTE); simpl; [destruct ic; reflexivity|].
  destruct (_ && _); [discriminate|].
  destruct (_ && _); [discriminate|].
  destruct ic; reflexivity.
Qed.

Lemma block_body_silent st c n :
  in_comment st = true -> emit (block_body st c n) = false.
Proof.
  unfold block_body. destruct st as [ic ins e]; simpl. intros ->.
  destruct e; [reflexivity|].
  destruct (c =? BACKSLASH); [reflexivity|].
  destruct (c =? DQUOTE); simpl; [reflexivity|].
  destruct (_ && _); [reflexivity|].
  destruct (_ && _); reflexivity.
Qed.

Lemma block_body_before_slash st c :
  skip (block_body st c (Some SLASH)) = false ->
  block_body st c None = block_body st c (Some SLASH).
Proof.
  unfold block_body. destruct st as [ic ins e]; simpl.
  destruct e; [reflexivity|].
  destruct (c =? BACKSLASH); [reflexivity|].
  destruct (c =? DQUOTE); simpl; [reflexivity|].
  rewrite !andb_false_r. simpl.
  destruct (c =? STAR); simpl; [|reflexivity].
  destruct ic; [discriminate|reflexivity].
Qed.

Lemma scan_block_cons st c rest :
  scan_block st (c :: rest) =
  let r := block_body st c (hd_error rest) in
  let tail := if skip r then tl rest else rest in
  ((if emit r then c :: fst (scan_block (after r) tail)
    else fst (scan_block (after r) tail)),
   snd (scan_block (after r) tail)).
Proof.
  simpl. destruct (skip _); [destruct rest as [|c2 rest']|]; simpl;
    try reflexivity; now destruct (scan_block _ _).
Qed.

Lemma unclosed_comment_general n : forall s st,
  (length s <= n)%nat ->
  in_comment (snd (scan_block st s)) = true ->
  exists pre rest,
    s = pre ++ rest /\
    fst (scan_block st s) = fst (scan_block st pre) /\
    ((in_comment (snd (scan_block st pre)) = false /\
      exists rest', rest = SLASH :: STAR :: rest') \/
     (pre = [] /\ in_comment st = true)).
Proof.
  induction n as [|n IH]; intros [|c s'] st Hn Hend; simpl in Hn; try lia.
  - exists [], []. simpl in *. auto.
  - exists [], []. simpl in *. auto.
  - rewrite scan_block_cons in Hend |- *. cbv zeta in Hend |- *.
    cbn [fst snd] in Hend |- *.
    destruct (skip (block_body st c (hd_error s'))) eqn:Hskip.
    + destruct (block_body_skip_next _ _ _ Hskip) as (Hemit & c2 & Hnext).
      destruct s' as [|c2' s'']; [discriminate|]. simpl in Hnext.
      injection Hnext as ->. cbn [hd_error tl] in *.
      set (r := block_body st c (Some c2)) in *.
      rewrite Hemit.
      destruct (IH s'' (after r)) as (pre & rest & Hs & Hout & Hcase);
        [simpl in Hn; lia|exact Hend|].
      destruct Hcase as [(Hpre & rest' & ->)|(-> & Hin)].
      * exists (c :: c2 :: pre), (SLASH :: STAR :: rest'). split; [now rewrite Hs|].
        rewrite scan_block_cons. cbv zeta. cbn [hd_error tl fst snd]. fold r.
        rewrite Hskip, Hemit. split; [assumption|]. left. eauto.
      * destruct (block_body_opens _ _ _ Hskip Hin) as (-> & [= ->]).
        simpl in Hs. subst s''. simpl in Hout.
        exists [], (SLASH :: STAR :: rest). simpl.
        split; [reflexivity|]. split; [assumption|].
        destruct (in_comment st) eqn:Hst; [right|left]; eauto.
    + set (r := block_body st c (hd_error s')) in *.
      destruct (IH s' (after r)) as (pre & rest & Hs & Hout & Hcase);
        [lia|exact Hend|].
      destruct Hcase as [(Hpre & rest' & ->)|(-> & Hin)].
      * exists (c :: pre), (SLASH :: STAR :: rest'). split; [now rewrite Hs|].
        assert (Hr : block_body st c (hd_error pre) = r).
        { unfold r. rewrite Hs. destruct pre as [|p pre]; [|reflexivity].
          simpl. apply block_body_before_slash.
          unfold r in Hskip. rewrite Hs in Hskip. exact Hskip. }
        rewrite scan_block_cons. cbv zeta. cbn [fst snd]. rewrite Hr, Hskip.
        split; [now rewrite Hout|]. left. eauto.
      * unfold r in Hin. rewrite (block_body_keeps_comment _ _ _ Hskip) in Hin.
        exists [], (c :: rest). simpl in Hs. subst s'. simpl.
        split; [reflexivity|]. split; [|auto].
        unfold r. rewrite (@block_body_silent st c (hd_error rest) Hin).
        simpl in Hout. exact Hout.
Qed.

Lemma unclosed_comment_discards s :
  in_comment (snd (scan_block initial s)) = true ->
  exists pre rest,
    s = pre ++ SLASH :: STAR :: rest /\
    in_comment (snd (scan_block initial pre)) = false /\
    strip_block_comments s = strip_block_comments pre.
Proof.
  intros H.
  destruct (@unclosed_comment_general _ s initial (le_n _) H)
    as (pre & rest & Hs & Hout & [(Hpre & rest' & ->)|(_ & Hin)]).
  - exists pre, rest'. auto.
  - discriminate Hin.
Qed.

(** ** Block comments: the terminator *)

Lemma next_after_plain body rest :
  forallb plain_in_comment body = true ->
  next_is SLASH (hd_error (body ++ STAR :: SLASH :: rest)) = false.
Proof.
  destruct body as [|d body]; [reflexivity|]. cbn [forallb app hd_error next_is].
  unfold plain_in_comment.
  destruct (d =? SLASH); [discriminate|reflexivity].
Qed.

Lemma plain_comment_closes body : forall st rest,
  in_comment st = true -> escape_next st = false ->
  forallb plain_in_comment body = true ->
  scan_block st (body ++ STAR :: SLASH :: rest) =
  scan_block (mkState false (in_string st) false) rest.
Proof.
  induction body as [|c body IH]; intros [ic ins esc] rest Hin Hesc Hb;
    cbn [in_comment escape_next in_string] in *; subst ic esc.
  - cbn. destruct (scan_block _ rest). reflexivity.
  - cbn [forallb] in Hb. apply andb_true_iff in Hb as [Hc Hb].
    pose proof (next_after_plain body rest Hb) as Hn.
    unfold plain_in_comment in Hc.
    apply andb_true_iff in Hc as [Hs Hk]. apply negb_true_iff in Hs, Hk.
    cbn [app scan_block]. unfold block_body.
    cbn [in_comment escape_next in_string negb].
    rewrite Hk, Hs, Hn, andb_false_r. cbn [andb].
    destruct (c =? DQUOTE); cbn [skip emit after andb];
      rewrite (IH (mkState true ins false) rest eq_refl eq_refl Hb);
      destruct (scan_block _ rest); reflexivity.
Qed.

(** C2: inside a comment whose text holds neither a slash nor a backslash,
    the first [*/] ends the comment and the scan goes on after it.  But a
    [/*] inside an open comment makes the scan jump over the star, and a
    backslash inside it makes the scan take the next character as escaped;
    in the two texts below the first [*/] after the opener is passed over
    and the rest of the text is discarded, where the comment should have
    ended and [ 2]] should have been kept (as it is in the third text). *)
Theorem block_comment_terminator_missed :
  (forall st body rest,
     in_comment st = true -> escape_next st = false ->
     forallb plain_in_comment body = true ->
     scan_block st (body ++ STAR :: SLASH :: rest) =
     scan_block (mkState false (in_string st) false) rest) /\
  (strip_block_comments (dq "[1, /* a /*/ 2]") = dq "[1, ") /\
  (strip_block_comments (dq "[1, /* a \*/ 2]") = dq "[1, ") /\
  (strip_block_comments (dq "[1, /* a */ 2]") = dq "[1,  2]").
Proof.
  split; [intros; now apply plain_comment_closes|].
  repeat split; reflexivity.
Qed.

(** ** The reported position *)

Lemma split_nl_nonempty s : split_nl s <> [].
Proof.
  destruct s as [|c s]; simpl; [discriminate|].
  destruct (c =? LF); [discriminate|]. destruct (split_nl s); discriminate.
Qed.

Lemma count_nl_cons c doc pos :
  count_nl (c :: doc) (S pos) =
  ((if (c =? LF)%N then 1 else 0) + count_nl doc pos)%nat.
Proof.
  unfold count_nl. cbn [firstn filter]. rewrite (N.eqb_sym LF c).
  destruct (c =? LF); reflexivity.
Qed.

Lemma column_of_no_newline doc : forall pos col,
  (pos <= length doc)%nat -> count_nl doc pos = 0%nat ->
  column_of doc pos col = (col + pos)%nat.
Proof.
  induction doc as [|c doc IH]; intros [|pos] col Hp Hc; simpl in *; try lia.
  rewrite count_nl_cons in Hc.
  destruct (c =? LF); [discriminate|]. rewrite IH by (simpl in *; lia). lia.
Qed.

Lemma column_of_positive doc : forall pos col,
  (1 <= col)%nat -> (1 <= column_of doc pos col)%nat.
Proof.
  induction doc as [|c doc IH]; intros [|pos] col Hc; simpl; try lia.
  apply IH. destruct (c =? LF); lia.
Qed.

Lemma locate_position doc : forall pos col,
  (pos <= length doc)%nat ->
  let n := count_nl doc pos in
  let k := if (n =? 0)%nat then (column_of doc pos col - col)%nat
           else (column_of doc pos col - 1)%nat in
  (n < length (split_nl doc))%nat /\
  firstn pos doc =
    join [LF] (firstn n (split_nl doc) ++ [firstn k (nth n (split_nl doc) [])]).
Proof.
  induction doc as [|c doc IH]; intros pos col Hp; simpl in Hp.
  - assert (pos = 0%nat) as -> by lia. cbn. rewrite firstn_nil.
    split; [lia|reflexivity].
  - destruct pos as [|pos].
    + cbn [count_nl firstn filter length Nat.eqb column_of]. rewrite Nat.sub_diag.
      split; [|reflexivity].
      pose proof (@split_nl_nonempty (c :: doc)).
      destruct (split_nl (c :: doc)); [contradiction|simpl; lia].
    + rewrite count_nl_cons. cbn [column_of split_nl].
      destruct (IH pos 1%nat ltac:(lia)) as [Hn1 Hf1].
      destruct (IH pos (S col) ltac:(lia)) as [Hn2 Hf2].
      destruct (c =? LF) eqn:Hc.
      * apply N.eqb_eq in Hc. subst c. cbn [Nat.add Nat.eqb length firstn nth app].
        split; [lia|].
        replace (if (count_nl doc pos =? 0)%nat
                 then (column_of doc pos 1 - 1)%nat
                 else (column_of doc pos 1 - 1)%nat)
          with (column_of doc pos 1 - 1)%nat in Hf1
          by (destruct (count_nl doc pos =? 0)%nat; reflexivity).
        rewrite Hf1.
        destruct (firstn (count_nl doc pos) (split_nl doc) ++ _) eqn:E;
          [now destruct (firstn _ _)|].
        reflexivity.
      * cbn [Nat.add].
        pose proof (@split_nl_nonempty doc).
        destruct (split_nl doc) as [|l ls] eqn:El; [contradiction|].
        cbn [length]. split; [simpl in Hn2; lia|].
        destruct (count_nl doc pos) as [|m] eqn:En.
        -- cbn [Nat.eqb firstn app nth join] in Hf2 |- *.
           rewrite (@column_of_no_newline doc pos (S col)) in * by (auto; lia).
           replace (S col + pos - S col)%nat with pos in Hf2 by lia.
           replace (S col + pos - col)%nat with (S pos) by lia.
           cbn [firstn]. now rewrite Hf2.
        -- cbn [Nat.eqb firstn app nth] in Hf2 |- *.
           rewrite Hf2.
           destruct (firstn m ls ++ _) eqn:E; [now destruct (firstn _ _)|].
           reflexivity.
Qed.

Section Validator.
Context {PF : PyFloat} {PI : Interpreter}.

Lemma json_loads_raised s e :
  json_loads s = Raised e ->
  exists m p, e = raise_error m s p /\ (p <= length s)%nat.
Proof.
  unfold json_loads. destruct s as [|c s']; [intros [= <-]; eexists _, _; eauto|].
  set (doc := c :: s').
  destruct (c =? BOM).
  { intros [= <-]. exists UnexpectedBOM, 0%nat. split; [reflexivity|]. lia. }
  destruct (scan_once _ _) as [obj rest|n|m n|].
  - destruct (skip_ws rest) as [|u r]; [discriminate|].
    intros [= <-]. exists ExtraData, (length doc - length (u :: r))%nat.
    split; [reflexivity|]. lia.
  - intros [= <-]. exists ExpectingValue, (length doc - n)%nat.
    split; [reflexivity|]. lia.
  - intros [= <-]. exists m, (length doc - n)%nat.
    split; [reflexivity|]. lia.
  - discriminate.
Qed.

Lemma raise_error_located m doc p :
  (p <= length doc)%nat ->
  let e := raise_error m doc p in
  (1 <= lineno e)%nat /\ (1 <= colno e)%nat /\
  (lineno e <= length (split_nl doc))%nat /\
  firstn p doc =
    join [LF] (firstn (lineno e - 1) (split_nl doc) ++
               [firstn (colno e - 1) (nth (lineno e - 1) (split_nl doc) [])]).
Proof.
  intros Hp. cbn [raise_error lineno colno].
  destruct (@locate_position doc p 1%nat Hp) as [Hn Hf].
  cbv zeta in Hn, Hf.
  replace (count_nl doc p + 1 - 1)%nat with (count_nl doc p) by lia.
  repeat split; try lia.
  - now apply column_of_positive.
  - rewrite Hf. now destruct (count_nl doc p =? 0)%nat.
Qed.

(** C8: when the cleaned text does not parse, nothing is written back and
    [clean_json_content] fails with the decoder's error; its line and column
    are at least 1; the line shown as context is the line of the cleaned
    text with that number (never the fall-back text), and line and column
    locate the error offset in the cleaned text: what precedes the offset is
    the lines before that line and the first [column - 1] characters of it.
    For the input [{"a": }] the error is at line 1, column 7, and the
    seventh character of the context line is the closing brace. *)
Theorem malformed_json_diagnostic :
  (forall content d,
     clean_json_content content = MalformedJson d ->
     let text := remove_comments_from_json_string (preprocess content) in
     exists e,
       json_loads text = Raised e /\
       line d = lineno e /\ column d = colno e /\ message d = msg e /\
       (1 <= line d)%nat /\ (1 <= column d)%nat /\
       (pos e <= length text)%nat /\
       nth_error (split_nl text) (line d - 1) = Some (contextLine d) /\
       firstn (pos e) text =
         join [LF] (firstn (line d - 1) (split_nl text) ++
                    [firstn (column d - 1) (contextLine d)])) /\
  (exists d,
     clean_json_content (dq "{'a': }") = MalformedJson d /\
     line d = 1%nat /\ column d = 7%nat /\ message d = ExpectingValue /\
     contextLine d = dq "{'a': }" /\
     nth_error (contextLine d) (column d - 1) = Some RBRACE) /\
  (forall content e,
     json_loads (remove_comments_from_json_string (preprocess content))
     = Raised e ->
     normalize content = None /\
     exists d, clean_json_content content = MalformedJson d).
Proof.
  split; [|split].
  3:{ intros content e He. unfold normalize, clean_json_content.
      rewrite He. eauto. }
  - intros content d. unfold clean_json_content.
    set (text := remove_comments_from_json_string (preprocess content)).
    destruct (json_loads text) as [obj|e|] eqn:El; try discriminate.
    intros [= <-]. cbv zeta. exists e. cbn [line column message contextLine].
    destruct (json_loads_raised _ El) as (m & p & -> & Hp).
    destruct (@raise_error_located m text p Hp) as (H1 & H2 & H3 & H4).
    cbv zeta in H1, H2, H3, H4.
    repeat split; try assumption.
    + unfold error_line.
      destruct (Nat.leb_spec (lineno (raise_error m text p)) (length (split_nl text)));
        [|lia].
      apply nth_error_nth'. lia.
    + unfold error_line.
      destruct (Nat.leb_spec (lineno (raise_error m text p)) (length (split_nl text)));
        [|lia].
      exact H4.
  - one_deep. eexists. split; [reflexivity|]. repeat split.
Qed.

End Validator.

Lemma malformed_json_diagnostic_witness :
  exists e,
    @json_loads text_float cpython (dq "[1 2]") = Raised e /\
    lineno e = 1%nat /\ colno e = 4%nat /\
    firstn (pos e) (dq "[1 2]") = dq "[1 ".
Proof.
  destruct (@malformed_json_diagnostic text_float cpython) as [H _].
  destruct (H (dq "[1 2]") _ eq_refl) as (e & He & _).
  exists e. split; [exact He|].
  injection He as <-. repeat split.
Defined.

(** ** Plain JSON text passes the cleaning stages unchanged *)

Lemma run_app (Q : Type) (step : Q -> uchar -> option Q) a : forall q b,
  run step q (a ++ b) =
  match run step q a with
  | Some q' => run step q' b
  | None => None
  end.
Proof.
  induction a as [|c a IH]; intros q b; simpl; [reflexivity|].
  destruct (step q c); [apply IH|reflexivity].
Qed.

Lemma text_char_allowed c :
  text_char c = true -> allowed_char c = true /\ (c =? NUL) = false.
Proof.
  intros H. rewrite allowed_char_spec. unfold text_char in H.
  rewrite !orb_true_iff, andb_true_iff, N.leb_le, !N.eqb_eq in H.
  destruct H as [[[H _]| ->]| ->]; split; try reflexivity; auto.
  apply N.eqb_neq. unfold NUL. lia.
Qed.

Lemma text_char_linebreak c :
  text_char c = true -> is_linebreak c = (c =? LF).
Proof.
  unfold text_char, LF, TAB.
  destruct (N.eqb_spec c 10) as [->|Hlf]; [reflexivity|].
  destruct (N.eqb_spec c 9) as [->|Htab]; [reflexivity|].
  rewrite !orb_false_r, andb_true_iff, negb_true_iff. now intros [_ ->].
Qed.

Lemma preprocess_plain s :
  match s with c :: _ => negb (c =? BOM) | [] => true end = true ->
  forallb text_char s = true ->
  preprocess s = s.
Proof.
  intros Hb Hs. unfold preprocess.
  assert (strip_bom s = s) as ->.
  { destruct s as [|c s]; [reflexivity|]. simpl.
    apply negb_true_iff in Hb. now rewrite Hb. }
  clear Hb. induction s as [|c s IH]; [reflexivity|].
  simpl in Hs. apply andb_true_iff in Hs as [Hc Hs].
  destruct (text_char_allowed _ Hc) as [Ha Hn].
  simpl. rewrite Hn. simpl. rewrite Ha. f_equal. now apply IH.
Qed.

Lemma splitlines_cons_LF r : splitlines (LF :: r) = [] :: splitlines r.
Proof. destruct r; reflexivity. Qed.

Lemma splitlines_cons_other c r :
  is_linebreak c = false ->
  splitlines (c :: r) =
  match splitlines r with
  | [] => [[c]]
  | l :: ls => (c :: l) :: ls
  end.
Proof. intros H. cbn [splitlines]. now rewrite H. Qed.

Lemma splitlines_nil_inv s : splitlines s = [] -> s = [].
Proof.
  destruct s as [|c s]; [reflexivity|]. cbn [splitlines].
  destruct (is_linebreak c); [discriminate|].
  destruct (splitlines s); discriminate.
Qed.

Lemma line_body_plain ic i e c n i' e' :
  quote_step (i, e) c = Some (i', e') ->
  line_body (mkState ic i e) c n = (Append, mkState ic i' e').
Proof.
  unfold quote_step, line_body. cbn [escape_next in_string in_comment].
  destruct e.
  { destruct (c =? LF); [discriminate|]. now intros [= <- <-]. }
  destruct (c =? BACKSLASH).
  { destruct i; [|discriminate]. now intros [= <- <-]. }
  destruct (c =? DQUOTE); cbn [andb negb].
  { now intros [= <- <-]. }
  destruct (c =? SLASH); cbn [andb].
  { destruct i; [|discriminate]. intros [= <- <-].
    now rewrite andb_false_r. }
  now intros [= <- <-].
Qed.

Lemma block_body_plain i e c n i' e' :
  quote_step (i, e) c = Some (i', e') ->
  block_body (mkState false i e) c n = mkStep true false (mkState false i' e').
Proof.
  unfold quote_step, block_body. cbn [escape_next in_string in_comment].
  destruct e.
  { destruct (c =? LF); [discriminate|]. now intros [= <- <-]. }
  destruct (c =? BACKSLASH).
  { destruct i; [|discriminate]. now intros [= <- <-]. }
  destruct (c =? DQUOTE); cbn [andb negb].
  { now intros [= <- <-]. }
  destruct (c =? SLASH); cbn [andb].
  { destruct i; [|discriminate]. intros [= <- <-].
    rewrite !andb_false_r. reflexivity. }
  intros [= <- <-]. now rewrite !andb_false_r.
Qed.

Lemma scan_lines_plain s : forall ic i e,
  forallb text_char s = true ->
  run quote_step (i, e) s <> None ->
  scan_lines (mkState ic i e) (splitlines s) = splitlines s.
Proof.
  induction s as [|c r IH]; intros ic i e Ht Hq; [reflexivity|].
  simpl in Ht. apply andb_true_iff in Ht as [Hc Ht].
  cbn [run] in Hq.
  destruct (quote_step (i, e) c) as [[i' e']|] eqn:Q; [|contradiction].
  pose proof (text_char_linebreak _ Hc) as Hlb.
  destruct (N.eqb_spec c LF) as [->|Hne].
  - rewrite splitlines_cons_LF. cbn [scan_lines scan_line]. f_equal.
    unfold quote_step in Q. destruct e; [discriminate Q|].
    cbn in Q. injection Q as <- <-. now apply IH.
  - rewrite (@splitlines_cons_other c r Hlb).
    specialize (IH ic i' e' Ht Hq).
    destruct (splitlines r) as [|l ls] eqn:E.
    + cbn [scan_lines scan_line hd_error].
      rewrite (@line_body_plain ic i e c None i' e' Q). reflexivity.
    + cbn [scan_lines scan_line] in IH |- *.
      rewrite (@line_body_plain ic i e c (hd_error l) i' e' Q).
      destruct (scan_line (mkState ic i' e') l) as [nl st'].
      injection IH as -> ->. reflexivity.
Qed.

Lemma scan_block_plain s : forall i e,
  run quote_step (i, e) s <> None ->
  fst (scan_block (mkState false i e) s) = s.
Proof.
  induction s as [|c r IH]; intros i e Hq; [reflexivity|].
  cbn [run] in Hq.
  destruct (quote_step (i, e) c) as [[i' e']|] eqn:Q; [|contradiction].
  rewrite scan_block_cons. cbv zeta.
  rewrite (@block_body_plain i e c (hd_error r) i' e' Q). cbn [emit skip after fst].
  f_equal. now apply IH.
Qed.

Lemma comma_pending_no_group r :
  run comma_step true r <> None -> match_group r = None.
Proof.
  induction r as [|c r IH]; [reflexivity|]. cbn [run match_group].
  unfold comma_step. destruct (is_closer c); [intros H; now contradiction H|].
  destruct (c =? COMMA) eqn:Hc.
  { intros _. destruct (is_space c) eqn:Hs; [|reflexivity].
    apply space_not_comma in Hs. congruence. }
  destruct (is_space c); [|reflexivity].
  intros H. now rewrite (IH H).
Qed.

Lemma drop_trailing_plain s : forall p,
  run comma_step p s <> None -> drop_trailing s = s.
Proof.
  induction s as [|c r IH]; intros p Hq; [reflexivity|].
  cbn [run] in Hq. cbn [drop_trailing]. unfold trailing_here.
  destruct (comma_step p c) as [p'|] eqn:Q; [|contradiction].
  destruct (c =? COMMA) eqn:Hc; cbn [andb].
  - unfold comma_step in Q. rewrite Hc in Q.
    destruct (is_closer c) eqn:Hcl; [apply closer_not_comma in Hcl; congruence|].
    injection Q as <-. rewrite (@comma_pending_no_group r Hq).
    f_equal. now apply (IH true).
  - f_equal. now apply (IH p').
Qed.

Lemma lines_nonblank s : forall k k',
  forallb text_char s = true ->
  run content_step k s = Some k' -> k' = true ->
  match splitlines s with
  | [] => True
  | l :: ls => (k || strip_nonempty l) = true /\ forallb strip_nonempty ls = true
  end.
Proof.
  induction s as [|c r IH]; intros k k' Ht Hq Hk; [exact I|].
  simpl in Ht. apply andb_true_iff in Ht as [Hc Ht].
  cbn [run] in Hq.
  destruct (content_step k c) as [k1|] eqn:Q; [|discriminate].
  pose proof (text_char_linebreak _ Hc) as Hlb.
  unfold content_step in Q.
  destruct (N.eqb_spec c LF) as [->|Hne].
  - rewrite splitlines_cons_LF. destruct k; [|discriminate]. injection Q as <-.
    split; [reflexivity|]. specialize (IH _ _ Ht Hq Hk).
    destruct (splitlines r) as [|l ls]; [reflexivity|].
    cbn [forallb]. destruct IH as [H1 H2]. cbn [orb] in H1. now rewrite H1, H2.
  - rewrite (@splitlines_cons_other c r Hlb). injection Q as <-.
    specialize (IH _ _ Ht Hq Hk).
    destruct (splitlines r) as [|l ls] eqn:E.
    + apply splitlines_nil_inv in E. subst r. cbn in Hq. injection Hq as <-.
      split; [|reflexivity]. cbn [strip_nonempty existsb]. now rewrite orb_false_r.
    + destruct IH as [H1 H2]. split; [|exact H2].
      cbn [strip_nonempty existsb] in *. now rewrite orb_assoc.
Qed.

Lemma join_splitlines s : forall k k',
  forallb text_char s = true ->
  run content_step k s = Some k' -> k' = true ->
  join [LF] (splitlines s) = s.
Proof.
  induction s as [|c r IH]; intros k k' Ht Hq Hk; [reflexivity|].
  simpl in Ht. apply andb_true_iff in Ht as [Hc Ht].
  cbn [run] in Hq.
  destruct (content_step k c) as [k1|] eqn:Q; [|discriminate].
  pose proof (text_char_linebreak _ Hc) as Hlb.
  specialize (IH _ _ Ht Hq Hk).
  destruct (N.eqb_spec c LF) as [->|Hne].
  - rewrite splitlines_cons_LF.
    destruct (splitlines r) as [|l ls] eqn:E.
    + apply splitlines_nil_inv in E. subst r. cbn in Hq. injection Hq as <-.
      unfold content_step in Q. cbn in Q. destruct k; [|discriminate].
      injection Q as <-. discriminate Hk.
    + cbn [join app] in IH |- *. now rewrite IH.
  - rewrite (@splitlines_cons_other c r Hlb).
    destruct (splitlines r) as [|l ls] eqn:E.
    + apply splitlines_nil_inv in E. now subst r.
    + destruct ls as [|l2 ls]; cbn [join app] in IH |- *; now rewrite IH.
Qed.

Lemma cleaning_plain_text s :
  plain_json_text s = true ->
  preprocess s = s /\ remove_comments_from_json_string s = s.
Proof.
  unfold plain_json_text. rewrite !andb_true_iff.
  intros ((((Hb & Ht) & Hq) & Hc) & Hk).
  split; [now apply preprocess_plain|].
  destruct (run content_step false s) as [k|] eqn:Ek; [|discriminate]. subst k.
  pose proof (@join_splitlines s false true Ht Ek eq_refl) as Hj.
  unfold remove_comments_from_json_string.
  assert (strip_line_comments s = s) as ->.
  { unfold strip_line_comments, initial. rewrite scan_lines_plain; auto.
    now destruct (run quote_step (false, false) s). }
  assert (strip_block_comments s = s) as ->.
  { unfold strip_block_comments, initial. apply scan_block_plain.
    now destruct (run quote_step (false, false) s). }
  rewrite re_sub_trailing_drop.
  rewrite (@drop_trailing_plain s false)
    by now destruct (run comma_step false s).
  unfold drop_blank_lines.
  pose proof (@lines_nonblank s false true Ht Ek eq_refl) as Hl.
  destruct (splitlines s) as [|l ls] eqn:E; [exact Hj|].
  destruct Hl as [H1 H2]. cbn [orb] in H1.
  assert (filter strip_nonempty (l :: ls) = l :: ls) as ->; [|exact Hj].
  cbn [filter]. rewrite H1. f_equal.
  clear -H2. induction ls as [|x ls IH]; [reflexivity|].
  cbn [forallb filter] in *. apply andb_true_iff in H2 as [Hx H2].
  rewrite Hx. f_equal. now apply IH.
Qed.

(** ** What the encoder writes is plain JSON text *)

Section Encoded.
Context {PF : PyFloat} {PI : Interpreter}.

Lemma value_ind' (P : value -> Prop) :
  P VNone ->
  (forall b, P (VBool b)) ->
  (forall z, P (VInt z)) ->
  (forall f, P (VFloat f)) ->
  (forall s, P (VStr s)) ->
  (forall lst, Forall P lst -> P (VList lst)) ->
  (forall dct, Forall (fun kv => P (snd kv)) dct -> P (VDict dct)) ->
  forall v, P v.
Proof.
  intros HN HB HI HF HS HL HD.
  fix IH 1. intros [| b | z | f | s | lst | dct].
  - exact HN.
  - apply HB.
  - apply HI.
  - apply HF.
  - apply HS.
  - apply HL. induction lst as [|x lst IHl]; constructor; [apply IH|exact IHl].
  - apply HD. induction dct as [|[k x] dct IHd]; constructor;
      [apply IH|exact IHd].
Qed.

Lemma stable_list lst : stable (VList lst) <-> Forall stable lst.
Proof.
  induction lst as [|x lst IH]; cbn [stable].
  - split; auto.
  - cbn [stable] in IH. rewrite IH. split.
    + intros [H1 H2]. now constructor.
    + intros H. inversion H; subst. auto.
Qed.

Lemma stable_dict dct :
  stable (VDict dct) <->
  Forall (fun kv => stable_string (fst kv) = true /\ stable (snd kv)) dct.
Proof.
  induction dct as [|[k x] dct IH]; cbn [stable].
  - split; auto.
  - cbn [stable] in IH. rewrite IH. split.
    + intros (H1 & H2 & H3). constructor; auto.
    + intros H. inversion H as [|? ? [H1 H2] H3]; subst. auto.
Qed.

Lemma lex_run_split s : forall q p k q' p' k',
  run lex_step (q, p, k) s = Some (q', p', k') <->
  forallb text_char s = true /\
  run quote_step q s = Some q' /\
  run comma_step p s = Some p' /\
  run content_step k s = Some k'.
Proof.
  induction s as [|c s IH]; intros q p k q' p' k'; cbn [run forallb].
  - split.
    + intros [= -> -> ->]. auto.
    + intros (_ & [= ->] & [= ->] & [= ->]). reflexivity.
  - unfold lex_step at 1. destruct (text_char c); cbn [andb].
    2:{ split; [discriminate|]. intros [H _]. discriminate. }
    destruct (quote_step q c) as [q1|].
    2:{ split; [discriminate|]. intros (_ & H & _). discriminate. }
    destruct (comma_step p c) as [p1|].
    2:{ split; [discriminate|]. intros (_ & _ & H & _). discriminate. }
    destruct (content_step k c) as [k1|].
    2:{ split; [discriminate|]. intros (_ & _ & _ & H). discriminate. }
    apply IH.
Qed.

Lemma lex_spaces n p k :
  run lex_step (ready p k) (repeat SPACE n) = Some (ready p k).
Proof.
  induction n as [|n IH]; [reflexivity|].
  cbn [repeat run]. replace (lex_step (ready p k) SPACE) with (Some (ready p k)).
  - exact IH.
  - destruct p, k; reflexivity.
Qed.

Lemma lex_newline_indent n p :
  run lex_step (ready p true) (newline_indent n) = Some (ready p false).
Proof.
  unfold newline_indent. cbn [run].
  replace (lex_step (ready p true) LF) with (Some (ready p false))
    by (destruct p; reflexivity).
  apply lex_spaces.
Qed.

Lemma atom_step c p k :
  atom_char c = true -> lex_step (ready p k) c = Some done.
Proof.
  unfold atom_char. rewrite !andb_true_iff, !negb_true_iff.
  intros (((((((Ht & Hs) & Hc) & Hco) & Hq) & Hb) & Hsl) & _).
  unfold lex_step, ready, done, quote_step, comma_step, content_step.
  rewrite Ht, Hb, Hq, Hsl, Hc, Hco, Hs.
  destruct (N.eqb_spec c LF) as [->|_]; [discriminate Hs|].
  now rewrite orb_true_r.
Qed.

Lemma lex_atoms T : forall p k,
  T <> [] -> forallb atom_char T = true ->
  run lex_step (ready p k) T = Some done.
Proof.
  induction T as [|c T IH]; intros p k Hne Ha; [contradiction|].
  cbn [forallb] in Ha. apply andb_true_iff in Ha as [Hc Ha].
  cbn [run]. rewrite (atom_step c p k Hc).
  destruct T as [|c2 T]; [reflexivity|].
  apply (IH false true); [discriminate|exact Ha].
Qed.

Lemma lex_comma p k : lex_step (ready p k) COMMA = Some (ready true true).
Proof. destruct p, k; reflexivity. Qed.

Lemma lex_closer c k :
  is_closer c = true -> lex_step (ready false k) c = Some done.
Proof.
  unfold is_closer, RBRACE, RBRACKET. rewrite orb_true_iff, !N.eqb_eq.
  intros [->| ->]; destruct k; reflexivity.
Qed.

Lemma lex_separator n p k :
  run lex_step (ready p k) (COMMA :: newline_indent n) = Some (ready true false).
Proof. cbn [run]. rewrite lex_comma. apply lex_newline_indent. Qed.

Lemma lex_join n items : forall p k,
  items <> [] ->
  Forall (fun x => forall p k, run lex_step (ready p k) x = Some done) items ->
  run lex_step (ready p k) (join (COMMA :: newline_indent n) items) = Some done.
Proof.
  induction items as [|x items IH]; intros p k Hne Hall; [contradiction|].
  inversion Hall as [|? ? Hx Hrest]; subst.
  destruct items as [|y items]; [apply Hx|].
  change (join (COMMA :: newline_indent n) (x :: y :: items))
    with (x ++ (COMMA :: newline_indent n) ++
          join (COMMA :: newline_indent n) (y :: items)).
  rewrite run_app, Hx, run_app. change done with (ready false true).
  rewrite lex_separator.
  apply IH; [discriminate|exact Hrest].
Qed.

(** Values below 32 are checked one by one. *)
Lemma below_32 (f : N -> bool) :
  forallb f (map N.of_nat (seq 0 32)) = true ->
  forall c, c < 32 -> f c = true.
Proof.
  intros H c Hc. rewrite forallb_forall in H. apply H.
  apply in_map_iff. exists (N.to_nat c). split; [apply N2Nat.id|].
  apply in_seq. lia.
Qed.

Lemma inside_string_spec T :
  inside_string T = true <->
  forallb text_char T = true /\
  run quote_step (true, false) T = Some (true, false) /\
  run content_step true T = Some true.
Proof.
  unfold inside_string. rewrite !andb_true_iff.
  destruct (run quote_step (true, false) T) as [[[|] [|]]|];
    destruct (run content_step true T) as [[|]|];
    intuition (try discriminate; auto).
Qed.

Lemma inside_string_app a b :
  inside_string a = true -> inside_string b = true ->
  inside_string (a ++ b) = true.
Proof.
  rewrite !inside_string_spec. intros (A1 & A2 & A3) (B1 & B2 & B3).
  rewrite forallb_app, !run_app, A1, A2, A3. auto.
Qed.

Lemma encode_char_inside c :
  negb ((c =? 133) || (c =? 8232) || (c =? 8233)) = true ->
  inside_string (encode_char c) = true.
Proof.
  intros Hc. destruct (N.ltb_spec c 32) as [Hlt|Hge].
  - apply (below_32 (fun c => inside_string (encode_char c)));
      [vm_compute; reflexivity|exact Hlt].
  - unfold encode_char.
    destruct (N.eqb_spec c DQUOTE) as [->|Hq]; [reflexivity|].
    destruct (N.eqb_spec c BACKSLASH) as [->|Hb]; [reflexivity|].
    destruct (N.eqb_spec c LF) as [->|Hlf]; [reflexivity|].
    destruct (N.eqb_spec c CR) as [->|Hcr]; [reflexivity|].
    destruct (N.eqb_spec c TAB) as [->|Htab]; [reflexivity|].
    destruct (N.eqb_spec c 8) as [->|H8]; [reflexivity|].
    destruct (N.eqb_spec c 12) as [->|H12]; [reflexivity|].
    destruct (N.ltb_spec c 32); [lia|].
    apply inside_string_spec. cbn [forallb run].
    assert (Ht : text_char c = true).
    { unfold text_char, is_linebreak. apply negb_true_iff in Hc.
      rewrite !orb_false_iff in Hc. destruct Hc as [[H1 H2] H3].
      rewrite H1, H2, H3.
      assert ((32 <=? c) = true) as -> by now apply N.leb_le.
      repeat match goal with
             | |- context [c =? ?n] =>
                 destruct (N.eqb_spec c n); [unfold LF, CR, TAB in *; lia|]
             end.
      reflexivity. }
    rewrite Ht. unfold quote_step, content_step.
    apply N.eqb_neq in Hq, Hb, Hlf. rewrite Hq, Hb, Hlf.
    split; [reflexivity|]. split; [destruct (c =? SLASH); reflexivity|].
    reflexivity.
Qed.

Lemma encoded_body_inside s :
  forallb (fun c => negb ((c =? 133) || (c =? 8232) || (c =? 8233))) s = true ->
  inside_string (flat_map encode_char s) = true.
Proof.
  induction s as [|c s IH]; intros H; [reflexivity|].
  cbn [forallb] in H. apply andb_true_iff in H as [Hc H].
  cbn [flat_map]. apply inside_string_app; [now apply encode_char_inside|auto].
Qed.

Lemma comma_run_ok s : forall p,
  has_trailing_comma s = false ->
  (p = true -> match_group s = None) ->
  exists p', run comma_step p s = Some p'.
Proof.
  induction s as [|c r IH]; intros p Ht Hp; [now exists p|].
  cbn [has_trailing_comma] in Ht. apply orb_false_iff in Ht as [Hh Ht].
  cbn [run match_group] in *. unfold comma_step. unfold trailing_here in Hh.
  destruct (is_closer c) eqn:Hcl.
  - destruct p; [now specialize (Hp eq_refl)|]. now apply IH.
  - destruct (c =? COMMA) eqn:Hco.
    + apply IH; [exact Ht|]. intros _. cbn [andb] in Hh.
      now destruct (match_group r).
    + destruct (is_space c) eqn:Hs.
      * apply IH; [exact Ht|]. intros ->. specialize (Hp eq_refl).
        now destruct (match_group r) as [[? ?]|].
      * now apply IH.
Qed.

Lemma lex_string s p k :
  stable_string s = true ->
  run lex_step (ready p k) (encode_basestring s) = Some done.
Proof.
  unfold stable_string. rewrite andb_true_iff, negb_true_iff.
  intros [Hchars Hcomma].
  apply encoded_body_inside, inside_string_spec in Hchars as (B1 & B2 & B3).
  unfold encode_basestring in *. set (B := flat_map encode_char s) in *.
  apply lex_run_split. repeat split.
  - cbn [forallb]. rewrite forallb_app, B1. reflexivity.
  - cbn [run]. change (quote_step (false, false) DQUOTE) with (Some (true, false)).
    cbv beta iota. now rewrite run_app, B2.
  - cbn [run]. replace (comma_step p DQUOTE) with (Some false)
      by (destruct p; reflexivity).
    cbv beta iota. cbn [has_trailing_comma] in Hcomma.
    apply orb_false_iff in Hcomma as [_ Hcomma].
    destruct (@comma_run_ok (B ++ [DQUOTE]) false Hcomma) as [p' Hp'];
      [discriminate|].
    rewrite Hp'. f_equal. rewrite run_app in Hp'.
    destruct (run comma_step false B) as [p1|]; [|discriminate].
    cbn [run] in Hp'. destruct p1; cbn in Hp'; congruence.
  - cbn [run]. replace (content_step k DQUOTE) with (Some true)
      by (destruct k; reflexivity).
    cbv beta iota. now rewrite run_app, B3.
Qed.

Lemma chars_of_uint_atoms d : forallb atom_char (chars_of_uint d) = true.
Proof. induction d; cbn [chars_of_uint forallb]; try rewrite IHd; reflexivity. Qed.

Lemma int_repr_atoms z :
  int_repr z <> [] /\ forallb atom_char (int_repr z) = true.
Proof.
  unfold int_repr. destruct z as [|p|p]; cbn [Z.to_int].
  - split; [discriminate|reflexivity].
  - split; [|apply chars_of_uint_atoms].
    pose proof (DecimalPos.Unsigned.to_uint_nonnil p).
    destruct (Pos.to_uint p); [contradiction|discriminate..].
  - split; [discriminate|]. cbn [forallb]. now rewrite chars_of_uint_atoms.
Qed.

Lemma stable_float_atoms f :
  stable_float f -> floatstr f <> [] /\ forallb atom_char (floatstr f) = true.
Proof.
  intros [Ha Hr]. split; [|exact Ha]. intros E.
  specialize (Hr 0%nat [] eq_refl). rewrite E in Hr. discriminate Hr.
Qed.

Lemma iterencode_lex v :
  stable v ->
  forall level p k, run lex_step (ready p k) (iterencode v level) = Some done.
Proof.
  induction v as [| b | z | f | s | lst IH | dct IH] using value_ind';
    intros Hst level p k; cbn [iterencode].
  - destruct p, k; reflexivity.
  - destruct b, p, k; reflexivity.
  - destruct (int_repr_atoms z). now apply lex_atoms.
  - destruct (stable_float_atoms Hst). now apply lex_atoms.
  - now apply lex_string.
  - destruct lst as [|x lst]; [destruct p, k; reflexivity|].
    set (items := map (fun v => iterencode v (S level)) (x :: lst)).
    rewrite run_app.
    rewrite (@lex_atoms [LBRACKET] p k); [|discriminate|reflexivity].
    change done with (ready false true).
    rewrite run_app, lex_newline_indent, run_app.
    rewrite (@lex_join (S level) items false false).
    + change done with (ready false true).
      rewrite run_app, lex_newline_indent. reflexivity.
    + discriminate.
    + apply stable_list in Hst. unfold items. apply Forall_map.
      rewrite Forall_forall in *. intros v Hv p' k'. apply IH; auto.
  - destruct dct as [|kv dct]; [destruct p, k; reflexivity|].
    set (items := map (fun kv => encode_basestring (fst kv) ++ [COLON; SPACE] ++
                                 iterencode (snd kv) (S level)) (kv :: dct)).
    rewrite run_app.
    rewrite (@lex_atoms [LBRACE] p k); [|discriminate|reflexivity].
    change done with (ready false true).
    rewrite run_app, lex_newline_indent, run_app.
    rewrite (@lex_join (S level) items false false).
    + change done with (ready false true).
      rewrite run_app, lex_newline_indent. reflexivity.
    + discriminate.
    + apply stable_dict in Hst. unfold items. apply Forall_map.
      rewrite Forall_forall in *. intros [key v] Hv p' k'. cbn [fst snd].
      destruct (Hst _ Hv) as [Hkey Hval]. cbn [fst snd] in *.
      rewrite run_app, (@lex_string key p' k' Hkey), run_app.
      change (run lex_step done [COLON; SPACE]) with (Some done).
      apply (IH _ Hv Hval).
Qed.

End Encoded.

(** ** The decoder reads back what the encoder writes *)

Section Roundtrip.
Context {PF : PyFloat} {PI : Interpreter}.

Lemma below_32_prop (P : N -> Prop) :
  Forall P (map N.of_nat (seq 0 32)) -> forall c, c < 32 -> P c.
Proof.
  intros H c Hc. rewrite Forall_forall in H. apply H.
  apply in_map_iff. exists (N.to_nat c). split; [apply N2Nat.id|].
  apply in_seq. lia.
Qed.

Lemma scanstring_encode_char c : forall begin x R,
  scanstring begin (encode_char c ++ x :: R) =
  scan_map (cons c) (scanstring begin (x :: R)).
Proof.
  destruct (N.ltb_spec c 32) as [Hlt|Hge].
  - revert c Hlt.
    apply (@below_32_prop (fun c => forall begin x R,
             scanstring begin (encode_char c ++ x :: R) =
             scan_map (cons c) (scanstring begin (x :: R)))).
    repeat (constructor; [intros begin x R; reflexivity|]). constructor.
  - intros begin x R. unfold encode_char.
    destruct (N.eqb_spec c DQUOTE) as [->|Hq]; [reflexivity|].
    destruct (N.eqb_spec c BACKSLASH) as [->|Hb]; [reflexivity|].
    destruct (N.eqb_spec c LF) as [->|Hlf]; [reflexivity|].
    destruct (N.eqb_spec c CR) as [->|Hcr]; [reflexivity|].
    destruct (N.eqb_spec c TAB) as [->|Htab]; [reflexivity|].
    destruct (N.eqb_spec c 8) as [->|H8]; [reflexivity|].
    destruct (N.eqb_spec c 12) as [->|H12]; [reflexivity|].
    destruct (N.ltb_spec c 32); [lia|].
    cbn [app scanstring].
    apply N.eqb_neq in Hq, Hb. rewrite Hq, Hb.
    destruct (N.leb_spec c 31); [lia|]. reflexivity.
Qed.

Lemma scanstring_encoded s : forall begin tail,
  scanstring begin (flat_map encode_char s ++ DQUOTE :: tail) = Parsed s tail.
Proof.
  induction s as [|c s IH]; intros begin tail; [reflexivity|].
  cbn [flat_map]. rewrite <- app_assoc.
  destruct (flat_map encode_char s ++ DQUOTE :: tail) as [|x R] eqn:E.
  { destruct (flat_map encode_char s); discriminate. }
  rewrite scanstring_encode_char, <- E, IH. reflexivity.
Qed.

(** Integers *)

Lemma to_uint_normal p : normal (Pos.to_uint p).
Proof.
  pose proof (DecimalPos.Unsigned.to_uint_nonnil p) as Hnil.
  pose proof (DecimalPos.Unsigned.to_uint_nonzero p) as Hzero.
  assert (Hnorm : Decimal.unorm (Pos.to_uint p) = Pos.to_uint p).
  { rewrite <- DecimalPos.Unsigned.to_of, DecimalPos.Unsigned.of_to.
    reflexivity. }
  destruct (Pos.to_uint p) as [|u|u|u|u|u|u|u|u|u|u]; cbn [normal]; auto.
  assert (u = Decimal.Nil) as ->; [|exact I].
  unfold Decimal.unorm in Hnorm. cbn [Decimal.nzhead] in Hnorm.
  pose proof (@DecimalFacts.nzhead_nonzero u) as Hnz.
  destruct (Decimal.nzhead u) eqn:E; try discriminate Hnorm.
  - now injection Hnorm.
  - exfalso. now eapply Hnz.
Qed.

Lemma uint_of_digits_chars d : uint_of_digits (chars_of_uint d) = d.
Proof.
  induction d; cbn [chars_of_uint uint_of_digits]; try rewrite IHd; reflexivity.
Qed.

Lemma span_digits_chars d tail :
  not_digit_head tail = true ->
  span_digits (chars_of_uint d ++ tail) = (chars_of_uint d, tail).
Proof.
  intros Ht. induction d; cbn [chars_of_uint app span_digits];
    try (change (is_digit _) with true; cbv iota; rewrite IHd; reflexivity).
  destruct tail as [|c t]; [reflexivity|]. cbn [span_digits].
  cbn in Ht. apply negb_true_iff in Ht. now rewrite Ht.
Qed.

Lemma delimited_head tail :
  delimited tail = true ->
  tail = [] \/ exists c t, tail = c :: t /\
    In c [SPACE; TAB; LF; CR; COMMA; RBRACE; RBRACKET].
Proof.
  destruct tail as [|c t]; [now left|]. right. exists c, t. split; [reflexivity|].
  unfold delimited, is_ws, is_closer in H.
  rewrite !orb_true_iff, !N.eqb_eq in H. cbn [In]. intuition auto.
Qed.

Lemma delimited_number tail :
  delimited tail = true ->
  not_digit_head tail = true /\
  match_frac tail = ([], tail) /\ match_exp tail = ([], tail).
Proof.
  intros H. destruct (delimited_head _ H) as [->|(c & t & -> & Hc)];
    [repeat split|].
  cbn [In] in Hc.
  repeat (destruct Hc as [<-|Hc]; [repeat split|]). contradiction.
Qed.

Lemma match_integer_normal d tail :
  normal d -> not_digit_head tail = true ->
  match_integer (chars_of_uint d ++ tail) = Some (chars_of_uint d, tail) /\
  match_integer (MINUS :: chars_of_uint d ++ tail) =
    Some (MINUS :: chars_of_uint d, tail).
Proof.
  intros Hn Ht.
  destruct d as [|u|u|u|u|u|u|u|u|u|u]; cbn [normal] in Hn; try contradiction;
    unfold match_integer; cbn [chars_of_uint app];
    try (change (48 =? MINUS) with false; change (49 =? MINUS) with false;
         change (50 =? MINUS) with false; change (51 =? MINUS) with false;
         change (52 =? MINUS) with false; change (53 =? MINUS) with false;
         change (54 =? MINUS) with false; change (55 =? MINUS) with false;
         change (56 =? MINUS) with false; change (57 =? MINUS) with false);
    change (MINUS =? MINUS) with true; cbv iota;
    try (destruct u; [|contradiction..]; split; reflexivity);
    cbn [N.eqb Pos.eqb is_digit N.leb N.compare Pos.compare Pos.compare_cont andb];
    rewrite (span_digits_chars u tail Ht); split; reflexivity.
Qed.

Lemma int_of_str_chars d :
  d <> Decimal.Nil ->
  int_of_str (chars_of_uint d) = Z.of_int (Decimal.Pos d) /\
  int_of_str (MINUS :: chars_of_uint d) = Z.of_int (Decimal.Neg d).
Proof.
  intros Hd. split.
  - rewrite <- (uint_of_digits_chars d) at 2.
    destruct d; [contradiction|reflexivity..].
  - unfold int_of_str. change (MINUS =? MINUS) with true. cbv iota.
    now rewrite uint_of_digits_chars.
Qed.

Lemma int_of_str_repr z : int_of_str (int_repr z) = z.
Proof.
  rewrite <- (DecimalZ.of_to z) at 2. unfold int_repr.
  destruct z as [|p|p]; cbn [Z.to_int]; [reflexivity| |];
    apply int_of_str_chars, DecimalPos.Unsigned.to_uint_nonnil.
Qed.

Lemma match_number_int z tail :
  delimited tail = true ->
  match_number (int_repr z ++ tail) = Some (int_repr z, [], [], tail).
Proof.
  intros Hd. destruct (delimited_number _ Hd) as (Hn & Hf & He).
  unfold match_number.
  assert (match_integer (int_repr z ++ tail) = Some (int_repr z, tail)) as ->.
  { unfold int_repr. destruct z as [|p|p]; cbn [Z.to_int].
    - now apply (@match_integer_normal (Decimal.D0 Decimal.Nil) tail I Hn).
    - now apply (@match_integer_normal _ tail (to_uint_normal p) Hn).
    - now apply (@match_integer_normal _ tail (to_uint_normal p) Hn). }
  now rewrite Hf, He.
Qed.

Lemma int_repr_head z tail : number_head (int_repr z ++ tail) = true.
Proof.
  unfold int_repr. destruct z as [|p|p]; cbn [Z.to_int]; try reflexivity.
  pose proof (to_uint_normal p) as Hn.
  destruct (Pos.to_uint p); try contradiction; reflexivity.
Qed.

Lemma scan_once_number fuel depth s :
  number_head s = true -> scan_once (S fuel) depth s = scan_atom s.
Proof.
  destruct s as [|c r]; [discriminate|]. cbn [number_head scan_once].
  intros H.
  destruct (N.eqb_spec c DQUOTE) as [->|_]; [discriminate H|].
  destruct (N.eqb_spec c LBRACE) as [->|_]; [discriminate H|].
  destruct (N.eqb_spec c LBRACKET) as [->|_]; [discriminate H|].
  reflexivity.
Qed.

Lemma scan_atom_number s i rest :
  number_head s = true ->
  match_number s = Some (i, [], [], rest) ->
  N.of_nat (int_digits i) <= int_max_str_digits ->
  scan_atom s = Parsed (VInt (int_of_str i)) rest.
Proof.
  destruct s as [|c r]; [discriminate|]. cbn [number_head]. intros H Hm Hi.
  apply N.leb_le in Hi.
  unfold scan_atom.
  change (dq "null") with [110; 117; 108; 108].
  change (dq "true") with [116; 114; 117; 101].
  change (dq "false") with [102; 97; 108; 115; 101].
  cbn [starts_with].
  destruct (N.eqb_spec 110 c) as [<-|_]; [discriminate H|].
  destruct (N.eqb_spec 116 c) as [<-|_]; [discriminate H|].
  destruct (N.eqb_spec 102 c) as [<-|_]; [discriminate H|].
  now rewrite Hm, Hi.
Qed.

Lemma scan_once_int z fuel depth tail :
  delimited tail = true ->
  N.of_nat (int_digits (int_repr z)) <= int_max_str_digits ->
  scan_once (S fuel) depth (int_repr z ++ tail) = Parsed (VInt z) tail.
Proof.
  intros Hd Hz. rewrite scan_once_number by apply int_repr_head.
  rewrite (@scan_atom_number _ (int_repr z) tail);
    [now rewrite int_of_str_repr|apply int_repr_head|now apply match_number_int
    |exact Hz].
Qed.

(** What is read with no container entered is read at any depth. *)
Lemma scan_once_deeper fuel depth s v r :
  scan_once fuel 0 s = Parsed v r -> scan_once fuel depth s = Parsed v r.
Proof.
  destruct fuel as [|fuel]; [discriminate|]. cbn [scan_once].
  destruct s as [|c s']; [discriminate|].
  destruct (c =? DQUOTE); [auto|].
  destruct (c =? LBRACE); [discriminate|].
  destruct (c =? LBRACKET); [discriminate|]. auto.
Qed.

(** Values by their parts *)

Lemma readable_list lst : readable (VList lst) <-> Forall readable lst.
Proof.
  induction lst as [|x lst IH]; cbn [readable].
  - split; auto.
  - cbn [readable] in IH. rewrite IH. split.
    + intros [H1 H2]. now constructor.
    + intros H. inversion H; subst. auto.
Qed.

Lemma readable_dict dct :
  readable (VDict dct) <-> Forall (fun kv => readable (snd kv)) dct.
Proof.
  induction dct as [|[k x] dct IH]; cbn [readable].
  - split; auto.
  - cbn [readable] in IH. rewrite IH. split.
    + intros [H1 H2]. now constructor.
    + intros H. inversion H; subst. auto.
Qed.

Lemma stable_readable v : stable v -> readable v.
Proof.
  induction v as [| b | z | f | s | lst IH | dct IH] using value_ind';
    intros Hs; try exact I.
  - exact Hs.
  - apply readable_list. apply stable_list in Hs.
    rewrite Forall_forall in *. auto.
  - apply readable_dict. apply stable_dict in Hs.
    rewrite Forall_forall in *. intros kv Hkv. apply IH; [exact Hkv|].
    now apply Hs.
Qed.

Lemma short_ints_list lst : short_ints (VList lst) <-> Forall short_ints lst.
Proof.
  induction lst as [|x lst IH]; cbn [short_ints].
  - split; auto.
  - cbn [short_ints] in IH. rewrite IH. split.
    + intros [H1 H2]. now constructor.
    + intros H. inversion H; subst. auto.
Qed.

Lemma short_ints_dict dct :
  short_ints (VDict dct) <-> Forall (fun kv => short_ints (snd kv)) dct.
Proof.
  induction dct as [|[k x] dct IH]; cbn [short_ints].
  - split; auto.
  - cbn [short_ints] in IH. rewrite IH. split.
    + intros [H1 H2]. now constructor.
    + intros H. inversion H; subst. auto.
Qed.

Lemma nesting_list lst d :
  (nesting (VList lst) <= S d)%nat <->
  Forall (fun v => (nesting v <= d)%nat) lst.
Proof.
  cbn [nesting]. rewrite <- Nat.succ_le_mono.
  induction lst as [|x lst IH].
  - split; [constructor|intros _; apply Nat.le_0_l].
  - rewrite Nat.max_lub_iff, IH. split.
    + intros [H1 H2]. now constructor.
    + intros H. inversion H; subst. auto.
Qed.

Lemma nesting_dict dct d :
  (nesting (VDict dct) <= S d)%nat <->
  Forall (fun kv => (nesting (snd kv) <= d)%nat) dct.
Proof.
  cbn [nesting]. rewrite <- Nat.succ_le_mono.
  induction dct as [|[k x] dct IH].
  - split; [constructor|intros _; apply Nat.le_0_l].
  - rewrite Nat.max_lub_iff, IH. split.
    + intros [H1 H2]. now constructor.
    + intros H. inversion H; subst. auto.
Qed.

Lemma nesting_container_positive v :
  is_container v = true -> (0 < nesting v)%nat.
Proof. destruct v; try discriminate; intros _; cbn [nesting]; lia. Qed.

(** White space around values *)

Lemma skip_ws_spaces n t : skip_ws (repeat SPACE n ++ t) = skip_ws t.
Proof. induction n as [|n IH]; [reflexivity|exact IH]. Qed.

Lemma skip_ws_newline_indent n t : skip_ws (newline_indent n ++ t) = skip_ws t.
Proof. unfold newline_indent. cbn [app skip_ws]. apply skip_ws_spaces. Qed.

Lemma ws_is_space c : is_space c = false -> is_ws c = false.
Proof.
  intros H. unfold is_ws, SPACE, TAB, LF, CR.
  repeat match goal with
         | |- context [c =? ?n] =>
             destruct (N.eqb_spec c n) as [->|_]; [discriminate H|]
         end.
  reflexivity.
Qed.

Lemma atom_char_props c :
  atom_char c = true -> is_space c = false /\ is_closer c = false /\ c <> BOM.
Proof.
  unfold atom_char. rewrite !andb_true_iff, !negb_true_iff.
  intros (((((((_ & Hs) & Hc) & _) & _) & _) & _) & Hb).
  repeat split; auto. now apply N.eqb_neq.
Qed.

Lemma iterencode_head v level :
  readable v ->
  exists c r, iterencode v level = c :: r /\
              is_space c = false /\ is_closer c = false /\ c <> BOM.
Proof.
  intros Hst.
  assert (Hatoms : forall T, T <> [] -> forallb atom_char T = true ->
            exists c r, T = c :: r /\
              is_space c = false /\ is_closer c = false /\ c <> BOM).
  { intros [|c r] Hne Ha; [contradiction|]. exists c, r. split; [reflexivity|].
    cbn [forallb] in Ha. apply andb_true_iff in Ha as [Ha _].
    now apply atom_char_props. }
  destruct v as [| b | z | f | s | lst | dct]; cbn [iterencode].
  - apply Hatoms; [discriminate|reflexivity].
  - destruct b; (apply Hatoms; [discriminate|reflexivity]).
  - destruct (int_repr_atoms z). now apply Hatoms.
  - destruct (stable_float_atoms Hst). now apply Hatoms.
  - eexists _, _. split; [reflexivity|]. repeat split. discriminate.
  - destruct lst; eexists _, _; (split; [reflexivity|]); repeat split;
      discriminate.
  - destruct dct; eexists _, _; (split; [reflexivity|]); repeat split;
      discriminate.
Qed.

Lemma skip_ws_value v level rest :
  readable v ->
  skip_ws (iterencode v level ++ rest) = iterencode v level ++ rest.
Proof.
  intros Hst. destruct (iterencode_head v level Hst) as (c & r & -> & Hs & _).
  cbn [app skip_ws]. now rewrite (ws_is_space _ Hs).
Qed.

(** Mappings *)

Lemma unique_keys_list lst : unique_keys (VList lst) <-> Forall unique_keys lst.
Proof.
  induction lst as [|x lst IH]; cbn [unique_keys].
  - split; auto.
  - cbn [unique_keys] in IH. rewrite IH. split.
    + intros [H1 H2]. now constructor.
    + intros H. inversion H; subst. auto.
Qed.

Lemma unique_keys_dict dct :
  unique_keys (VDict dct) <->
  NoDup (map fst dct) /\ Forall (fun kv => unique_keys (snd kv)) dct.
Proof.
  cbn [unique_keys]. apply and_iff_compat_l.
  induction dct as [|[k x] dct IH].
  - split; auto.
  - rewrite IH. split.
    + intros [H1 H2]. now constructor.
    + intros H. inversion H; subst. auto.
Qed.

Lemma dict_set_fresh d k v :
  ~ In k (map fst d) -> dict_set d k v = d ++ [(k, v)].
Proof.
  induction d as [|[k' v'] d IH]; intros Hk; [reflexivity|].
  cbn [dict_set]. destruct (list_eq_dec N.eq_dec k k') as [->|Hne].
  - exfalso. apply Hk. now left.
  - cbn [app]. f_equal. apply IH. intros Hin. apply Hk. now right.
Qed.

Lemma dict_of_pairs_unique pairs :
  NoDup (map fst pairs) -> dict_of_pairs pairs = pairs.
Proof.
  unfold dict_of_pairs.
  enough (H : forall d, NoDup (map fst (d ++ pairs)) ->
            fold_left (fun d kv => dict_set d (fst kv) (snd kv)) pairs d
            = d ++ pairs) by (intros Hn; now apply (H [])).
  induction pairs as [|[k v] pairs IH]; intros d Hn; cbn [fold_left fst snd].
  - now rewrite app_nil_r.
  - rewrite dict_set_fresh.
    + rewrite IH; rewrite <- app_assoc; [reflexivity|exact Hn].
    + rewrite map_app in Hn. cbn [map fst] in Hn.
      apply NoDup_remove_2 in Hn. intros Hin. apply Hn.
      apply in_or_app. now left.
Qed.

(** Values *)

Ltac lengths H :=
  repeat first [ rewrite length_app in H | rewrite length_app
               | progress cbn [length] in H | progress cbn [length] ].

Lemma delimited_newline_indent n t : delimited (newline_indent n ++ t) = true.
Proof. reflexivity. Qed.

Lemma array_values_items level : forall lst,
  lst <> [] ->
  Forall (fun v => readable v /\ reads_back v) lst ->
  forall fuel depth tail,
    (2 * length (join (COMMA :: newline_indent (S level))
                      (map (fun v => iterencode v (S level)) lst) ++
                 newline_indent level ++ RBRACKET :: tail) + 2 <= fuel)%nat ->
    Forall (fun v => (nesting v <= depth)%nat) lst ->
    array_values fuel depth
      (join (COMMA :: newline_indent (S level))
            (map (fun v => iterencode v (S level)) lst) ++
       newline_indent level ++ RBRACKET :: tail) = Parsed lst tail.
Proof.
  induction lst as [|x lst IH]; [contradiction|].
  intros _ Hall fuel depth tail Hf Hdeep.
  inversion Hall as [|? ? [Hsx Hrx] Hrest]; subst.
  inversion Hdeep as [|? ? Hdx Hdrest]; subst.
  destruct fuel as [|f]; [lia|].
  destruct lst as [|y lst].
  - cbn [map join] in Hf |- *. cbn [array_values].
    rewrite Hrx; [|apply delimited_newline_indent|lia|exact Hdx].
    rewrite skip_ws_newline_indent. reflexivity.
  - change (join (COMMA :: newline_indent (S level))
              (map (fun v => iterencode v (S level)) (x :: y :: lst)))
      with (iterencode x (S level) ++ (COMMA :: newline_indent (S level)) ++
            join (COMMA :: newline_indent (S level))
              (map (fun v => iterencode v (S level)) (y :: lst))) in Hf |- *.
    rewrite <- !app_assoc in Hf |- *. cbn [app] in Hf |- *.
    cbn [array_values].
    rewrite Hrx; [|reflexivity|lia|exact Hdx].
    cbn [skip_ws]. change (is_ws COMMA) with false. cbv iota.
    change (COMMA =? RBRACKET) with false. change (COMMA =? COMMA) with true.
    cbv iota.
    rewrite skip_ws_newline_indent.
    inversion Hrest as [|? ? [Hsy _] _]; subst.
    assert (Hskip : forall t,
      skip_ws (join (COMMA :: newline_indent (S level))
                 (map (fun v => iterencode v (S level)) (y :: lst)) ++ t) =
      join (COMMA :: newline_indent (S level))
        (map (fun v => iterencode v (S level)) (y :: lst)) ++ t).
    { intros t. destruct lst as [|z lst].
      - cbn [map join]. now apply skip_ws_value.
      - change (join (COMMA :: newline_indent (S level))
              (map (fun v => iterencode v (S level)) (y :: z :: lst)))
          with (iterencode y (S level) ++ (COMMA :: newline_indent (S level)) ++
            join (COMMA :: newline_indent (S level))
              (map (fun v => iterencode v (S level)) (z :: lst))).
        rewrite <- app_assoc. now apply skip_ws_value. }
    rewrite Hskip.
    rewrite IH; [reflexivity|discriminate|exact Hrest| |exact Hdrest].
    clear -Hf. lengths Hf. lia.
Qed.

Lemma join_members_head level kv dct t :
  exists r,
    join (COMMA :: newline_indent (S level)) (map (member level) (kv :: dct)) ++ t
    = DQUOTE :: r.
Proof.
  destruct dct as [|kv2 dct].
  - cbn [map join]. unfold member, encode_basestring. cbn [app]. eauto.
  - change (join (COMMA :: newline_indent (S level))
              (map (member level) (kv :: kv2 :: dct)))
      with (member level kv ++ (COMMA :: newline_indent (S level)) ++
            join (COMMA :: newline_indent (S level))
              (map (member level) (kv2 :: dct))).
    unfold member at 1, encode_basestring. cbn [app]. eauto.
Qed.

Lemma object_pairs_items level : forall dct,
  dct <> [] ->
  Forall (fun kv => readable (snd kv) /\ reads_back (snd kv)) dct ->
  forall fuel depth tail,
    (2 * length (join (COMMA :: newline_indent (S level))
                      (map (member level) dct) ++
                 newline_indent level ++ RBRACE :: tail) + 2 <= fuel)%nat ->
    Forall (fun kv => (nesting (snd kv) <= depth)%nat) dct ->
    object_pairs fuel depth
      (join (COMMA :: newline_indent (S level)) (map (member level) dct) ++
       newline_indent level ++ RBRACE :: tail) = Parsed dct tail.
Proof.
  induction dct as [|[k x] dct IH]; [contradiction|].
  intros _ Hall fuel depth tail Hf Hdeep.
  inversion Hall as [|? ? [Hsx Hrx] Hrest]; subst. cbn [snd] in Hsx, Hrx.
  inversion Hdeep as [|? ? Hdx Hdrest]; subst. cbn [snd] in Hdx.
  destruct fuel as [|f]; [lia|].
  destruct dct as [|kv2 dct].
  - cbn [map join] in Hf |- *. unfold member, encode_basestring in Hf |- *.
    cbn [fst snd] in Hf |- *.
    rewrite <- !app_assoc in Hf |- *. cbn [app] in Hf |- *.
    rewrite <- !app_assoc in Hf |- *. cbn [app] in Hf |- *.
    cbn [object_pairs]. change (DQUOTE =? DQUOTE) with true. cbv iota.
    rewrite scanstring_encoded.
    cbn [skip_ws]. change (is_ws COLON) with false. cbv iota.
    change (COLON =? COLON) with true. cbv iota.
    cbn [skip_ws]. change (is_ws SPACE) with true. cbv iota.
    rewrite skip_ws_value by exact Hsx.
    rewrite Hrx;
      [|apply delimited_newline_indent|clear -Hf; lengths Hf; lia|exact Hdx].
    rewrite skip_ws_newline_indent. reflexivity.
  - change (join (COMMA :: newline_indent (S level))
              (map (member level) ((k, x) :: kv2 :: dct)))
      with (member level (k, x) ++ (COMMA :: newline_indent (S level)) ++
            join (COMMA :: newline_indent (S level))
              (map (member level) (kv2 :: dct))) in Hf |- *.
    unfold member at 1, encode_basestring in Hf.
    unfold member at 1, encode_basestring.
    cbn [fst snd] in Hf |- *.
    rewrite <- !app_assoc in Hf |- *. cbn [app] in Hf |- *.
    rewrite <- !app_assoc in Hf |- *. cbn [app] in Hf |- *.
    cbn [object_pairs]. change (DQUOTE =? DQUOTE) with true. cbv iota.
    rewrite scanstring_encoded.
    cbn [skip_ws]. change (is_ws COLON) with false. cbv iota.
    change (COLON =? COLON) with true. cbv iota.
    cbn [skip_ws]. change (is_ws SPACE) with true. cbv iota.
    rewrite skip_ws_value by exact Hsx.
    rewrite Hrx; [|reflexivity|clear -Hf; lengths Hf; lia|exact Hdx].
    cbn [skip_ws]. change (is_ws COMMA) with false. cbv iota.
    change (COMMA =? RBRACE) with false. change (COMMA =? COMMA) with true.
    cbv iota.
    rewrite skip_ws_newline_indent.
    destruct (join_members_head level kv2 dct
                (newline_indent level ++ RBRACE :: tail)) as [r Hr].
    rewrite Hr. cbn [skip_ws]. change (is_ws DQUOTE) with false. cbv iota.
    rewrite <- Hr.
    rewrite IH; [reflexivity|discriminate|exact Hrest| |exact Hdrest].
    clear -Hf. lengths Hf. lia.
Qed.

Lemma join_items_head level x lst t :
  readable x ->
  exists c r,
    join (COMMA :: newline_indent (S level))
         (map (fun v => iterencode v (S level)) (x :: lst)) ++ t = c :: r /\
    is_space c = false /\ is_closer c = false.
Proof.
  intros Hs. destruct (iterencode_head x (S level) Hs) as (c & r & E & H1 & H2 & _).
  destruct lst as [|y lst].
  - cbn [map join]. rewrite E. cbn [app]. eauto.
  - change (join (COMMA :: newline_indent (S level))
              (map (fun v => iterencode v (S level)) (x :: y :: lst)))
      with (iterencode x (S level) ++ (COMMA :: newline_indent (S level)) ++
            join (COMMA :: newline_indent (S level))
              (map (fun v => iterencode v (S level)) (y :: lst))).
    rewrite E. cbn [app]. eauto.
Qed.

Lemma closer_cases c :
  is_closer c = false -> (c =? RBRACKET) = false /\ (c =? RBRACE) = false.
Proof.
  unfold is_closer. rewrite orb_false_iff. tauto.
Qed.

Lemma iterencode_reads_back v :
  unique_keys v -> readable v -> short_ints v -> reads_back v.
Proof.
  induction v as [| b | z | f | s | lst IH | dct IH] using value_ind';
    intros Hu Hs Hi level fuel depth tail Hd Hf Hn;
    (destruct fuel as [|fuel]; [lia|]).
  - reflexivity.
  - destruct b; reflexivity.
  - now apply scan_once_int.
  - apply scan_once_deeper. now apply Hs.
  - cbn [iterencode]. unfold encode_basestring. cbn [app scan_once].
    change (DQUOTE =? DQUOTE) with true. cbv iota.
    rewrite <- app_assoc. cbn [app]. now rewrite scanstring_encoded.
  - destruct lst as [|x lst].
    { destruct depth as [|depth]; [cbn [nesting] in Hn; lia|reflexivity]. }
    destruct depth as [|depth]; [cbn [nesting] in Hn; lia|].
    apply nesting_list in Hn.
    apply unique_keys_list in Hu. apply readable_list in Hs.
    apply short_ints_list in Hi.
    assert (Hall : Forall (fun v => readable v /\ reads_back v) (x :: lst)).
    { rewrite Forall_forall in *. intros v Hv. split; [now apply Hs|].
      apply IH; auto. }
    cbn [iterencode] in Hf |- *. rewrite <- !app_assoc in Hf |- *.
    cbn [app] in Hf |- *. cbn [scan_once].
    change (LBRACKET =? DQUOTE) with false.
    change (LBRACKET =? LBRACE) with false.
    change (LBRACKET =? LBRACKET) with true. cbv iota.
    unfold JSONArray. rewrite skip_ws_newline_indent.
    inversion Hall as [|? ? [Hsx _] _]; subst.
    destruct (join_items_head level x lst
                (newline_indent level ++ RBRACKET :: tail) Hsx)
      as (c & r & E & H1 & H2).
    rewrite E. cbn [skip_ws]. rewrite (ws_is_space _ H1).
    destruct (closer_cases _ H2) as [-> _]. rewrite <- E.
    rewrite array_values_items; [reflexivity|discriminate|exact Hall| |exact Hn].
    clear -Hf. lengths Hf. lia.
  - destruct dct as [|kv dct].
    { destruct depth as [|depth]; [cbn [nesting] in Hn; lia|reflexivity]. }
    destruct depth as [|depth]; [cbn [nesting] in Hn; lia|].
    apply nesting_dict in Hn.
    apply unique_keys_dict in Hu as [Hnd Hu]. apply readable_dict in Hs.
    apply short_ints_dict in Hi.
    assert (Hall : Forall (fun kv => readable (snd kv) /\ reads_back (snd kv))
                          (kv :: dct)).
    { rewrite Forall_forall in *. intros p Hp. split; [now apply Hs|].
      apply IH; auto. }
    cbn [iterencode] in Hf |- *.
    change (map (fun kv : str * value =>
                   encode_basestring (fst kv) ++ [COLON; SPACE] ++
                   iterencode (snd kv) (S level)) (kv :: dct))
      with (map (member level) (kv :: dct)) in Hf |- *.
    rewrite <- !app_assoc in Hf |- *.
    cbn [app] in Hf |- *. cbn [scan_once].
    change (LBRACE =? DQUOTE) with false.
    change (LBRACE =? LBRACE) with true. cbv iota.
    unfold JSONObject. rewrite skip_ws_newline_indent.
    destruct (join_members_head level kv dct
                (newline_indent level ++ RBRACE :: tail)) as [r Hr].
    rewrite Hr. cbn [skip_ws]. change (is_ws DQUOTE) with false. cbv iota.
    change (DQUOTE =? RBRACE) with false. cbv iota. rewrite <- Hr.
    rewrite object_pairs_items; [|discriminate|exact Hall| |exact Hn].
    + cbn [scan_map]. now rewrite dict_of_pairs_unique.
    + clear -Hf. lengths Hf. lia.
Qed.

(** What [json.dump] writes for a value that [json.loads] can return,
    [json.loads] reads back as that value. *)
Lemma loads_after_dump v :
  unique_keys v -> readable v -> short_ints v ->
  (nesting v <= recursion_depth)%nat ->
  json_loads (json_dump v) = Value v.
Proof.
  intros Hu Hs Hi Hn. unfold json_dump, json_loads.
  destruct (iterencode_head v 0 Hs) as (c & r & E & _ & _ & Hb).
  pose proof (@skip_ws_value v 0%nat [] Hs) as Hskip.
  pose proof (@iterencode_reads_back v Hu Hs Hi 0%nat
                (2 * length (iterencode v 0) + 2)%nat recursion_depth []
                eq_refl) as Hr.
  rewrite app_nil_r in Hskip, Hr. rewrite E in *.
  apply N.eqb_neq in Hb. rewrite Hb, Hskip, Hr; [reflexivity|lia|exact Hn].
Qed.

Lemma json_loads_dump v :
  unique_keys v -> stable v -> short_ints v ->
  (nesting v <= recursion_depth)%nat ->
  json_loads (json_dump v) = Value v.
Proof. intros Hu Hs. apply loads_after_dump; [exact Hu|now apply stable_readable]. Qed.

Lemma dump_plain v : stable v -> plain_json_text (json_dump v) = true.
Proof.
  intros Hs. unfold json_dump, plain_json_text.
  destruct (iterencode_head v 0 (stable_readable v Hs))
    as (c & r & E & _ & _ & Hb).
  pose proof (@iterencode_lex _ v Hs 0%nat false false) as Hl.
  apply lex_run_split in Hl as (H1 & H2 & H3 & H4).
  rewrite H1, H2, H3, H4, E. apply N.eqb_neq in Hb. now rewrite Hb.
Qed.

(** What the decoder returns has pairwise different keys in every mapping. *)

Lemma scan_map_parsed {A B : Type} (g : A -> B) (x : scan A) b r :
  scan_map g x = Parsed b r -> exists a, x = Parsed a r /\ b = g a.
Proof. destruct x; cbn; try discriminate. intros [= <- <-]. eauto. Qed.

Lemma dict_set_keys d k v :
  map fst (dict_set d k v) =
  if in_dec (list_eq_dec N.eq_dec) k (map fst d) then map fst d
  else map fst d ++ [k].
Proof.
  induction d as [|[k' v'] d IH]; [reflexivity|].
  cbn [dict_set map fst].
  destruct (list_eq_dec N.eq_dec k k') as [->|Hne].
  - cbn [map fst]. destruct (in_dec (list_eq_dec N.eq_dec) k' (k' :: map fst d)) as [_|Hn];
      [reflexivity|]. exfalso. apply Hn. now left.
  - cbn [map fst]. rewrite IH.
    destruct (in_dec (list_eq_dec N.eq_dec) k (map fst d)) as [Hin|Hnin];
      destruct (in_dec (list_eq_dec N.eq_dec) k (k' :: map fst d)) as [Hin'|Hnin'];
      try reflexivity.
    + exfalso. apply Hnin'. now right.
    + destruct Hin' as [->|Hin']; [contradiction|contradiction].
Qed.

Lemma dict_of_pairs_sound (P : value -> Prop) pairs :
  Forall (fun kv => P (snd kv)) pairs ->
  NoDup (map fst (dict_of_pairs pairs)) /\
  Forall (fun kv => P (snd kv)) (dict_of_pairs pairs).
Proof.
  unfold dict_of_pairs.
  enough (H : forall d,
            NoDup (map fst d) -> Forall (fun kv => P (snd kv)) d ->
            Forall (fun kv => P (snd kv)) pairs ->
            let d' := fold_left (fun d kv => dict_set d (fst kv) (snd kv)) pairs d in
            NoDup (map fst d') /\ Forall (fun kv => P (snd kv)) d').
  { intros Hp. apply (H []); [constructor|constructor|exact Hp]. }
  induction pairs as [|[k v] pairs IH]; intros d Hn Hd Hp; cbn [fold_left].
  - auto.
  - inversion Hp as [|? ? Hv Hp']; subst. cbn [fst snd] in *.
    apply IH; [| |exact Hp'].
    + rewrite dict_set_keys. destruct (in_dec (list_eq_dec N.eq_dec) k (map fst d)); [exact Hn|].
      apply NoDup_app; [exact Hn|repeat constructor; intros []|].
      intros a Ha [<-|[]]. contradiction.
    + clear -Hd Hv. induction d as [|[k' v'] d IHd]; cbn [dict_set].
      * repeat constructor. exact Hv.
      * inversion Hd; subst.
        destruct (list_eq_dec N.eq_dec k k'); constructor; auto.
Qed.

Lemma scan_atom_flat s v r :
  scan_atom s = Parsed v r -> unique_keys v.
Proof.
  unfold scan_atom.
  repeat match goal with
         | |- context [match ?x with _ => _ end] => destruct x
         end; intros [= <- _] || discriminate; exact I.
Qed.

Lemma decoded_unique_keys fuel :
  (forall depth s v r, scan_once fuel depth s = Parsed v r -> unique_keys v) /\
  (forall depth s vs r,
     array_values fuel depth s = Parsed vs r -> Forall unique_keys vs) /\
  (forall depth s ps r,
     object_pairs fuel depth s = Parsed ps r ->
     Forall (fun kv => unique_keys (snd kv)) ps).
Proof.
  induction fuel as [|fuel (IHv & IHa & IHo)];
    [repeat split; intros; discriminate|].
  repeat split.
  - intros depth s v r. cbn [scan_once]. destruct s as [|c s']; [discriminate|].
    destruct (c =? DQUOTE).
    { intros H. apply scan_map_parsed in H as (a & _ & ->). exact I. }
    destruct (c =? LBRACE).
    { destruct depth as [|depth]; [discriminate|]. unfold JSONObject.
      assert (Hp : forall t, scan_map (fun p => VDict (dict_of_pairs p))
                     (object_pairs fuel depth t) = Parsed v r -> unique_keys v).
      { intros t H. apply scan_map_parsed in H as (ps & Hps & ->).
        apply unique_keys_dict. apply dict_of_pairs_sound. eapply IHo, Hps. }
      destruct (skip_ws s') as [|c2 t]; [apply Hp|].
      destruct (c2 =? RBRACE); [|apply Hp].
      intros [= <- _]. apply unique_keys_dict. split; constructor. }
    destruct (c =? LBRACKET).
    { destruct depth as [|depth]; [discriminate|]. unfold JSONArray.
      assert (Hp : forall t,
                scan_map VList (array_values fuel depth t) = Parsed v r ->
                unique_keys v).
      { intros t H. apply scan_map_parsed in H as (vs & Hvs & ->).
        apply unique_keys_list. eapply IHa, Hvs. }
      destruct (skip_ws s') as [|c2 t]; [apply Hp|].
      destruct (c2 =? RBRACKET); [|apply Hp].
      intros [= <- _]. exact I. }
    apply scan_atom_flat.
  - intros depth s vs r. cbn [array_values].
    destruct (scan_once fuel depth s) as [val rest| | |] eqn:E; try discriminate.
    apply IHv in E.
    destruct (skip_ws rest) as [|c t]; [discriminate|].
    destruct (c =? RBRACKET).
    { intros [= <- _]. constructor; [exact E|constructor]. }
    destruct (c =? COMMA); [|discriminate].
    intros H. apply scan_map_parsed in H as (a & Ha & ->).
    constructor; [exact E|]. eapply IHa, Ha.
  - intros depth s ps r. cbn [object_pairs].
    destruct s as [|q s']; [discriminate|].
    destruct (q =? DQUOTE); [|discriminate].
    destruct (scanstring _ s') as [key rest| | |]; try discriminate.
    destruct (skip_ws rest) as [|c r2]; [discriminate|].
    destruct (c =? COLON); [|discriminate].
    destruct (scan_once fuel depth (skip_ws r2)) as [val rest3| | |] eqn:E;
      try discriminate.
    apply IHv in E.
    destruct (skip_ws rest3) as [|c3 r3]; [discriminate|].
    destruct (c3 =? RBRACE).
    { intros [= <- _]. constructor; [exact E|constructor]. }
    destruct (c3 =? COMMA); [|discriminate].
    intros H. apply scan_map_parsed in H as (a & Ha & ->).
    constructor; [exact E|]. eapply IHo, Ha.
Qed.

Lemma json_loads_unique_keys s v : json_loads s = Value v -> unique_keys v.
Proof.
  unfold json_loads. destruct s as [|c s']; [discriminate|].
  destruct (c =? BOM); [discriminate|].
  destruct (scan_once _ _ _) as [obj rest| | |] eqn:E; try discriminate.
  destruct (skip_ws rest); [|discriminate].
  intros [= <-]. eapply decoded_unique_keys, E.
Qed.

(** What the decoder returns is within the limits: no more containers one
    inside the other than it could enter, and no integer of more digits
    than [int] converts; so the encoder can write it. *)

Lemma chars_of_uint_length d : length (chars_of_uint d) = Decimal.nb_digits d.
Proof.
  induction d; cbn [chars_of_uint length Decimal.nb_digits];
    try rewrite IHd; reflexivity.
Qed.

Lemma uint_of_digits_length s : Decimal.nb_digits (uint_of_digits s) = length s.
Proof.
  induction s as [|c s IH]; [reflexivity|]. cbn [uint_of_digits length].
  unfold digit_of_char.
  repeat match goal with
         | |- context [match ?x with _ => _ end] => destruct x
         end; cbn [Decimal.nb_digits]; now rewrite IH.
Qed.

Lemma int_digits_chars d :
  int_digits (chars_of_uint d) = Decimal.nb_digits d.
Proof.
  rewrite <- chars_of_uint_length. now destruct d.
Qed.

Lemma unorm_nonnil u : Decimal.unorm u <> Decimal.Nil.
Proof. unfold Decimal.unorm. now destruct (Decimal.nzhead u). Qed.

Lemma int_digits_reread i :
  (0 < int_digits i)%nat ->
  (int_digits (int_repr (int_of_str i)) <= int_digits i)%nat.
Proof.
  destruct i as [|c r]; [cbn; lia|].
  assert (Hlen : int_digits (c :: r) =
                 if c =? MINUS then length r else length (c :: r))
    by reflexivity.
  rewrite Hlen. clear Hlen. unfold int_of_str, int_repr.
  destruct (c =? MINUS); intros Hi; rewrite DecimalZ.to_of; cbn [Decimal.norm].
  - pose proof (DecimalFacts.nb_digits_nzhead (uint_of_digits r)) as Hn.
    rewrite uint_of_digits_length in Hn.
    destruct (Decimal.nzhead (uint_of_digits r)) eqn:E;
      try (change (int_digits (MINUS :: ?x)) with (length x);
           rewrite chars_of_uint_length; exact Hn).
    change (int_digits (chars_of_uint Decimal.zero)) with 1%nat. lia.
  - rewrite int_digits_chars.
    rewrite <- (uint_of_digits_length (c :: r)).
    apply DecimalFacts.nb_digits_unorm.
    intros E. apply (f_equal Decimal.nb_digits) in E.
    rewrite uint_of_digits_length in E. discriminate E.
Qed.

Lemma match_integer_digits s i rest :
  match_integer s = Some (i, rest) -> (0 < int_digits i)%nat.
Proof.
  unfold match_integer.
  assert (H : forall s1 : str,
            match s1 with
            | [] => None
            | c :: r =>
                if c =? 48 then Some ([MINUS] ++ [c], r)
                else if is_digit c
                     then let (d, rest) := span_digits r in
                          Some ([MINUS] ++ c :: d, rest)
                     else None
            end = Some (i, rest) -> (0 < int_digits i)%nat).
  { intros [|c r]; [discriminate|].
    destruct (c =? 48); [intros [= <- _]; cbn; lia|].
    destruct (is_digit c); [|discriminate].
    destruct (span_digits r). intros [= <- _]. cbn. lia. }
  destruct s as [|c r]; [discriminate|].
  destruct (N.eqb_spec c MINUS) as [->|Hne]; [apply H|].
  cbn [app]. apply N.eqb_neq in Hne.
  destruct (c =? 48) eqn:E0.
  { intros [= <- _]. unfold int_digits. rewrite Hne. cbn. lia. }
  destruct (is_digit c); [|discriminate].
  destruct (span_digits r). intros [= <- _]. unfold int_digits. rewrite Hne.
  cbn. lia.
Qed.

Lemma scan_atom_within s v r :
  scan_atom s = Parsed v r -> nesting v = 0%nat /\ short_ints v.
Proof.
  unfold scan_atom.
  destruct (starts_with (dq "null") s); [now intros [= <- _]|].
  destruct (starts_with (dq "true") s); [now intros [= <- _]|].
  destruct (starts_with (dq "false") s); [now intros [= <- _]|].
  destruct (match_number s) as [[[[i f] e] rest]|] eqn:En.
  { destruct f, e; try (now intros [= <- _]).
    destruct (N.leb_spec (N.of_nat (int_digits i)) int_max_str_digits) as [Hi|];
      [|discriminate].
    intros [= <- _]. split; [reflexivity|]. cbn [short_ints].
    unfold match_number in En.
    destruct (match_integer s) as [[i' s1]|] eqn:Em; [|discriminate].
    destruct (match_frac s1), (match_exp _). injection En as -> _ _ _.
    pose proof (int_digits_reread _ (match_integer_digits _ Em)). lia. }
  destruct (starts_with (dq "NaN") s); [now intros [= <- _]|].
  destruct (starts_with (dq "Infinity") s); [now intros [= <- _]|].
  destruct (starts_with (dq "-Infinity") s); [now intros [= <- _]|].
  discriminate.
Qed.

Lemma decoded_within fuel :
  (forall depth s v r,
     scan_once fuel depth s = Parsed v r ->
     (nesting v <= depth)%nat /\ short_ints v) /\
  (forall depth s vs r,
     array_values fuel depth s = Parsed vs r ->
     Forall (fun v => (nesting v <= depth)%nat /\ short_ints v) vs) /\
  (forall depth s ps r,
     object_pairs fuel depth s = Parsed ps r ->
     Forall (fun kv => (nesting (snd kv) <= depth)%nat /\ short_ints (snd kv))
            ps).
Proof.
  induction fuel as [|fuel (IHv & IHa & IHo)];
    [repeat split; intros; discriminate|].
  assert (Hsplit : forall (A : Type) (P Q : A -> Prop) l,
            Forall (fun x => P x /\ Q x) l -> Forall P l /\ Forall Q l).
  { intros A P Q l H. split; (eapply Forall_impl; [|exact H]); now intros x [? ?]. }
  split; [|split].
  - intros depth s v r. cbn [scan_once]. destruct s as [|c s']; [discriminate|].
    destruct (c =? DQUOTE).
    { intros H. apply scan_map_parsed in H as (a & _ & ->).
      split; [apply Nat.le_0_l|exact I]. }
    destruct (c =? LBRACE).
    { destruct depth as [|depth]; [discriminate|]. unfold JSONObject.
      assert (Hp : forall t, scan_map (fun p => VDict (dict_of_pairs p))
                     (object_pairs fuel depth t) = Parsed v r ->
                   (nesting v <= S depth)%nat /\ short_ints v).
      { intros t H. apply scan_map_parsed in H as (ps & Hps & ->).
        apply IHo in Hps.
        apply (dict_of_pairs_sound
                 (fun x => (nesting x <= depth)%nat /\ short_ints x)) in Hps
          as [_ Hps].
        apply Hsplit in Hps as [H1 H2].
        split; [now apply nesting_dict|now apply short_ints_dict]. }
      destruct (skip_ws s') as [|c2 t]; [apply Hp|].
      destruct (c2 =? RBRACE); [|apply Hp].
      intros [= <- _]. split; [cbn; lia|exact I]. }
    destruct (c =? LBRACKET).
    { destruct depth as [|depth]; [discriminate|]. unfold JSONArray.
      assert (Hp : forall t,
                scan_map VList (array_values fuel depth t) = Parsed v r ->
                (nesting v <= S depth)%nat /\ short_ints v).
      { intros t H. apply scan_map_parsed in H as (vs & Hvs & ->).
        apply IHa, Hsplit in Hvs as [H1 H2].
        split; [now apply nesting_list|now apply short_ints_list]. }
      destruct (skip_ws s') as [|c2 t]; [apply Hp|].
      destruct (c2 =? RBRACKET); [|apply Hp].
      intros [= <- _]. split; [cbn; lia|exact I]. }
    intros H. apply scan_atom_within in H as [-> H]. split; [apply Nat.le_0_l|exact H].
  - intros depth s vs r. cbn [array_values].
    destruct (scan_once fuel depth s) as [val rest| | |] eqn:E; try discriminate.
    apply IHv in E.
    destruct (skip_ws rest) as [|c t]; [discriminate|].
    destruct (c =? RBRACKET).
    { intros [= <- _]. constructor; [exact E|constructor]. }
    destruct (c =? COMMA); [|discriminate].
    intros H. apply scan_map_parsed in H as (a & Ha & ->).
    constructor; [exact E|]. eapply IHa, Ha.
  - intros depth s ps r. cbn [object_pairs].
    destruct s as [|q s']; [discriminate|].
    destruct (q =? DQUOTE); [|discriminate].
    destruct (scanstring _ s') as [key rest| | |]; try discriminate.
    destruct (skip_ws rest) as [|c r2]; [discriminate|].
    destruct (c =? COLON); [|discriminate].
    destruct (scan_once fuel depth (skip_ws r2)) as [val rest3| | |] eqn:E;
      try discriminate.
    apply IHv in E.
    destruct (skip_ws rest3) as [|c3 r3]; [discriminate|].
    destruct (c3 =? RBRACE).
    { intros [= <- _]. constructor; [exact E|constructor]. }
    destruct (c3 =? COMMA); [|discriminate].
    intros H. apply scan_map_parsed in H as (a & Ha & ->).
    constructor; [exact E|]. eapply IHo, Ha.
Qed.

Lemma json_loads_within s v :
  json_loads s = Value v ->
  (nesting v <= recursion_depth)%nat /\ short_ints v.
Proof.
  unfold json_loads. destruct s as [|c s']; [discriminate|].
  destruct (c =? BOM); [discriminate|].
  destruct (scan_once _ _ _) as [obj rest| | |] eqn:E; try discriminate.
  destruct (skip_ws rest); [|discriminate].
  intros [= <-]. eapply decoded_within, E.
Qed.

End Roundtrip.

(** ** The decoder always answers *)

Section Totality.
Context {PF : PyFloat} {PI : Interpreter}.

Local Ltac measure := unfold str, uchar in *; cbn [length] in *; lia.

Lemma advances_map {A B : Type} (g : A -> B) (x : scan A) len len' :
  advances x len -> (len <= len')%nat -> advances (scan_map g x) len'.
Proof. destruct x as [a r|n|m n|[]]; cbn; auto. measure. Qed.

Lemma skip_ws_length s : (length (skip_ws s) <= length s)%nat.
Proof.
  induction s as [|c s IH]; [apply le_n|]. cbn [skip_ws].
  destruct (is_ws c); cbn [length]; measure.
Qed.

Lemma scanstring_advances n : forall s begin,
  (length s <= n)%nat -> advances (scanstring begin s) (S (length s)).
Proof.
  induction n as [|n IH]; intros [|c r] begin Hn; try exact I;
    cbn [length] in Hn; [measure|].
  assert (Hrec : forall u s', (length s' <= length r)%nat ->
            advances (scan_map (cons u) (scanstring begin s'))
                     (S (length (c :: r)))).
  { intros u s' Hs. eapply advances_map; [apply IH; measure|cbn [length]; measure]. }
  cbn [scanstring].
  destruct (c =? DQUOTE); [cbn; measure|].
  destruct (c =? BACKSLASH).
  2:{ destruct (c <=? 31); [exact I|]. apply Hrec. measure. }
  destruct r as [|esc r2]; [exact I|].
  destruct (esc =? 117).
  2:{ destruct (unescape esc); [|exact I]. apply Hrec. cbn [length]. measure. }
  destruct r2 as [|h1 [|h2 [|h3 [|h4 [|x r6]]]]]; try exact I.
  destruct (hex4 h1 h2 h3 h4) as [uni|]; [|exact I].
  destruct (is_high_surrogate uni).
  2:{ apply Hrec. cbn [length]. measure. }
  destruct r6 as [|u [|g1 [|g2 [|g3 [|g4 [|y r12]]]]]];
    try (apply Hrec; cbn [length]; measure).
  destruct ((x =? BACKSLASH) && (u =? 117));
    [|apply Hrec; cbn [length]; measure].
  destruct (hex4 g1 g2 g3 g4) as [uni2|]; [|exact I].
  destruct (is_low_surrogate uni2); apply Hrec; cbn [length]; measure.
Qed.

Lemma starts_with_length p : forall s rest,
  starts_with p s = Some rest -> length s = (length p + length rest)%nat.
Proof.
  induction p as [|a p IH]; intros s rest; cbn [starts_with].
  - now intros [= ->].
  - destruct s as [|c s]; [discriminate|].
    destruct (a =? c); [|discriminate].
    intros H. apply IH in H. cbn [length]. measure.
Qed.

Lemma span_digits_length s : forall d rest,
  span_digits s = (d, rest) -> (length rest <= length s)%nat.
Proof.
  induction s as [|c s IH]; intros d rest; cbn [span_digits].
  - intros [= <- <-]. apply le_n.
  - destruct (is_digit c); [|intros [= <- <-]; apply le_n].
    destruct (span_digits s) as [d' r'] eqn:E.
    intros [= <- <-]. specialize (IH _ _ eq_refl). cbn [length]. measure.
Qed.

Lemma match_integer_length s i rest :
  match_integer s = Some (i, rest) -> (length rest < length s)%nat.
Proof.
  unfold match_integer.
  assert (H : forall sign s1, (length s1 <= length s)%nat ->
            match s1 with
            | [] => None
            | c :: r =>
                if c =? 48 then Some (sign ++ [c], r)
                else if is_digit c
                     then let (d, rest) := span_digits r in
                          Some (sign ++ c :: d, rest)
                     else None
            end = Some (i, rest) -> (length rest < length s)%nat).
  { intros sign [|c r] Hl; [discriminate|]. cbn [length] in Hl.
    destruct (c =? 48); [intros [= <- <-]; measure|].
    destruct (is_digit c); [|discriminate].
    destruct (span_digits r) as [d r'] eqn:E. apply span_digits_length in E.
    intros [= <- <-]. measure. }
  destruct s as [|c r]; [discriminate|].
  destruct (c =? MINUS); intros Hm;
    [apply (H [MINUS] r)|apply (H [] (c :: r))]; (measure || exact Hm).
Qed.

Lemma match_frac_length s f rest :
  match_frac s = (f, rest) -> (length rest <= length s)%nat.
Proof.
  unfold match_frac. destruct s as [|c r]; [intros [= <- <-]; apply le_n|].
  destruct (c =? DOT); [|intros [= <- <-]; apply le_n].
  destruct (span_digits r) as [d r'] eqn:E. apply span_digits_length in E.
  destruct d; intros [= <- <-]; cbn [length]; measure.
Qed.

Lemma match_exp_length s e rest :
  match_exp s = (e, rest) -> (length rest <= length s)%nat.
Proof.
  unfold match_exp. destruct s as [|c r]; [intros [= <- <-]; apply le_n|].
  destruct ((c =? 101) || (c =? 69)); [|intros [= <- <-]; apply le_n].
  assert (H : forall sign r1, (length r1 <= length r)%nat ->
            match span_digits r1 with
            | ([], _) => ([], c :: r)
            | (d, rest) => (c :: sign ++ d, rest)
            end = (e, rest) -> (length rest <= length (c :: r))%nat).
  { intros sign r1 Hl. destruct (span_digits r1) as [d r'] eqn:E.
    apply span_digits_length in E.
    destruct d; intros [= <- <-]; cbn [length]; measure. }
  destruct r as [|c2 r']; [apply H; apply le_n|].
  destruct ((c2 =? PLUS) || (c2 =? MINUS)); apply H; cbn [length]; measure.
Qed.

Lemma match_number_length s i f e rest :
  match_number s = Some (i, f, e, rest) -> (length rest < length s)%nat.
Proof.
  unfold match_number.
  destruct (match_integer s) as [[i' s1]|] eqn:E1; [|discriminate].
  destruct (match_frac s1) as [f' s2] eqn:E2.
  destruct (match_exp s2) as [e' s3] eqn:E3.
  intros [= <- <- <- <-].
  apply match_integer_length in E1. apply match_frac_length in E2.
  apply match_exp_length in E3. measure.
Qed.

Lemma scan_atom_advances s : advances (scan_atom s) (length s).
Proof.
  unfold scan_atom.
  destruct (starts_with (dq "null") s) eqn:E1;
    [apply starts_with_length in E1; cbn in E1; cbn [advances]; measure|].
  destruct (starts_with (dq "true") s) eqn:E2;
    [apply starts_with_length in E2; cbn in E2; cbn [advances]; measure|].
  destruct (starts_with (dq "false") s) eqn:E3;
    [apply starts_with_length in E3; cbn in E3; cbn [advances]; measure|].
  destruct (match_number s) as [[[[i f] e] rest]|] eqn:En.
  { apply match_number_length in En. destruct f, e; try exact En.
    destruct (_ <=? _); [exact En|exact I]. }
  destruct (starts_with (dq "NaN") s) eqn:E4;
    [apply starts_with_length in E4; cbn in E4; cbn [advances]; measure|].
  destruct (starts_with (dq "Infinity") s) eqn:E5;
    [apply starts_with_length in E5; cbn in E5; cbn [advances]; measure|].
  destruct (starts_with (dq "-Infinity") s) eqn:E6;
    [apply starts_with_length in E6; cbn in E6; cbn [advances]; measure|].
  exact I.
Qed.

Lemma fueled_map {A B : Type} (g : A -> B) (x : scan A) len fuel bound
    len' fuel' bound' :
  fueled x len fuel bound ->
  (len <= len')%nat -> ((fuel < bound)%nat -> (fuel' < bound')%nat) ->
  fueled (scan_map g x) len' fuel' bound'.
Proof. destruct x as [a r|n|m n|[]]; cbn; auto. measure. Qed.

Lemma advances_fueled {A : Type} (x : scan A) len fuel bound :
  advances x len -> fueled x len fuel bound.
Proof. destruct x as [a r|n|m n|[]]; cbn; auto. contradiction. Qed.

Lemma scan_fueled fuel :
  (forall depth s,
     fueled (scan_once fuel depth s) (length s) fuel (2 * length s + 1)) /\
  (forall depth s,
     fueled (array_values fuel depth s) (length s) fuel (2 * length s + 2)) /\
  (forall depth s,
     fueled (object_pairs fuel depth s) (length s) fuel (2 * length s + 2)).
Proof.
  induction fuel as [|fuel (IHv & IHa & IHo)].
  { repeat split; intros depth s; cbn; measure. }
  repeat split; intros depth s.
  - cbn [scan_once]. destruct s as [|c r]; [exact I|].
    destruct (c =? DQUOTE).
    { apply advances_fueled. eapply advances_map;
        [apply (@scanstring_advances (length r)); apply le_n|].
      cbn [length]. measure. }
    destruct (c =? LBRACE).
    { destruct depth as [|depth]; [exact I|].
      unfold JSONObject. pose proof (skip_ws_length r) as Hl.
      assert (Hp : fueled (scan_map (fun p => VDict (dict_of_pairs p))
                     (object_pairs fuel depth (skip_ws r)))
                     (length (c :: r)) (S fuel) (2 * length (c :: r) + 1)).
      { eapply fueled_map; [apply IHo|cbn [length]; measure|cbn [length]; measure]. }
      destruct (skip_ws r) as [|c2 t] eqn:E; [exact Hp|].
      destruct (c2 =? RBRACE); [|exact Hp].
      cbn [fueled length] in *. measure. }
    destruct (c =? LBRACKET).
    { destruct depth as [|depth]; [exact I|].
      unfold JSONArray. pose proof (skip_ws_length r) as Hl.
      assert (Hp : fueled (scan_map VList (array_values fuel depth (skip_ws r)))
                     (length (c :: r)) (S fuel) (2 * length (c :: r) + 1)).
      { eapply fueled_map; [apply IHa|cbn [length]; measure|cbn [length]; measure]. }
      destruct (skip_ws r) as [|c2 t] eqn:E; [exact Hp|].
      destruct (c2 =? RBRACKET); [|exact Hp].
      cbn [fueled length] in *. measure. }
    apply advances_fueled, scan_atom_advances.
  - cbn [array_values]. specialize (IHv depth s).
    destruct (scan_once fuel depth s) as [val rest| | |[]]; cbn [fueled] in *;
      try exact I; [|measure].
    pose proof (skip_ws_length rest) as Hl.
    destruct (skip_ws rest) as [|c r]; [exact I|]. cbn [length] in Hl.
    destruct (c =? RBRACKET); [cbn [fueled]; measure|].
    destruct (c =? COMMA); [|exact I].
    pose proof (skip_ws_length r) as Hl2.
    eapply fueled_map; [apply IHa|measure|measure].
  - cbn [object_pairs]. destruct s as [|q r]; [exact I|].
    destruct (q =? DQUOTE); [|exact I].
    pose proof (@scanstring_advances (length r) r (length (q :: r)) (le_n _))
      as Hs.
    destruct (scanstring (length (q :: r)) r) as [key rest| | |[]];
      cbn [advances] in Hs; try exact I; [|contradiction].
    pose proof (skip_ws_length rest) as Hl.
    destruct (skip_ws rest) as [|c r2]; [exact I|]. cbn [length] in Hl.
    destruct (c =? COLON); [|exact I].
    pose proof (skip_ws_length r2) as Hl2.
    specialize (IHv depth (skip_ws r2)).
    destruct (scan_once fuel depth (skip_ws r2)) as [val rest3| | |[]];
      cbn [fueled length] in *; try exact I; [|measure].
    pose proof (skip_ws_length rest3) as Hl3.
    destruct (skip_ws rest3) as [|c3 r3]; [exact I|]. cbn [length] in Hl3.
    destruct (c3 =? RBRACE); [cbn [fueled]; measure|].
    destruct (c3 =? COMMA); [|exact I].
    pose proof (skip_ws_length r3) as Hl4.
    eapply fueled_map; [apply IHo|cbn [length]; measure|cbn [length]; measure].
Qed.

(** [json.loads] returns a value, raises a [JSONDecodeError], or raises
    the [ValueError] or the [RecursionError] of a limit; the fuel of the
    model does not run out. *)
Lemma json_loads_answers s :
  (exists obj, json_loads s = Value obj) \/
  (exists e, json_loads s = Raised e) \/
  json_loads s = Refused IntDigits \/ json_loads s = Refused Nesting.
Proof.
  unfold json_loads. destruct s as [|c s']; [right; left; eauto|].
  destruct (c =? BOM); [right; left; eauto|].
  set (doc := c :: s').
  pose proof (proj1 (scan_fueled (2 * length doc + 2)) recursion_depth
                (skip_ws doc)) as H.
  pose proof (skip_ws_length doc) as Hl.
  destruct (scan_once _ _ _) as [obj rest| | |[]]; cbn [fueled] in H.
  - destruct (skip_ws rest); [left|right; left]; eauto.
  - right; left; eauto.
  - right; left; eauto.
  - right; right; left; reflexivity.
  - right; right; right; reflexivity.
  - measure.
Qed.

End Totality.

(** ** Normalizing twice *)

Section Idempotence.
Context {PF : PyFloat} {PI : Interpreter}.

(** C1, amended: idempotence of normalization holds for every input on
    which [normalize] succeeds and whose parsed value is stable: none of its
    strings or keys holds U+0085, U+2028 or U+2029, none of them, as the
    encoder writes it, holds a comma followed only by white space and a
    closing brace or bracket, and the text of each of its floats is read
    back as the same float.  Applying [normalize] to the text it produced
    then succeeds and returns the same parsed value and the same text. *)
Theorem normalize_idempotent x text :
  normalize x = Some text ->
  (forall v, clean_json_content x = Ok v -> stable v) ->
  normalize text = Some text /\
  clean_json_content text = clean_json_content x.
Proof.
  unfold normalize. intros Hn Hstable.
  destruct (clean_json_content x) as [v| |] eqn:Hc; try discriminate.
  injection Hn as <-. specialize (Hstable v eq_refl).
  assert (Hu : unique_keys v /\
               (nesting v <= recursion_depth)%nat /\ short_ints v).
  { unfold clean_json_content in Hc.
    destruct (json_loads _) as [obj| |] eqn:El; try discriminate.
    injection Hc as <-. split; [eapply json_loads_unique_keys, El|].
    eapply json_loads_within, El. }
  destruct Hu as (Hu & Hdeep & Hints).
  assert (Hclean : clean_json_content (json_dump v) = Ok v).
  { unfold clean_json_content.
    destruct (cleaning_plain_text _ (dump_plain v Hstable)) as [-> ->].
    now rewrite json_loads_dump. }
  now rewrite Hclean.
Qed.

(** ** Failure *)

Lemma nested_too_deep depth : forall fuel,
  (2 * depth + 2 <= fuel)%nat ->
  scan_once fuel depth (repeat LBRACKET (S depth)) = Exhausted Nesting.
Proof.
  induction depth as [|depth IH]; intros fuel Hf;
    (destruct fuel as [|fuel]; [lia|]).
  - reflexivity.
  - change (repeat LBRACKET (S (S depth)))
      with (LBRACKET :: repeat LBRACKET (S depth)).
    cbn [scan_once]. change (LBRACKET =? DQUOTE) with false.
    change (LBRACKET =? LBRACE) with false.
    change (LBRACKET =? LBRACKET) with true. cbv iota.
    unfold JSONArray.
    change (skip_ws (repeat LBRACKET (S depth)))
      with (repeat LBRACKET (S depth)).
    change (repeat LBRACKET (S depth))
      with (LBRACKET :: repeat LBRACKET depth) at 1.
    change (LBRACKET =? RBRACKET) with false. cbv iota.
    destruct fuel as [|fuel]; [lia|]. cbn [array_values].
    rewrite IH by lia. reflexivity.
Qed.

(** C7: run on indices, with subscripting that can fail, the loops of
    [remove_comments_from_json_string] return on every text, with the
    result of the recursion over the remaining text (the other stages have
    no operation that can fail); [clean_json_content] returns a value or
    fails, and whenever it fails it is with an exception that [json.loads]
    raised on the cleaned text: the [JSONDecodeError], or the [ValueError]
    or [RecursionError] of a limit of the interpreter, which both occur;
    and when the end of the text is reached inside a block comment, the
    text from the opening marker of that comment on is discarded and
    nothing is raised. *)
Theorem only_the_validator_fails :
  (forall content,
     remove_comments_indexed (preprocess content) =
     Returned (remove_comments_from_json_string (preprocess content))) /\
  (forall content,
     let text := remove_comments_from_json_string (preprocess content) in
     (exists json_data,
        json_loads text = Value json_data /\
        clean_json_content content = Ok json_data) \/
     (exists e d,
        json_loads text = Raised e /\
        clean_json_content content = MalformedJson d) \/
     (json_loads text = Refused IntDigits /\
      clean_json_content content = Unfinished IntDigits) \/
     (json_loads text = Refused Nesting /\
      clean_json_content content = Unfinished Nesting)) /\
  (forall content,
     (exists d, clean_json_content content = MalformedJson d) <->
     (exists e,
        json_loads (remove_comments_from_json_string (preprocess content))
        = Raised e)) /\
  (forall s,
     in_comment (snd (scan_block initial s)) = true ->
     exists pre rest,
       s = pre ++ SLASH :: STAR :: rest /\
       in_comment (snd (scan_block initial pre)) = false /\
       strip_block_comments s = strip_block_comments pre) /\
  (strip_block_comments (dq "{'a': 1} /* note") = dq "{'a': 1} ") /\
  (json_loads (repeat 49 4301) = Refused IntDigits) /\
  (json_loads (repeat LBRACKET (S recursion_depth)) = Refused Nesting).
Proof.
  split; [intros; apply remove_comments_indexed_returns|].
  split; [|split; [|split; [apply unclosed_comment_discards
                           |split; [reflexivity|split]]]].
  - intros content. cbv zeta. unfold clean_json_content.
    destruct (json_loads_answers
                (remove_comments_from_json_string (preprocess content)))
      as [(obj & ->)|[(e & ->)|[-> | ->]]]; eauto 8.
  - intros content. unfold clean_json_content.
    destruct (json_loads _) as [obj|e|]; split; intros (x & Hx);
      try discriminate; eauto.
  - vm_compute. reflexivity.
  - unfold json_loads.
    change (repeat LBRACKET (S recursion_depth))
      with (LBRACKET :: repeat LBRACKET recursion_depth) at 1 2.
    change (LBRACKET =? BOM) with false. cbv iota.
    change (skip_ws (repeat LBRACKET (S recursion_depth)))
      with (repeat LBRACKET (S recursion_depth)).
    rewrite nested_too_deep; [reflexivity|].
    cbn [length]. rewrite repeat_length. lia.
Qed.

End Idempotence.

(** ** Closed instances *)

(** With floats kept as their text, the float written [1.5] is stable. *)
Lemma text_float_stable :
  @stable_float text_float (dq "1.5").
Proof.
  split; [reflexivity|].
  intros fuel tail Hd.
  destruct (delimited_head _ Hd) as [->|(c & t & -> & Hc)]; [reflexivity|].
  cbn [In] in Hc.
  repeat (destruct Hc as [<-|Hc]; [reflexivity|]). contradiction.
Qed.

Lemma normalize_idempotent_witness :
  exists text,
    @normalize text_float cpython (dq "[1.5, 'http://x', /* two */ {'k': [],}, ]")
      = Some text /\
    @normalize text_float cpython text = Some text.
Proof.
  eexists. split; [vm_compute; reflexivity|].
  refine (proj1 (@normalize_idempotent text_float cpython
                   (dq "[1.5, 'http://x', /* two */ {'k': [],}, ]") _ _ _)).
  - vm_compute. reflexivity.
  - intros v Hv. vm_compute in Hv. injection Hv as <-.
    cbn [stable]. repeat split. apply text_float_stable.
Defined.

(** C1, as stated, at two inputs on which [normalize] succeeds.  In the
    first the only string is written with an escaped comma (backslash,
    u002c) before a closing bracket; the text produced holds that comma
    literally, and the trailing-comma pass of the second application removes
    it from inside the string, so the second application returns a different
    value and a different text.  In the second the only string is the escape
    for U+2028; the text produced holds U+2028 itself inside the string, the
    second application splits the line there and fails. *)
Lemma second_normalization_differs :
  (exists t1 t2,
     @normalize text_float cpython (dq "['\u002c]']") = Some t1 /\
     @normalize text_float cpython t1 = Some t2 /\
     t1 <> t2 /\
     @clean_json_content text_float cpython (dq "['\u002c]']")
       = Ok (VList [VStr (dq ",]")]) /\
     @clean_json_content text_float cpython t1 = Ok (VList [VStr (dq "]")])) /\
  (exists t1,
     @normalize text_float cpython (dq "['\u2028']") = Some t1 /\
     @clean_json_content text_float cpython (dq "['\u2028']") = Ok (VList [VStr [8232]]) /\
     @normalize text_float cpython t1 = None).
Proof.
  split.
  - eexists _, _. split; [vm_compute; reflexivity|].
    split; [vm_compute; reflexivity|].
    split; [discriminate|]. split; vm_compute; reflexivity.
  - eexists. split; [vm_compute; reflexivity|]. split; vm_compute; reflexivity.
Qed.

Lemma block_comment_terminator_missed_witness :
  scan_block (mkState true false false) (dq " a */ 2]") =
  scan_block initial (dq " 2]").
Proof.
  exact (proj1 block_comment_terminator_missed
           (mkState true false false) (dq " a ") (dq " 2]")
           eq_refl eq_refl eq_refl).
Defined.

Lemma only_the_validator_fails_witness :
  exists pre rest,
    dq "[1, /* open" = pre ++ SLASH :: STAR :: rest /\
    strip_block_comments (dq "[1, /* open") = strip_block_comments pre.
Proof.
  destruct (@only_the_validator_fails text_float cpython) as (_ & _ & _ & H & _).
  destruct (H (dq "[1, /* open") eq_refl) as (pre & rest & H1 & _ & H2).
  exists pre, rest. split; assumption.
Defined.

(* ===================================================================== *)
(** * Further properties of the cleaning stages                           *)
(* ===================================================================== *)

(** ** Deleting characters *)

Lemma sub_refl s : subsequence s s.
Proof. induction s; constructor; assumption. Qed.

Lemma sub_nil_l s : subsequence [] s.
Proof. induction s; constructor; assumption. Qed.

Lemma sub_trans a b c : subsequence a b -> subsequence b c -> subsequence a c.
Proof.
  intros H1 H2. revert a H1.
  induction H2 as [|x b c H2 IH|x b c H2 IH]; intros a H1.
  - exact H1.
  - inversion H1; subst; constructor; now apply IH.
  - constructor. now apply IH.
Qed.

Lemma sub_app a b c d :
  subsequence a b -> subsequence c d -> subsequence (a ++ c) (b ++ d).
Proof. intros H1 H2. induction H1; cbn [app]; try constructor; assumption. Qed.

Lemma sub_app_r a b c : subsequence a c -> subsequence a (b ++ c).
Proof. intros H. apply (sub_app (sub_nil_l b) H). Qed.

Lemma sub_app_l a b c : subsequence a b -> subsequence a (b ++ c).
Proof.
  intros H. rewrite <- (app_nil_r a). apply (sub_app H (sub_nil_l c)).
Qed.

Lemma sub_filter (f : uchar -> bool) s : subsequence (filter f s) s.
Proof.
  induction s as [|c s IH]; cbn [filter]; [constructor|].
  destruct (f c); constructor; assumption.
Qed.

Lemma sub_forallb (f : uchar -> bool) a b :
  subsequence a b -> forallb f b = true -> forallb f a = true.
Proof.
  induction 1 as [|c a b H IH|c a b H IH]; cbn [forallb]; [reflexivity| |];
    rewrite andb_true_iff; intros [Hc Hb]; [rewrite Hc|]; auto.
Qed.

Lemma join_cons sep p rest :
  join sep (p :: rest) =
  p ++ match rest with [] => [] | _ :: _ => sep ++ join sep rest end.
Proof. destruct rest; cbn [join]; [now rewrite app_nil_r|reflexivity]. Qed.

Lemma sub_join sep lines : forall outs,
  Forall2 (fun l o => subsequence o l) lines outs ->
  subsequence (join sep outs) (join sep lines).
Proof.
  induction lines as [|l lines IH]; intros outs H; inversion H; subst.
  - constructor.
  - rewrite !join_cons. apply sub_app; [assumption|].
    match goal with H2 : Forall2 _ lines _ |- _ =>
      pose proof (IH _ H2) as IH'; inversion H2; subst end.
    + constructor.
    + apply sub_app; [apply sub_refl|exact IH'].
Qed.

Lemma sub_join_filter sep (f : str -> bool) lines :
  subsequence (join sep (filter f lines)) (join sep lines).
Proof.
  induction lines as [|l lines IH]; [constructor|].
  cbn [filter]. destruct (f l).
  - rewrite !join_cons. apply sub_app; [apply sub_refl|].
    destruct lines as [|l2 lines]; [constructor|].
    destruct (filter f (l2 :: lines)) eqn:E; [apply sub_nil_l|].
    apply sub_app; [apply sub_refl|exact IH].
  - rewrite (join_cons sep l lines). apply sub_app_r.
    destruct lines as [|l2 lines]; [exact IH|]. now apply sub_app_r.
Qed.

Lemma sub_join_splitlines s :
  newline_only s = true -> subsequence (join [LF] (splitlines s)) s.
Proof.
  induction s as [|c r IH]; intros H; [constructor|].
  cbn [newline_only forallb] in H. apply andb_true_iff in H as [Hc Hr].
  specialize (IH Hr).
  destruct (is_linebreak c) eqn:Hb.
  - cbn [implb] in Hc. apply N.eqb_eq in Hc. subst c.
    rewrite splitlines_cons_LF, join_cons. cbn [app].
    destruct (splitlines r); [apply sub_nil_l|].
    cbn [app]. now constructor.
  - rewrite (@splitlines_cons_other c r Hb).
    destruct (splitlines r) as [|l ls].
    + constructor. apply sub_nil_l.
    + rewrite join_cons in IH |- *. cbn [app]. now constructor.
Qed.

(** ** The first loop cuts lines at [//] and does nothing else *)

Lemma line_body_break st c n :
  fst (line_body st c n) = Break -> c = SLASH /\ n = Some SLASH.
Proof.
  unfold line_body.
  destruct (escape_next st); [discriminate|].
  destruct (c =? BACKSLASH); [discriminate|].
  destruct ((c =? DQUOTE) && negb false); [discriminate|].
  destruct ((c =? SLASH) && next_is SLASH n && negb (in_string st)) eqn:B;
    [|discriminate].
  intros _. apply andb_true_iff in B as [B _].
  apply andb_true_iff in B as [B1 B2]. apply N.eqb_eq in B1.
  destruct n as [c2|]; [|discriminate]. cbn [next_is] in B2.
  apply N.eqb_eq in B2. now subst.
Qed.

Lemma scan_line_cut line : forall st,
  cut_at_comment line (fst (scan_line st line)).
Proof.
  induction line as [|c rest IH]; intros st.
  { exists []. split; [reflexivity|now left]. }
  cbn [scan_line].
  destruct (line_body st c (hd_error rest)) as [[|] st'] eqn:E.
  - specialize (IH st'). destruct (scan_line st' rest) as [nl st''].
    cbn [fst] in *. destruct IH as (cut & Hcut & Hc).
    exists cut. split; [cbn [app]; now f_equal|exact Hc].
  - exists (c :: rest). split; [reflexivity|right].
    destruct (@line_body_break st c (hd_error rest)) as [-> Hn];
      [now rewrite E|].
    destruct rest as [|c2 r]; [discriminate|]. injection Hn as ->. eauto.
Qed.

Lemma scan_lines_cut lines : forall st,
  Forall2 cut_at_comment lines (scan_lines st lines).
Proof.
  induction lines as [|l lines IH]; intros st; cbn [scan_lines]; [constructor|].
  pose proof (scan_line_cut l st) as H.
  destruct (scan_line st l) as [nl st']. constructor; [exact H|apply IH].
Qed.

(** X1: the first loop keeps the number of lines, and leaves each line
    whole or cut; what it cuts off a line starts with [//]. *)
Theorem line_comment_cuts_a_suffix json_str :
  Forall2 cut_at_comment
    (splitlines json_str) (scan_lines initial (splitlines json_str)) /\
  length (scan_lines initial (splitlines json_str)) =
  length (splitlines json_str).
Proof.
  pose proof (scan_lines_cut (splitlines json_str) initial) as H.
  split; [exact H|]. symmetry. exact (Forall2_length H).
Qed.

(** ** Every stage only deletes characters *)

Lemma scan_block_sub n : forall s st,
  (length s <= n)%nat -> subsequence (fst (scan_block st s)) s.
Proof.
  induction n as [|n IH]; intros [|c rest] st Hn;
    try (cbn [scan_block fst]; apply sub_nil); cbn [length] in Hn; [lia|].
  rewrite scan_block_cons. cbv zeta. cbn [fst].
  set (r := block_body st c (hd_error rest)).
  destruct (skip r) eqn:Hs.
  - destruct (@block_body_skip_next st c (hd_error rest) Hs) as [He _].
    fold r in He. rewrite He. constructor.
    destruct rest as [|c2 rest]; [constructor|]. cbn [tl].
    constructor. apply IH. cbn [length] in Hn. lia.
  - destruct (emit r); constructor; apply IH; lia.
Qed.

Lemma drop_trailing_sub s : subsequence (drop_trailing s) s.
Proof.
  induction s as [|c s IH]; cbn [drop_trailing]; [constructor|].
  destruct (trailing_here c s); constructor; assumption.
Qed.

Lemma preprocess_sub content : subsequence (preprocess content) content.
Proof.
  unfold preprocess.
  eapply sub_trans; [apply sub_filter|].
  eapply sub_trans; [apply sub_filter|].
  destruct content as [|c r]; [constructor|]. cbn [strip_bom].
  destruct (c =? BOM); [constructor|]; apply sub_refl.
Qed.

Lemma strip_line_comments_sub s :
  newline_only s = true -> subsequence (strip_line_comments s) s.
Proof.
  intros H. eapply sub_trans; [|now apply sub_join_splitlines].
  apply sub_join.
  eapply Forall2_impl; [|apply scan_lines_cut].
  intros l o (cut & -> & _). now apply sub_app_l, sub_refl.
Qed.

Lemma drop_blank_lines_sub s :
  newline_only s = true -> subsequence (drop_blank_lines s) s.
Proof.
  intros H. eapply sub_trans; [|now apply sub_join_splitlines].
  apply sub_join_filter.
Qed.

(** X2: cleaning only deletes.  The second loop and the trailing-comma pass
    return their input with characters deleted, whatever the input; so does
    the whole of [clean_json_content] before parsing, on an input in which
    the newline character is the only line boundary: no character is added,
    replaced or moved. *)
Theorem cleaning_only_deletes :
  (forall st s, subsequence (fst (scan_block st s)) s) /\
  (forall s, subsequence (re_sub_trailing s) s) /\
  (forall content,
     newline_only content = true ->
     subsequence (remove_comments_from_json_string (preprocess content))
                 content).
Proof.
  split; [intros st s; now apply (@scan_block_sub (length s))|].
  split; [intros s; rewrite re_sub_trailing_drop; apply drop_trailing_sub|].
  intros content Hc.
  pose proof (preprocess_sub content) as H0.
  pose proof (sub_forallb _ H0 Hc) as Hn0. fold (newline_only (preprocess content)) in Hn0.
  set (s0 := preprocess content) in *.
  unfold remove_comments_from_json_string.
  pose proof (strip_line_comments_sub _ Hn0) as H1.
  set (s1 := strip_line_comments s0) in *.
  assert (H2 : subsequence (strip_block_comments s1) s1)
    by (apply (@scan_block_sub (length s1)); apply le_n).
  set (s2 := strip_block_comments s1) in *.
  assert (H3 : subsequence (re_sub_trailing s2) s2)
    by (rewrite re_sub_trailing_drop; apply drop_trailing_sub).
  set (s3 := re_sub_trailing s2) in *.
  assert (H03 : subsequence s3 s0)
    by (eapply sub_trans; [exact H3|]; eapply sub_trans; eassumption).
  pose proof (sub_forallb _ H03 Hn0) as Hn3.
  eapply sub_trans; [apply (drop_blank_lines_sub _ Hn3)|].
  eapply sub_trans; eassumption.
Qed.

Lemma cleaning_only_deletes_witness :
  subsequence
    (remove_comments_from_json_string
       (preprocess (dq "{'a': [1, 2,], // c" ++ [LF] ++ dq "}")))
    (dq "{'a': [1, 2,], // c" ++ [LF] ++ dq "}").
Proof.
  exact (proj2 (proj2 cleaning_only_deletes)
           (dq "{'a': [1, 2,], // c" ++ [LF] ++ dq "}") eq_refl).
Defined.

(** ** A text without a slash *)

Lemma scan_line_no_slash line : forall st,
  ~ In SLASH line -> fst (scan_line st line) = line.
Proof.
  induction line as [|c rest IH]; intros st Hs; [reflexivity|].
  cbn [scan_line].
  destruct (line_body st c (hd_error rest)) as [[|] st'] eqn:E.
  - specialize (IH st'). destruct (scan_line st' rest) as [nl st''].
    cbn [fst] in *. f_equal. apply IH. intros H. apply Hs. now right.
  - destruct (@line_body_break st c (hd_error rest)) as [-> _];
      [now rewrite E|].
    exfalso. apply Hs. now left.
Qed.

Lemma scan_lines_no_slash lines : forall st,
  Forall (fun l => ~ In SLASH l) lines -> scan_lines st lines = lines.
Proof.
  induction lines as [|l lines IH]; intros st H; [reflexivity|].
  inversion H; subst. cbn [scan_lines].
  pose proof (@scan_line_no_slash l st) as Hl.
  destruct (scan_line st l) as [nl st']. cbn [fst] in Hl.
  rewrite Hl by assumption. f_equal. now apply IH.
Qed.

Lemma splitlines_In s : forall l c,
  In l (splitlines s) -> In c l -> In c s.
Proof.
  induction s as [|c0 r IH]; intros l c Hl Hc; [contradiction|].
  cbn [splitlines] in Hl. destruct (is_linebreak c0).
  - destruct Hl as [<-|Hl]; [contradiction|]. right.
    apply (IH l c); [|exact Hc].
    destruct r as [|c2 r']; [exact Hl|].
    destruct ((c0 =? CR) && (c2 =? LF)) eqn:B; [|exact Hl].
    apply andb_true_iff in B as [_ B]. apply N.eqb_eq in B. subst c2.
    rewrite splitlines_cons_LF. now right.
  - destruct (splitlines r) as [|l0 ls] eqn:E.
    + destruct Hl as [<-|[]]. destruct Hc as [<-|[]]. now left.
    + destruct Hl as [<-|Hl].
      * destruct Hc as [<-|Hc]; [now left|right].
        apply (IH l0 c); [now left|exact Hc].
      * right. apply (IH l c); [now right|exact Hc].
Qed.

Lemma block_body_no_slash st c n :
  in_comment st = false -> c <> SLASH ->
  emit (block_body st c n) = true /\ skip (block_body st c n) = false /\
  in_comment (after (block_body st c n)) = false.
Proof.
  intros Hin Hc. apply N.eqb_neq in Hc. destruct st as [ic ins esc].
  cbn [in_comment] in Hin. subst ic. unfold block_body.
  cbn [escape_next in_comment in_string negb]. rewrite Hc.
  destruct esc; [cbn; auto|].
  destruct (c =? BACKSLASH); [cbn; auto|].
  destruct (c =? DQUOTE); cbn; rewrite ?andb_false_r; cbn; auto.
Qed.

Lemma scan_block_no_slash s : forall st,
  in_comment st = false -> ~ In SLASH s -> fst (scan_block st s) = s.
Proof.
  induction s as [|c rest IH]; intros st Hin Hs; [reflexivity|].
  rewrite scan_block_cons. cbv zeta.
  destruct (@block_body_no_slash st c (hd_error rest) Hin) as (He & Hk & Ha).
  { intros ->. apply Hs. now left. }
  rewrite He, Hk. cbn [fst]. f_equal. apply IH; [exact Ha|].
  intros H. apply Hs. now right.
Qed.

Lemma join_In sep lines c :
  In c (join sep lines) -> In c sep \/ exists l, In l lines /\ In c l.
Proof.
  induction lines as [|l lines IH]; [contradiction|].
  rewrite join_cons. rewrite in_app_iff. intros [H|H].
  - right. exists l. split; [now left|exact H].
  - destruct lines as [|l2 lines]; [contradiction|].
    rewrite in_app_iff in H. destruct H as [H|H]; [now left|].
    destruct (IH H) as [H'|(l' & Hl & Hc)]; [now left|].
    right. exists l'. split; [now right|exact Hc].
Qed.

(** X3: a text that holds no slash goes through both comment loops with
    nothing removed: the first loop returns its lines as they are (joined
    by newline characters), the second loop returns its input. *)
Theorem text_without_slash_keeps_all json_str :
  ~ In SLASH json_str ->
  strip_line_comments json_str = join [LF] (splitlines json_str) /\
  strip_block_comments json_str = json_str /\
  remove_comments_from_json_string json_str =
    drop_blank_lines (re_sub_trailing (join [LF] (splitlines json_str))).
Proof.
  intros Hs.
  assert (H1 : strip_line_comments json_str = join [LF] (splitlines json_str)).
  { unfold strip_line_comments. f_equal. apply scan_lines_no_slash.
    apply Forall_forall. intros l Hl Hc. apply Hs.
    exact (splitlines_In _ _ _ Hl Hc). }
  split; [exact H1|].
  split; [now apply scan_block_no_slash|].
  unfold remove_comments_from_json_string. rewrite H1.
  do 2 f_equal. apply scan_block_no_slash; [reflexivity|].
  intros H. apply join_In in H as [[H|[]]|(l & Hl & Hc)]; [discriminate H|].
  apply Hs. exact (splitlines_In _ _ _ Hl Hc).
Qed.

Lemma text_without_slash_witness :
  remove_comments_from_json_string (dq "{'a\'b': [1,],}" ++ [CR; LF; LF]) =
  dq "{'a\'b': [1]}".
Proof.
  assert (H : ~ In SLASH (dq "{'a\'b': [1,],}" ++ [CR; LF; LF])).
  { vm_compute. intros H.
    repeat (destruct H as [H|H]; [discriminate H|]). exact H. }
  rewrite (proj2 (proj2 (@text_without_slash_keeps_all _ H))).
  vm_compute. reflexivity.
Defined.

(** ** The trailing-comma pass *)

Lemma drop_trailing_not_comma s :
  filter not_comma (drop_trailing s) = filter not_comma s.
Proof.
  induction s as [|c s IH]; [reflexivity|].
  cbn [drop_trailing filter]. unfold trailing_here, not_comma at 2.
  destruct (c =? COMMA) eqn:Hc; cbn [andb negb].
  - destruct (match_group s); [exact IH|].
    cbn [filter]. unfold not_comma at 1. rewrite Hc. exact IH.
  - cbn [filter]. unfold not_comma at 1. rewrite Hc. cbn [negb]. now f_equal.
Qed.

Lemma drop_trailing_length s :
  (length (drop_trailing s) <= length s)%nat /\
  (has_trailing_comma s = true ->
   (length (drop_trailing s) < length s)%nat).
Proof.
  induction s as [|c s [IH1 IH2]]; [split; [apply le_n|discriminate]|].
  cbn [drop_trailing has_trailing_comma].
  destruct (trailing_here c s); cbn [orb length]; split; try lia.
  intros H. specialize (IH2 H). lia.
Qed.

Lemma drop_trailing_fixed s :
  has_trailing_comma s = false -> drop_trailing s = s.
Proof.
  induction s as [|c s IH]; [reflexivity|].
  cbn [drop_trailing has_trailing_comma].
  destruct (trailing_here c s); cbn [orb]; [discriminate|].
  intros H. f_equal. now apply IH.
Qed.

(** X4: the trailing-comma pass deletes commas and nothing else: the
    characters other than commas come out as they went in; the text is
    returned unchanged exactly when it holds no comma followed only by
    white space and a closing brace or bracket. *)
Theorem trailing_pass_deletes_only_commas s :
  filter not_comma (re_sub_trailing s) = filter not_comma s /\
  (length (re_sub_trailing s) <= length s)%nat /\
  (re_sub_trailing s = s <-> has_trailing_comma s = false).
Proof.
  rewrite re_sub_trailing_drop.
  split; [apply drop_trailing_not_comma|].
  split; [apply drop_trailing_length|].
  split; [|apply drop_trailing_fixed].
  intros H. destruct (has_trailing_comma s) eqn:E; [|reflexivity].
  pose proof (proj2 (drop_trailing_length s) E) as Hl.
  rewrite H in Hl. lia.
Qed.

(** ** The blank-line pass *)

Lemma splitlines_no_linebreak s :
  Forall (fun l => no_linebreak l = true) (splitlines s).
Proof.
  induction s as [|c r IH]; [constructor|].
  cbn [splitlines]. destruct (is_linebreak c) eqn:Hb.
  - constructor; [reflexivity|].
    destruct r as [|c2 r']; [constructor|].
    destruct ((c =? CR) && (c2 =? LF)) eqn:B; [|exact IH].
    apply andb_true_iff in B as [_ B]. apply N.eqb_eq in B. subst c2.
    rewrite splitlines_cons_LF in IH. now inversion IH.
  - destruct (splitlines r) as [|l ls].
    + constructor; [|constructor]. cbn. now rewrite Hb.
    + inversion IH; subst. constructor; [|assumption].
      cbn [no_linebreak forallb]. rewrite Hb. assumption.
Qed.

Lemma splitlines_line l : forall rest,
  l <> [] -> no_linebreak l = true ->
  splitlines l = [l] /\ splitlines (l ++ LF :: rest) = l :: splitlines rest.
Proof.
  induction l as [|c l IH]; intros rest Hne Hl; [contradiction|].
  cbn [no_linebreak forallb] in Hl. apply andb_true_iff in Hl as [Hc Hl].
  apply negb_true_iff in Hc. cbn [app].
  rewrite !(@splitlines_cons_other c _ Hc).
  destruct l as [|c2 l].
  - cbn [app]. rewrite splitlines_cons_LF. split; reflexivity.
  - destruct (IH rest) as [H1 H2]; [discriminate|exact Hl|].
    rewrite H1, H2. split; reflexivity.
Qed.

Lemma splitlines_join lines :
  Forall (fun l => l <> [] /\ no_linebreak l = true) lines ->
  splitlines (join [LF] lines) = lines.
Proof.
  induction lines as [|l lines IH]; intros H; [reflexivity|].
  inversion H as [|? ? [Hne Hl] Hrest]; subst. rewrite join_cons.
  destruct lines as [|l2 lines].
  - rewrite app_nil_r. now apply splitlines_line.
  - cbn [app]. rewrite (proj2 (@splitlines_line l (join [LF] (l2 :: lines)) Hne Hl)).
    f_equal. now apply IH.
Qed.

Lemma strip_nonempty_cons l : strip_nonempty l = true -> l <> [].
Proof. now destruct l. Qed.

Lemma filter_twice {A : Type} (f : A -> bool) l :
  filter f (filter f l) = filter f l.
Proof.
  induction l as [|x l IH]; [reflexivity|]. cbn [filter].
  destruct (f x) eqn:E; [|exact IH]. cbn [filter]. rewrite E. now f_equal.
Qed.

Lemma kept_lines_wellformed s :
  Forall (fun l => l <> [] /\ no_linebreak l = true)
         (filter strip_nonempty (splitlines s)).
Proof.
  apply Forall_forall. intros l Hl. apply filter_In in Hl as [Hl Hn].
  split; [now apply strip_nonempty_cons|].
  pose proof (splitlines_no_linebreak s) as H.
  rewrite Forall_forall in H. now apply H.
Qed.

Lemma no_linebreak_newline_only l :
  no_linebreak l = true -> newline_only l = true.
Proof.
  induction l as [|c l IH]; [reflexivity|].
  cbn [no_linebreak newline_only forallb]. rewrite andb_true_iff.
  intros [Hc Hl]. apply negb_true_iff in Hc. rewrite Hc. now apply IH.
Qed.

Lemma join_newline_only lines :
  Forall (fun l => no_linebreak l = true) lines ->
  newline_only (join [LF] lines) = true.
Proof.
  induction lines as [|l lines IH]; intros H; [reflexivity|].
  inversion H as [|? ? Hl Hrest]; subst. rewrite join_cons. unfold newline_only.
  rewrite forallb_app. apply andb_true_iff. split.
  - now apply no_linebreak_newline_only.
  - destruct lines as [|l2 lines]; [reflexivity|].
    cbn [app forallb]. now apply IH.
Qed.

(** X5: what the blank-line pass returns.  Its lines are the lines of the
    input that hold a character other than white space, in their order;
    they are separated by newline characters, whatever line boundaries the
    input used; a second pass changes nothing.  The text returned by
    [remove_comments_from_json_string] is of this kind: it has no blank
    line, and no line boundary other than the newline character. *)
Theorem blank_line_pass :
  (forall s,
     splitlines (drop_blank_lines s) = filter strip_nonempty (splitlines s) /\
     newline_only (drop_blank_lines s) = true /\
     drop_blank_lines (drop_blank_lines s) = drop_blank_lines s) /\
  (forall json_str,
     let text := remove_comments_from_json_string json_str in
     forallb strip_nonempty (splitlines text) = true /\
     newline_only text = true /\
     drop_blank_lines text = text).
Proof.
  assert (H : forall s,
     splitlines (drop_blank_lines s) = filter strip_nonempty (splitlines s) /\
     newline_only (drop_blank_lines s) = true /\
     drop_blank_lines (drop_blank_lines s) = drop_blank_lines s).
  { intros s. pose proof (kept_lines_wellformed s) as Hw.
    assert (Hs : splitlines (drop_blank_lines s) =
                 filter strip_nonempty (splitlines s))
      by (now apply splitlines_join).
    split; [exact Hs|]. split.
    - apply join_newline_only. eapply Forall_impl; [|exact Hw]. now intros l [_ Hl].
    - unfold drop_blank_lines at 1. rewrite Hs, filter_twice. reflexivity. }
  split; [exact H|].
  intros json_str. unfold remove_comments_from_json_string. cbv zeta.
  set (s := re_sub_trailing _). destruct (H s) as (H1 & H2 & H3).
  split; [|split; assumption].
  rewrite H1. apply forallb_forall. intros l Hl.
  now apply filter_In in Hl.
Qed.

(** ** Comments that are removed *)

Lemma line_body_slash ic i e sl c n i' e' sl' :
  slash_step (i, e, sl) c = Some (i', e', sl') ->
  (sl' = true -> n <> Some SLASH) ->
  line_body (mkState ic i e) c n = (Append, mkState ic i' e').
Proof.
  unfold slash_step, line_body. cbn [escape_next in_string in_comment].
  destruct e.
  { destruct (c =? LF); [discriminate|]. now intros [= <- <- <-]. }
  destruct (c =? BACKSLASH); [now intros [= <- <- <-]|].
  destruct (c =? DQUOTE); cbn [andb negb]; [now intros [= <- <- <-]|].
  destruct (c =? SLASH); cbn [andb]; [|now intros [= <- <- <-]].
  destruct i; cbn [negb]; [intros [= <- <- <-]; now rewrite andb_false_r|].
  destruct sl; [discriminate|]. intros [= <- <- <-] Hn.
  destruct n as [c2|]; cbn [next_is andb]; [|reflexivity].
  destruct (N.eqb_spec c2 SLASH) as [->|]; [|reflexivity].
  now contradiction (Hn eq_refl).
Qed.

Lemma first_line_head R l ls :
  splitlines R = l :: ls ->
  hd_error l =
  match R with
  | c :: _ => if is_linebreak c then None else Some c
  | [] => None
  end.
Proof.
  destruct R as [|c R]; [discriminate|]. cbn [splitlines].
  destruct (is_linebreak c); [now intros [= <- _]|].
  destruct (splitlines R); now intros [= <- _].
Qed.

Lemma splitlines_nonempty R : R <> [] -> exists l ls, splitlines R = l :: ls.
Proof.
  intros H. destruct (splitlines R) as [|l ls] eqn:E; [|eauto].
  now apply splitlines_nil_inv in E.
Qed.

Lemma scan_lines_nonempty st lines :
  lines <> [] -> scan_lines st lines <> [].
Proof.
  destruct lines as [|l lines]; [contradiction|]. intros _.
  cbn [scan_lines]. now destruct (scan_line st l).
Qed.

Lemma slash_step_after_slash i e c q :
  slash_step (i, e, true) c = Some q -> i = false -> e = false -> c <> SLASH.
Proof.
  intros H -> -> ->. discriminate H.
Qed.

Lemma slash_step_sl i e sl c i' e' :
  slash_step (i, e, sl) c = Some (i', e', true) ->
  i' = false /\ e' = false.
Proof.
  unfold slash_step. destruct e.
  { destruct (c =? LF); discriminate. }
  destruct (c =? BACKSLASH); [discriminate|].
  destruct (c =? DQUOTE); [discriminate|].
  destruct (c =? SLASH); [|discriminate].
  destruct i; [discriminate|]. destruct sl; [discriminate|].
  now intros [= <- <-].
Qed.

(** The first loop on a text that starts with a part [P] in which it finds
    nothing to cut. *)
Lemma strip_prefix P : forall ic i e sl sl' B,
  newline_only P = true ->
  run slash_step (i, e, sl) P = Some (false, false, sl') ->
  (sl' = true -> hd_error B <> Some SLASH) ->
  B <> [] ->
  join [LF] (scan_lines (mkState ic i e) (splitlines (P ++ B))) =
  P ++ join [LF] (scan_lines (mkState ic false false) (splitlines B)).
Proof.
  induction P as [|a P IH]; intros ic i e sl sl' B Hn Hr Hb HB.
  { cbn in Hr. now injection Hr as -> -> _. }
  cbn [newline_only forallb] in Hn. apply andb_true_iff in Hn as [Ha Hn].
  cbn [run] in Hr.
  destruct (slash_step (i, e, sl) a) as [[[i1 e1] sl1]|] eqn:Q; [|discriminate].
  assert (HR : P ++ B <> []) by (destruct P; [exact HB|discriminate]).
  destruct (@splitlines_nonempty _ HR) as (l & ls & El).
  cbn [app]. destruct (is_linebreak a) eqn:Hlb.
  - cbn [implb] in Ha. apply N.eqb_eq in Ha. subst a.
    rewrite splitlines_cons_LF. cbn [scan_lines scan_line].
    rewrite join_cons. cbn [app].
    assert (Hst : (i1, e1) = (i, e)).
    { unfold slash_step in Q. destruct e; [discriminate Q|].
      cbn in Q. now injection Q as <- <- _. }
    injection Hst as -> ->.
    rewrite <- (IH ic i e sl1 sl' B Hn Hr Hb HB).
    destruct (scan_lines (mkState ic i e) (splitlines (P ++ B))) eqn:E;
      [|reflexivity].
    exfalso. revert E. apply scan_lines_nonempty. now rewrite El.
  - rewrite (@splitlines_cons_other a _ Hlb), El.
    rewrite <- (IH ic i1 e1 sl1 sl' B Hn Hr Hb HB), El.
    cbn [scan_lines scan_line].
    rewrite (@line_body_slash ic i e sl a (hd_error l) i1 e1 sl1 Q).
    + destruct (scan_line (mkState ic i1 e1) l) as [nl st'].
      rewrite !join_cons. reflexivity.
    + intros ->. rewrite (@first_line_head _ _ _ El).
      destruct (@slash_step_sl _ _ _ _ _ _ Q) as [-> ->].
      destruct P as [|b P]; cbn [app].
      * cbn in Hr. injection Hr as <-.
        specialize (Hb eq_refl). destruct B as [|b B]; [discriminate|].
        destruct (is_linebreak b); [discriminate|]. exact Hb.
      * cbn [run] in Hr.
        destruct (slash_step (false, false, true) b) eqn:Qb; [|discriminate].
        pose proof (@slash_step_after_slash _ _ _ _ Qb eq_refl eq_refl) as Hne.
        destruct (is_linebreak b); [discriminate|]. congruence.
Qed.

Lemma quote_slash_step i e c i' e' :
  quote_step (i, e) c = Some (i', e') ->
  forall sl, slash_step (i, e, sl) c = Some (i', e', false).
Proof.
  unfold quote_step, slash_step. intros H sl. destruct e.
  { destruct (c =? LF); [discriminate|]. now injection H as <- <-. }
  destruct (c =? BACKSLASH).
  { destruct i; [|discriminate]. now injection H as <- <-. }
  destruct (c =? DQUOTE); [now injection H as <- <-|].
  destruct (c =? SLASH); [|now injection H as <- <-].
  destruct i; [|discriminate]. now injection H as <- <-.
Qed.

Lemma run_quote_slash s : forall i e sl i' e',
  run quote_step (i, e) s = Some (i', e') ->
  exists sl', run slash_step (i, e, sl) s = Some (i', e', sl') /\
              (s <> [] -> sl' = false).
Proof.
  induction s as [|c s IH]; intros i e sl i' e' H.
  { cbn in H |- *. injection H as <- <-. exists sl. now split. }
  cbn [run] in H |- *.
  destruct (quote_step (i, e) c) as [[i1 e1]|] eqn:Q; [|discriminate].
  rewrite (@quote_slash_step _ _ _ _ _ Q sl).
  destruct (IH i1 e1 false i' e' H) as (sl' & Hr & Hs).
  exists sl'. split; [exact Hr|]. intros _.
  destruct s; [|now apply Hs]. cbn in Hr. now injection Hr as _ _ <-.
Qed.

Lemma scan_line_comment st c :
  in_string st = false -> escape_next st = false ->
  scan_line st (SLASH :: SLASH :: c) = ([], st).
Proof.
  intros Hi He. cbn [scan_line hd_error]. unfold line_body.
  rewrite He, Hi. reflexivity.
Qed.

Lemma splitlines_first l rest :
  no_linebreak l = true ->
  splitlines (l ++ LF :: rest) =
  (if match l with [] => true | _ => false end then [] else l) :: splitlines rest.
Proof.
  intros Hl. destruct l as [|c l]; [apply splitlines_cons_LF|].
  now apply splitlines_line.
Qed.

(** A line comment, seen by the first loop and by the whole function. *)
Lemma line_comment_stripped A c B :
  newline_only A = true ->
  run slash_step (false, false, false) A = Some (false, false, false) ->
  no_linebreak c = true ->
  strip_line_comments (A ++ SLASH :: SLASH :: c ++ LF :: B) =
    strip_line_comments (A ++ LF :: B) /\
  remove_comments_from_json_string (A ++ SLASH :: SLASH :: c ++ LF :: B) =
    remove_comments_from_json_string (A ++ LF :: B) /\
  strip_line_comments (A ++ SLASH :: SLASH :: c) = A.
Proof.
  intros Hn Hr Hc.
  assert (Hline : forall R,
            splitlines (SLASH :: SLASH :: c ++ R) = (SLASH :: SLASH :: c) :: splitlines (tl R) ->
            scan_lines initial (splitlines (SLASH :: SLASH :: c ++ R)) =
            [] :: scan_lines initial (splitlines (tl R))).
  { intros R ->. cbn [scan_lines].
    now rewrite (@scan_line_comment initial c eq_refl eq_refl). }
  assert (Hc2 : no_linebreak (SLASH :: SLASH :: c) = true) by exact Hc.
  assert (H1 : strip_line_comments (A ++ SLASH :: SLASH :: c ++ LF :: B) =
               strip_line_comments (A ++ LF :: B)).
  { unfold strip_line_comments, initial.
    rewrite (@strip_prefix A false false false false false
               (SLASH :: SLASH :: c ++ LF :: B) Hn Hr)
      by (discriminate || (intros; discriminate)).
    rewrite (@strip_prefix A false false false false false
               (LF :: B) Hn Hr)
      by (discriminate || (intros; discriminate)).
    f_equal. fold initial.
    rewrite (Hline (LF :: B)).
    - now rewrite splitlines_cons_LF.
    - change (SLASH :: SLASH :: c ++ LF :: B)
        with ((SLASH :: SLASH :: c) ++ LF :: B).
      now rewrite (@splitlines_first _ _ Hc2). }
  split; [exact H1|]. split.
  - unfold remove_comments_from_json_string. now rewrite H1.
  - unfold strip_line_comments, initial.
    rewrite (@strip_prefix A false false false false false
               (SLASH :: SLASH :: c) Hn Hr)
      by (discriminate || (intros; discriminate)).
    fold initial. rewrite <- (app_nil_r (SLASH :: SLASH :: c)) at 1.
    change ((SLASH :: SLASH :: c) ++ []) with (SLASH :: SLASH :: c ++ []).
    rewrite (Hline []).
    + cbn. apply app_nil_r.
    + rewrite app_nil_r. cbn [tl splitlines].
      now apply (@splitlines_line (SLASH :: SLASH :: c) []).
Qed.

Lemma scan_block_plain_prefix A : forall i e i' e' R,
  run quote_step (i, e) A = Some (i', e') ->
  fst (scan_block (mkState false i e) (A ++ R)) =
  A ++ fst (scan_block (mkState false i' e') R).
Proof.
  induction A as [|c A IH]; intros i e i' e' R H.
  { cbn in H. now injection H as <- <-. }
  cbn [run] in H.
  destruct (quote_step (i, e) c) as [[i1 e1]|] eqn:Q; [|discriminate].
  cbn [app]. rewrite scan_block_cons. cbv zeta.
  rewrite (@block_body_plain i e c (hd_error (A ++ R)) i1 e1 Q).
  cbn [emit skip after fst]. f_equal. now apply IH.
Qed.

Lemma comment_char_plain c :
  forallb comment_char c = true -> forallb plain_in_comment c = true.
Proof.
  induction c as [|x c IH]; [reflexivity|]. cbn [forallb].
  rewrite !andb_true_iff. unfold comment_char at 1.
  rewrite !andb_true_iff. intros [[[Hp _] _] Hc]. auto.
Qed.

Lemma comment_char_newline_only c :
  forallb comment_char c = true -> newline_only c = true.
Proof.
  induction c as [|x c IH]; [reflexivity|]. cbn [forallb newline_only].
  rewrite !andb_true_iff. unfold comment_char at 1.
  rewrite !andb_true_iff. intros [[_ Hl] Hc]. auto.
Qed.

Lemma comment_char_slash_step x :
  comment_char x = true ->
  forall sl, slash_step (false, false, sl) x = Some (false, false, false).
Proof.
  unfold comment_char, plain_in_comment. rewrite !andb_true_iff, !negb_true_iff.
  intros [[[Hs Hb] Hq] _] sl. unfold slash_step. now rewrite Hb, Hq, Hs.
Qed.

Lemma run_slash_comment c : forall sl,
  forallb comment_char c = true ->
  exists sl', run slash_step (false, false, sl) c = Some (false, false, sl') /\
              (sl = false -> sl' = false).
Proof.
  induction c as [|x c IH]; intros sl H.
  { exists sl. now split. }
  cbn [forallb] in H. apply andb_true_iff in H as [Hx H]. cbn [run].
  rewrite (comment_char_slash_step _ Hx).
  destruct (IH false H) as (sl' & Hr & Hs).
  exists sl'. split; [exact Hr|]. intros _. now apply Hs.
Qed.

(** A block comment, seen by the two loops and by the whole function. *)
Lemma block_comment_stripped A c B :
  newline_only A = true ->
  run quote_step (false, false) A = Some (false, false) ->
  forallb comment_char c = true ->
  B <> [] -> hd_error B <> Some SLASH ->
  strip_block_comments
    (strip_line_comments (A ++ SLASH :: STAR :: c ++ STAR :: SLASH :: B)) =
    strip_block_comments (strip_line_comments (A ++ B)) /\
  remove_comments_from_json_string
    (A ++ SLASH :: STAR :: c ++ STAR :: SLASH :: B) =
    remove_comments_from_json_string (A ++ B).
Proof.
  intros Hn Hq Hc HB Hh.
  assert (H : strip_block_comments
                (strip_line_comments (A ++ SLASH :: STAR :: c ++ STAR :: SLASH :: B)) =
              strip_block_comments (strip_line_comments (A ++ B))).
  2:{ split; [exact H|]. unfold remove_comments_from_json_string. now rewrite H. }
  destruct (@run_quote_slash A false false false false false Hq) as (sa & Ha & _).
  destruct (@run_slash_comment c false Hc) as (sc & Hrc & Hsc).
  specialize (Hsc eq_refl). subst sc.
  set (P := A ++ SLASH :: STAR :: c ++ [STAR; SLASH]).
  assert (HP : A ++ SLASH :: STAR :: c ++ STAR :: SLASH :: B = P ++ B).
  { unfold P. rewrite <- !app_assoc. cbn [app]. now rewrite <- app_assoc. }
  assert (HnP : newline_only P = true).
  { unfold P, newline_only. rewrite forallb_app. cbn [forallb].
    rewrite forallb_app. cbn [forallb].
    apply comment_char_newline_only in Hc. unfold newline_only in Hn, Hc.
    now rewrite Hn, Hc. }
  assert (HrP : run slash_step (false, false, false) P = Some (false, false, true)).
  { unfold P. rewrite run_app, Ha.
    assert (Hs : run slash_step (false, false, sa) (SLASH :: STAR :: c ++ [STAR; SLASH]) =
                 Some (false, false, true)).
    { destruct sa.
      - (* A ends with a slash outside a string: excluded by quote_step *)
        destruct A as [|a A]; [cbn in Ha; discriminate Ha|].
        destruct (@run_quote_slash (a :: A) false false false false false Hq)
          as (s' & Hr' & Hs'). rewrite Ha in Hr'. injection Hr' as <-.
        now specialize (Hs' ltac:(discriminate)).
      - cbn [run]. change (slash_step (false, false, false) SLASH)
          with (Some (false, false, true)).
        cbv beta iota.
        change (slash_step (false, false, true) STAR)
          with (Some (false, false, false)).
        cbv beta iota. rewrite run_app, Hrc. reflexivity. }
    exact Hs. }
  unfold strip_line_comments, initial. rewrite HP.
  rewrite (@strip_prefix P false false false false true B HnP HrP (fun _ => Hh) HB).
  rewrite (@strip_prefix A false false false false sa B Hn Ha) by
    (try exact HB; intros _; exact Hh).
  fold initial. set (Bs := join [LF] (scan_lines initial (splitlines B))).
  unfold strip_block_comments, initial.
  rewrite (@scan_block_plain_prefix A false false false false Bs Hq).
  unfold P. rewrite <- app_assoc.
  rewrite (@scan_block_plain_prefix A false false false false _ Hq).
  f_equal. cbn [app]. rewrite scan_block_cons. cbv zeta.
  change (block_body (mkState false false false) SLASH
            (hd_error (STAR :: (c ++ [STAR; SLASH]) ++ Bs)))
    with (mkStep false true (mkState true false false)).
  cbn [skip emit after tl fst]. rewrite <- app_assoc. cbn [app].
  rewrite (@plain_comment_closes c (mkState true false false) Bs eq_refl eq_refl
             (comment_char_plain _ Hc)).
  reflexivity.
Qed.

(** ** A block comment that holds [//] *)

Lemma scan_block_open_no_slash s : forall st,
  in_comment st = true -> ~ In SLASH s -> fst (scan_block st s) = [].
Proof.
  induction s as [|c rest IH]; intros st Hin Hs; [reflexivity|].
  rewrite scan_block_cons. cbv zeta.
  assert (Hc : (c =? SLASH) = false)
    by (apply N.eqb_neq; intros ->; apply Hs; now left).
  assert (Hr : ~ In SLASH rest) by (intros H; apply Hs; now right).
  assert (Hn : next_is SLASH (hd_error rest) = false).
  { destruct rest as [|c2 rest]; [reflexivity|]. cbn [hd_error next_is].
    apply N.eqb_neq. intros ->. apply Hr. now left. }
  rewrite (@block_body_silent st c (hd_error rest) Hin).
  assert (Hstep : skip (block_body st c (hd_error rest)) = false /\
                  in_comment (after (block_body st c (hd_error rest))) = true).
  { destruct st as [ic ins esc]. cbn [in_comment] in Hin. subst ic.
    unfold block_body. cbn [escape_next in_comment in_string negb].
    rewrite Hc, Hn. destruct esc; [now split|].
    destruct (c =? BACKSLASH); [now split|].
    destruct (c =? DQUOTE); cbn [andb]; rewrite ?andb_false_r; now split. }
  destruct Hstep as [Hk Ha]. rewrite Hk. cbn [fst]. now apply IH.
Qed.

Lemma scan_lines_In lines : forall st l c,
  In l (scan_lines st lines) -> In c l -> exists l0, In l0 lines /\ In c l0.
Proof.
  induction lines as [|l0 lines IH]; intros st l c Hl Hc; [contradiction|].
  cbn [scan_lines] in Hl. pose proof (scan_line_cut l0 st) as (cut & E & _).
  destruct (scan_line st l0) as [nl st']. cbn [fst] in E.
  destruct Hl as [<-|Hl].
  - exists l0. split; [now left|]. rewrite E. apply in_or_app. now left.
  - destruct (IH _ _ _ Hl Hc) as (l1 & H1 & H2). exists l1. split; [now right|exact H2].
Qed.

Lemma strip_line_comments_In s c :
  In c (strip_line_comments s) -> c = LF \/ In c s.
Proof.
  unfold strip_line_comments. intros H.
  apply join_In in H as [[H|[]]|(l & Hl & Hc)]; [now left|right].
  destruct (scan_lines_In _ _ _ _ Hl Hc) as (l0 & H0 & H1).
  exact (splitlines_In _ _ _ H0 H1).
Qed.

(** X14: a [//] inside a block comment.  The first loop does not know
    block comments: it cuts the line at the [//], and with it the end of
    the comment when that stands on the same line.  Let a text read [A],
    then [/*], a comment text [c1], [//], a text [c2] that holds no line
    boundary, a newline, and any rest [B].  Of [A] it is assumed that the
    newline character is its only line boundary, that every slash and
    backslash of it is inside a string literal, that no newline comes right
    after an escaping backslash, and that it ends outside a string literal:
    [A] is accepted by [quote_step].  Of [c1] it is assumed that it holds
    no slash, backslash or double quote, and no line boundary other than
    the newline character.  Then the result for the text is the result for
    the text without [//] and [c2], where the comment is left open; and if
    [B] holds no slash, all that follows [A] is lost: the result is what
    the last two passes make of [A]. *)
Theorem double_slash_hides_comment_end A c1 c2 B :
  newline_only A = true ->
  run quote_step (false, false) A = Some (false, false) ->
  forallb comment_char c1 = true ->
  no_linebreak c2 = true ->
  remove_comments_from_json_string
    (A ++ SLASH :: STAR :: c1 ++ SLASH :: SLASH :: c2 ++ LF :: B) =
    remove_comments_from_json_string (A ++ SLASH :: STAR :: c1 ++ LF :: B) /\
  (~ In SLASH B ->
   remove_comments_from_json_string
     (A ++ SLASH :: STAR :: c1 ++ SLASH :: SLASH :: c2 ++ LF :: B) =
   drop_blank_lines (re_sub_trailing A)).
Proof.
  intros Hn Hq Hc Hl2.
  destruct (@run_quote_slash A false false false false false Hq) as (sa & Ha & Hsa).
  destruct (@run_slash_comment c1 false Hc) as (sc & Hrc & Hsc).
  specialize (Hsc eq_refl). subst sc.
  set (P := A ++ SLASH :: STAR :: c1).
  assert (HnP : newline_only P = true).
  { unfold P, newline_only. rewrite forallb_app. cbn [forallb].
    apply comment_char_newline_only in Hc. unfold newline_only in Hn, Hc.
    now rewrite Hn, Hc. }
  assert (HrP : run slash_step (false, false, false) P = Some (false, false, false)).
  { unfold P. rewrite run_app, Ha.
    assert (Hsa' : sa = false).
    { destruct A as [|a A]; [cbn in Ha; congruence|]. apply Hsa. discriminate. }
    subst sa. cbn [run].
    change (slash_step (false, false, false) SLASH)
      with (Some (false, false, true)). cbv beta iota.
    change (slash_step (false, false, true) STAR)
      with (Some (false, false, false)). cbv beta iota. exact Hrc. }
  assert (HX : forall R, A ++ SLASH :: STAR :: c1 ++ R = P ++ R).
  { intros R. unfold P. rewrite <- app_assoc. reflexivity. }
  rewrite !HX.
  destruct (@line_comment_stripped P c2 B HnP HrP Hl2) as (_ & H2 & _).
  split; [exact H2|]. intros HB. rewrite H2.
  unfold remove_comments_from_json_string.
  assert (Hline : strip_line_comments (P ++ LF :: B) =
                  P ++ strip_line_comments (LF :: B)).
  { unfold strip_line_comments, initial.
    apply (@strip_prefix P false false false false false (LF :: B) HnP HrP);
      discriminate. }
  rewrite Hline. unfold P. rewrite <- app_assoc.
  unfold strip_block_comments, initial.
  rewrite (@scan_block_plain_prefix A false false false false _ Hq).
  cbn [app]. rewrite scan_block_cons. cbv zeta.
  change (block_body (mkState false false false) SLASH
            (hd_error (STAR :: c1 ++ strip_line_comments (LF :: B))))
    with (mkStep false true (mkState true false false)).
  cbn [skip emit after tl fst].
  rewrite scan_block_open_no_slash; [now rewrite app_nil_r|reflexivity|].
  intros H. apply in_app_or in H as [H|H].
  - apply comment_char_plain in Hc. rewrite forallb_forall in Hc.
    specialize (Hc SLASH H). discriminate Hc.
  - apply strip_line_comments_In in H as [H|[H|H]];
      [discriminate H|discriminate H|now apply HB].
Qed.

Lemma double_slash_witness :
  remove_comments_from_json_string
    (dq "{'a': 1, " ++ dq "/* http://x */" ++ LF :: dq "'b': 2}") =
  dq "{'a': 1, ".
Proof.
  refine (proj2 (@double_slash_hides_comment_end
                   (dq "{'a': 1, ") (dq " http:") (dq "x */") (dq "'b': 2}")
                   eq_refl eq_refl eq_refl eq_refl) _).
  cbn. intuition discriminate.
Defined.

(** ** Comments and [clean_json_content] *)

Section CommentsCleaned.
Context {PF : PyFloat} {PI : Interpreter}.

Lemma kept_chars_app a b : kept_chars (a ++ b) = kept_chars a ++ kept_chars b.
Proof. unfold kept_chars. now rewrite !filter_app. Qed.

Lemma kept_chars_length s : (length (kept_chars s) <= length s)%nat.
Proof.
  unfold kept_chars.
  etransitivity; [apply filter_length_le|apply filter_length_le].
Qed.

Lemma preprocess_fixed s :
  preprocess s = s <-> hd_error s <> Some BOM /\ kept_chars s = s.
Proof.
  unfold preprocess. fold (kept_chars (strip_bom s)).
  destruct s as [|a s]; cbn [strip_bom hd_error].
  { split; [split; [discriminate|reflexivity]|reflexivity]. }
  destruct (N.eqb_spec a BOM) as [->|Hne].
  - split.
    + intros H. pose proof (kept_chars_length s) as Hl. rewrite H in Hl.
      cbn [length] in Hl. unfold str, uchar in *. lia.
    + intros [H _]. now contradiction H.
  - split; [intros H; split; [congruence|exact H]|now intros [_ H]].
Qed.

Lemma kept_chars_split a b :
  kept_chars (a ++ b) = a ++ b -> kept_chars a = a /\ kept_chars b = b.
Proof.
  rewrite kept_chars_app. intros H.
  pose proof (kept_chars_length a) as Ha.
  pose proof (kept_chars_length b) as Hb.
  pose proof (f_equal (@length uchar) H) as Hl. rewrite !length_app in Hl.
  apply app_eq_app in H as (l & [[H1 H2]|[H1 H2]]);
    pose proof (f_equal (@length uchar) H1) as Hl1;
    rewrite length_app in Hl1;
    (destruct l; [|cbn [length] in Hl1; unfold str, uchar in *; lia]);
    rewrite app_nil_r in H1; cbn [app] in H2; now split.
Qed.

Lemma kept_chars_text s : forallb text_char s = true -> kept_chars s = s.
Proof.
  induction s as [|c s IH]; [reflexivity|]. cbn [forallb].
  rewrite andb_true_iff. intros [Hc Hs].
  destruct (text_char_allowed _ Hc) as [Ha Hn].
  unfold kept_chars in *. cbn [filter]. rewrite Hn. cbn [negb filter].
  rewrite Ha. f_equal. now apply IH.
Qed.

Lemma kept_chars_no_linebreak c :
  no_linebreak c = true -> no_linebreak (kept_chars c) = true.
Proof.
  intros H. unfold no_linebreak.
  apply (@sub_forallb _ (kept_chars c) c); [|exact H].
  unfold kept_chars. eapply sub_trans; apply sub_filter.
Qed.

Lemma preprocess_after_fixed A R :
  preprocess A = A -> hd_error R <> Some BOM ->
  preprocess (A ++ R) = A ++ kept_chars R.
Proof.
  intros HA HR. apply preprocess_fixed in HA as [Hh Hk].
  unfold preprocess. fold (kept_chars (strip_bom (A ++ R))).
  destruct A as [|a A]; cbn [app strip_bom hd_error] in *.
  - destruct R as [|r R]; [reflexivity|]. cbn [strip_bom].
    destruct (N.eqb_spec r BOM) as [->|]; [now contradiction HR|reflexivity].
  - destruct (N.eqb_spec a BOM) as [->|]; [now contradiction Hh|].
    change (a :: A ++ R) with ((a :: A) ++ R).
    now rewrite kept_chars_app, Hk.
Qed.

(** X6: a line comment is removed.  Let a text read [A], then [//], a
    comment [c] that holds no line boundary, a newline, and any rest [B].
    Of [A] it is assumed that the newline character is its only line
    boundary and that, read as the first loop reads it (a backslash escapes
    the character after it, inside a string and outside; a double quote
    that is not escaped opens or closes a string), it holds no two slashes
    in a row outside a string and no newline right after an escaping
    backslash, and ends outside a string, not after an escaping backslash
    and not with a slash: [A] is accepted by [slash_step].  Then the first
    loop, and so the whole function, returns what it returns for the text
    without the comment; a comment that ends the text is cut off leaving
    [A]; and if the preprocessor leaves [A] as it is, [clean_json_content]
    returns, or reports, the same with the comment as without it. *)
Theorem line_comment_removed A c B :
  newline_only A = true ->
  run slash_step (false, false, false) A = Some (false, false, false) ->
  no_linebreak c = true ->
  strip_line_comments (A ++ SLASH :: SLASH :: c ++ LF :: B) =
    strip_line_comments (A ++ LF :: B) /\
  remove_comments_from_json_string (A ++ SLASH :: SLASH :: c ++ LF :: B) =
    remove_comments_from_json_string (A ++ LF :: B) /\
  strip_line_comments (A ++ SLASH :: SLASH :: c) = A /\
  (preprocess A = A ->
   clean_json_content (A ++ SLASH :: SLASH :: c ++ LF :: B) =
   clean_json_content (A ++ LF :: B)).
Proof.
  intros Hn Hr Hc.
  destruct (@line_comment_stripped A c B Hn Hr Hc) as (H1 & H2 & H3).
  repeat (split; [assumption|]).
  intros HA. unfold clean_json_content.
  rewrite (@preprocess_after_fixed A (SLASH :: SLASH :: c ++ LF :: B) HA)
    by discriminate.
  rewrite (@preprocess_after_fixed A (LF :: B) HA) by discriminate.
  change (SLASH :: SLASH :: c ++ LF :: B)
    with ([SLASH; SLASH] ++ c ++ [LF] ++ B).
  change (LF :: B) with ([LF] ++ B).
  rewrite !kept_chars_app.
  change (kept_chars [SLASH; SLASH]) with [SLASH; SLASH].
  change (kept_chars [LF]) with [LF]. cbn [app].
  now rewrite (proj1 (proj2 (@line_comment_stripped
                               A (kept_chars c) (kept_chars B) Hn Hr
                               (kept_chars_no_linebreak _ Hc)))).
Qed.

(** X7: a block comment is removed.  Let a text read [A], then [/*], a
    comment text [c], [*/] and a rest [B].  Of [A] it is assumed that the
    newline character is its only line boundary, that every slash and
    backslash of it is inside a string literal, that no newline comes right
    after an escaping backslash, and that it ends outside a string literal:
    [A] is accepted by [quote_step].  Of [c] it is assumed that it holds no
    slash, backslash or double quote, and no line boundary other than the
    newline character; of [B], that it is not empty and does not start with
    a slash.  Then the function returns what it returns for the text
    without the comment; and if the preprocessor changes neither the text
    around the comment nor the comment, [clean_json_content] returns, or
    reports, the same with the comment as without it. *)
Theorem block_comment_removed A c B :
  newline_only A = true ->
  run quote_step (false, false) A = Some (false, false) ->
  forallb comment_char c = true ->
  B <> [] -> hd_error B <> Some SLASH ->
  strip_block_comments
    (strip_line_comments (A ++ SLASH :: STAR :: c ++ STAR :: SLASH :: B)) =
    strip_block_comments (strip_line_comments (A ++ B)) /\
  remove_comments_from_json_string
    (A ++ SLASH :: STAR :: c ++ STAR :: SLASH :: B) =
    remove_comments_from_json_string (A ++ B) /\
  (preprocess (A ++ B) = A ++ B -> kept_chars c = c ->
   clean_json_content (A ++ SLASH :: STAR :: c ++ STAR :: SLASH :: B) =
   clean_json_content (A ++ B)).
Proof.
  intros Hn Hq Hc HB Hh.
  destruct (@block_comment_stripped A c B Hn Hq Hc HB Hh) as (H1 & H2).
  repeat (split; [assumption|]).
  intros HAB Hkc. unfold clean_json_content. rewrite HAB.
  apply preprocess_fixed in HAB as [HhAB Hk].
  apply kept_chars_split in Hk as [HkA HkB].
  assert (HX : preprocess (A ++ SLASH :: STAR :: c ++ STAR :: SLASH :: B) =
               A ++ SLASH :: STAR :: c ++ STAR :: SLASH :: B).
  { apply preprocess_fixed. split.
    - destruct A as [|a A]; [discriminate|exact HhAB].
    - change (SLASH :: STAR :: c ++ STAR :: SLASH :: B)
        with ([SLASH; STAR] ++ c ++ [STAR; SLASH] ++ B).
      rewrite !kept_chars_app, HkA, Hkc, HkB. reflexivity. }
  now rewrite HX, H2.
Qed.

End CommentsCleaned.

(** ** String literals through the cleaning stages *)













































Section StringSafety.
Context {PF : PyFloat} {PI : Interpreter}.


End StringSafety.



Lemma line_comment_removed_witness :
  @clean_json_content text_float cpython
    (dq "{'url': 'http://x', // 'quoted' note" ++ [LF] ++ dq "'n': 1}") =
  @clean_json_content text_float cpython
    (dq "{'url': 'http://x', " ++ [LF] ++ dq "'n': 1}").
Proof.
  exact (proj2 (proj2 (proj2 (@line_comment_removed text_float cpython
                         (dq "{'url': 'http://x', ") (dq " 'quoted' note")
                         (dq "'n': 1}") eq_refl eq_refl eq_refl))) eq_refl).
Defined.

Lemma block_comment_removed_witness :
  @clean_json_content text_float cpython
    (dq "{'a': 1, /* first" ++ [LF] ++ dq "   second */ 'b': '/* kept */'}") =
  @clean_json_content text_float cpython (dq "{'a': 1,  'b': '/* kept */'}").
Proof.
  exact (proj2 (proj2 (@block_comment_removed text_float cpython
                  (dq "{'a': 1, ") (dq " first" ++ [LF] ++ dq "   second ")
                  (dq " 'b': '/* kept */'}")
                  eq_refl eq_refl eq_refl ltac:(discriminate) ltac:(discriminate)))
           eq_refl eq_refl).
Defined.

(* ===================================================================== *)
(** * Further properties of the [json] step                               *)
(* ===================================================================== *)

Section EncodeDecode.
Context {PF : PyFloat} {PI : Interpreter}.

(** X8: what [json.dump] writes, [json.loads] reads back as the same value,
    for every value in which the keys of each mapping are pairwise
    different, each float is written as a text that is read back as that
    float, no integer has more than 4300 digits, and the containers are
    nested no deeper than the interpreter lets [json.loads] go; strings of
    any content come back as they were.  Every value that [json.loads]
    returned meets the conditions on keys, integers and nesting, so what
    [json.dump] writes for it is read back as that value when its floats
    are. *)
Theorem dump_then_loads :
  (forall v,
     unique_keys v -> readable v -> short_ints v ->
     (nesting v <= recursion_depth)%nat ->
     json_loads (json_dump v) = Value v) /\
  (forall s v,
     json_loads s = Value v ->
     unique_keys v /\ short_ints v /\ (nesting v <= recursion_depth)%nat) /\
  (forall s v,
     json_loads s = Value v -> readable v ->
     json_loads (json_dump v) = Value v).
Proof.
  split; [exact loads_after_dump|]. split.
  - intros s v H. destruct (json_loads_within _ H) as [H1 H2].
    split; [exact (json_loads_unique_keys _ H)|]. split; assumption.
  - intros s v H Hr. destruct (json_loads_within _ H) as [H1 H2].
    apply loads_after_dump; try assumption.
    exact (json_loads_unique_keys _ H).
Qed.

End EncodeDecode.

Lemma dump_then_loads_witness :
  @json_loads text_float cpython
    (json_dump (VDict [(dq "k,]", VList [VStr [8232; 34; 92; 10]; VInt (-120)%Z;
                                         @VFloat text_float (dq "1.5"); VNone]);
                       ([], VDict [])])) =
  Value (VDict [(dq "k,]", VList [VStr [8232; 34; 92; 10]; VInt (-120)%Z;
                                  @VFloat text_float (dq "1.5"); VNone]);
                ([], VDict [])]).
Proof.
  apply (proj1 (@dump_then_loads text_float cpython)).
  - cbn [unique_keys map fst].
    repeat split; try exact I; repeat constructor; cbn [In]; intros H;
      repeat destruct H as [H|H]; try discriminate H; try contradiction.
  - cbn [readable]. repeat split. apply text_float_stable.
  - cbn [short_ints]. repeat split. vm_compute. discriminate.
  - vm_compute. repeat constructor.
Defined.

(** ** Repeated keys *)

Section RepeatedKeys.
Context {PF : PyFloat} {PI : Interpreter}.

Lemma dict_get_set d k v k' :
  dict_get (dict_set d k v) k' =
  if list_eq_dec N.eq_dec k' k then Some v else dict_get d k'.
Proof.
  induction d as [|[k0 v0] d IH]; cbn [dict_set dict_get]; [reflexivity|].
  destruct (list_eq_dec N.eq_dec k k0) as [->|Hk]; cbn [dict_get].
  - destruct (list_eq_dec N.eq_dec k' k0); reflexivity.
  - rewrite IH. destruct (list_eq_dec N.eq_dec k' k0) as [->|];
      [|reflexivity].
    destruct (list_eq_dec N.eq_dec k0 k); [congruence|reflexivity].
Qed.

Lemma dict_get_app d1 d2 k :
  dict_get (d1 ++ d2) k =
  match dict_get d1 k with Some v => Some v | None => dict_get d2 k end.
Proof.
  induction d1 as [|[k0 v0] d1 IH]; cbn [app dict_get]; [reflexivity|].
  destruct (list_eq_dec N.eq_dec k k0); [reflexivity|exact IH].
Qed.

Lemma dict_get_fold pairs : forall d k,
  dict_get (fold_left (fun d kv => dict_set d (fst kv) (snd kv)) pairs d) k =
  match dict_get (rev pairs) k with Some v => Some v | None => dict_get d k end.
Proof.
  induction pairs as [|[k0 v0] pairs IH]; intros d k; [reflexivity|].
  cbn [fold_left rev fst snd]. rewrite IH, dict_get_app, dict_get_set.
  cbn [dict_get]. destruct (dict_get (rev pairs) k); [reflexivity|].
  destruct (list_eq_dec N.eq_dec k k0); reflexivity.
Qed.

(** X9: a key written more than once in an object.  The mapping built from
    the members in the order of the text holds each key once, with the value
    of its last occurrence, and it is the list of the members as they stand
    when no key is repeated; so every value that [json.loads], and with it
    [clean_json_content], returns has pairwise different keys in each of its
    mappings, and the members that an input repeats are lost when the file
    is written back: [{"a": 1, "b": 2, "a": 3}] becomes a mapping of [a] to
    3 and [b] to 2. *)
Theorem repeated_key_keeps_last_value :
  (forall pairs k, dict_get (dict_of_pairs pairs) k = dict_get (rev pairs) k) /\
  (forall pairs, NoDup (map fst (dict_of_pairs pairs))) /\
  (forall pairs, NoDup (map fst pairs) -> dict_of_pairs pairs = pairs) /\
  (forall content json_data,
     clean_json_content content = Ok json_data -> unique_keys json_data) /\
  (clean_json_content (dq "{'a': 1, 'b': 2, 'a': 3}") =
   Ok (VDict [(dq "a", VInt 3); (dq "b", VInt 2)])).
Proof.
  split; [|split; [|split; [|split]]].
  - intros pairs k. unfold dict_of_pairs. rewrite dict_get_fold.
    now destruct (dict_get (rev pairs) k).
  - intros pairs.
    apply (@dict_of_pairs_sound _ (fun _ => True) pairs).
    apply Forall_forall. auto.
  - apply dict_of_pairs_unique.
  - intros content json_data. unfold clean_json_content.
    destruct (json_loads _) as [obj|e|] eqn:E; try discriminate.
    intros [= <-]. eapply json_loads_unique_keys, E.
  - one_deep. vm_compute. reflexivity.
Qed.

End RepeatedKeys.

Lemma repeated_key_witness :
  exists json_data,
    @clean_json_content text_float cpython (dq "{'k': {'x': 1, 'x': 2}, 'k': [3]}")
    = Ok json_data /\ unique_keys json_data.
Proof.
  assert (H : exists json_data,
            @clean_json_content text_float cpython
              (dq "{'k': {'x': 1, 'x': 2}, 'k': [3]}") = Ok json_data)
    by (eexists; vm_compute; reflexivity).
  destruct H as [json_data H]. exists json_data. split; [exact H|].
  exact (proj1 (proj2 (proj2 (proj2
           (@repeated_key_keeps_last_value text_float cpython)))) _ _ H).
Defined.

(* ===================================================================== *)
(** * Properties of [process_json_file] and [main]                        *)
(* ===================================================================== *)

(** ** The codec *)

Lemma utf8_decode_cons b1 r1 :
  utf8_decode (b1 :: r1) =
  if b1 <? 128 then option_map (cons b1) (utf8_decode r1)
  else if (194 <=? b1) && (b1 <=? 223) then
    match r1 with
    | b2 :: r2 =>
        if continuation b2
        then option_map (cons ((b1 - 192) * 64 + (b2 - 128))) (utf8_decode r2)
        else None
    | [] => None
    end
  else if (224 <=? b1) && (b1 <=? 239) then
    match r1 with
    | b2 :: b3 :: r3 =>
        if (if b1 =? 224 then 160 <=? b2 else true) &&
           (if b1 =? 237 then b2 <=? 159 else true) &&
           continuation b2 && continuation b3
        then option_map
               (cons ((b1 - 224) * 4096 + (b2 - 128) * 64 + (b3 - 128)))
               (utf8_decode r3)
        else None
    | _ => None
    end
  else if (240 <=? b1) && (b1 <=? 244) then
    match r1 with
    | b2 :: b3 :: b4 :: r4 =>
        if (if b1 =? 240 then 144 <=? b2 else true) &&
           (if b1 =? 244 then b2 <=? 143 else true) &&
           continuation b2 && continuation b3 && continuation b4
        then option_map
               (cons ((b1 - 240) * 262144 + (b2 - 128) * 4096 +
                      (b3 - 128) * 64 + (b4 - 128)))
               (utf8_decode r4)
        else None
    | _ => None
    end
  else None.
Proof. reflexivity. Qed.

Lemma Some_eq {A : Type} (x y : A) : Some x = Some y -> y = x.
Proof. congruence. Qed.

Lemma utf8_decode_encode_char c b rest :
  utf8_encode_char c = Some b ->
  utf8_decode (b ++ rest) = option_map (cons c) (utf8_decode rest).
Proof.
  unfold utf8_encode_char.
  pose proof (N.div_mod c 64 ltac:(lia)) as D1.
  pose proof (N.mod_lt c 64 ltac:(lia)) as M1.
  pose proof (N.div_mod (c / 64) 64 ltac:(lia)) as D2.
  pose proof (N.mod_lt (c / 64) 64 ltac:(lia)) as M2.
  pose proof (N.div_mod (c / 4096) 64 ltac:(lia)) as D3.
  pose proof (N.mod_lt (c / 4096) 64 ltac:(lia)) as M3.
  assert (E2 : c / 64 / 64 = c / 4096) by (rewrite N.Div0.div_div; reflexivity).
  assert (E3 : c / 4096 / 64 = c / 262144) by (rewrite N.Div0.div_div; reflexivity).
  rewrite E2 in D2. rewrite E3 in D3.
  set (a1 := c / 64) in *. set (r0 := c mod 64) in *.
  set (a2 := c / 4096) in *. set (r1 := a1 mod 64) in *.
  set (a3 := c / 262144) in *. set (r2 := a2 mod 64) in *.
  clearbody a1 r0 a2 r1 a3 r2.
  destruct (N.ltb_spec c 128) as [H1|H1].
  { intros Hb. apply Some_eq in Hb. subst b. cbn [app].
    rewrite utf8_decode_cons.
    now rewrite (proj2 (N.ltb_lt c 128) H1). }
  destruct (N.ltb_spec c 2048) as [H2|H2].
  { intros Hb. apply Some_eq in Hb. subst b. cbn [app].
    rewrite utf8_decode_cons.
    rewrite (proj2 (N.ltb_ge (192 + a1) 128)) by lia.
    rewrite (proj2 (N.leb_le 194 (192 + a1))) by lia.
    rewrite (proj2 (N.leb_le (192 + a1) 223)) by lia.
    cbn [andb]. unfold continuation.
    rewrite (proj2 (N.leb_le 128 (128 + r0))) by lia.
    rewrite (proj2 (N.leb_le (128 + r0) 191)) by lia.
    cbn [andb]. do 2 f_equal. lia. }
  destruct (N.ltb_spec c 65536) as [H3|H3].
  { destruct ((55296 <=? c) && (c <=? 57343)) eqn:Hs; [discriminate|].
    assert (Hsur : c < 55296 \/ 57343 < c).
    { apply andb_false_iff in Hs as [Hs|Hs];
        [left; now apply N.leb_gt in Hs|right; now apply N.leb_gt in Hs]. }
    intros Hb. apply Some_eq in Hb. subst b. cbn [app].
    rewrite utf8_decode_cons.
    rewrite (proj2 (N.ltb_ge (224 + a2) 128)) by lia.
    rewrite (proj2 (N.leb_gt (224 + a2) 223)) by lia.
    rewrite andb_false_r.
    rewrite (proj2 (N.leb_le 224 (224 + a2))) by lia.
    rewrite (proj2 (N.leb_le (224 + a2) 239)) by lia.
    cbn [andb]. unfold continuation.
    rewrite (proj2 (N.leb_le 128 (128 + r1))) by lia.
    rewrite (proj2 (N.leb_le (128 + r1) 191)) by lia.
    rewrite (proj2 (N.leb_le 128 (128 + r0))) by lia.
    rewrite (proj2 (N.leb_le (128 + r0) 191)) by lia.
    assert (Hlo : (if 224 + a2 =? 224 then 160 <=? 128 + r1 else true) = true).
    { destruct (N.eqb_spec (224 + a2) 224); [|reflexivity].
      apply N.leb_le. lia. }
    assert (Hhi : (if 224 + a2 =? 237 then 128 + r1 <=? 159 else true) = true).
    { destruct (N.eqb_spec (224 + a2) 237); [|reflexivity].
      apply N.leb_le. lia. }
    rewrite Hlo, Hhi. cbn [andb]. do 2 f_equal. lia. }
  destruct (N.ltb_spec c 1114112) as [H4|H4]; [|discriminate].
  intros Hb. apply Some_eq in Hb. subst b. cbn [app].
    rewrite utf8_decode_cons.
  rewrite (proj2 (N.ltb_ge (240 + a3) 128)) by lia.
  rewrite (proj2 (N.leb_gt (240 + a3) 223)) by lia.
  rewrite andb_false_r.
  rewrite (proj2 (N.leb_gt (240 + a3) 239)) by lia.
  rewrite andb_false_r.
  rewrite (proj2 (N.leb_le 240 (240 + a3))) by lia.
  rewrite (proj2 (N.leb_le (240 + a3) 244)) by lia.
  cbn [andb]. unfold continuation.
  rewrite (proj2 (N.leb_le 128 (128 + r2))) by lia.
  rewrite (proj2 (N.leb_le (128 + r2) 191)) by lia.
  rewrite (proj2 (N.leb_le 128 (128 + r1))) by lia.
  rewrite (proj2 (N.leb_le (128 + r1) 191)) by lia.
  rewrite (proj2 (N.leb_le 128 (128 + r0))) by lia.
  rewrite (proj2 (N.leb_le (128 + r0) 191)) by lia.
  assert (Hlo : (if 240 + a3 =? 240 then 144 <=? 128 + r2 else true) = true).
  { destruct (N.eqb_spec (240 + a3) 240); [|reflexivity].
    apply N.leb_le. lia. }
  assert (Hhi : (if 240 + a3 =? 244 then 128 + r2 <=? 143 else true) = true).
  { destruct (N.eqb_spec (240 + a3) 244); [|reflexivity].
    apply N.leb_le. lia. }
  rewrite Hlo, Hhi. cbn [andb]. do 2 f_equal. lia.
Qed.

Lemma utf8_decode_encode text : forall b,
  utf8_encode text = Some b -> utf8_decode b = Some text.
Proof.
  induction text as [|c text IH]; intros b; cbn [utf8_encode].
  { now intros [= <-]. }
  destruct (utf8_encode_char c) as [bc|] eqn:Ec; [|discriminate].
  destruct (utf8_encode text) as [bs|]; [|discriminate].
  intros [= <-]. rewrite (@utf8_decode_encode_char c bc bs Ec).
  now rewrite (IH bs eq_refl).
Qed.

Lemma utf8_encode_app a b :
  utf8_encode (a ++ b) =
  match utf8_encode a, utf8_encode b with
  | Some x, Some y => Some (x ++ y)
  | _, _ => None
  end.
Proof.
  induction a as [|c a IH]; cbn [app utf8_encode].
  { now destruct (utf8_encode b). }
  rewrite IH. destruct (utf8_encode_char c); [|reflexivity].
  destruct (utf8_encode a); [|reflexivity].
  destruct (utf8_encode b); [|reflexivity]. now rewrite app_assoc.
Qed.

Lemma utf8_sig_decode_encode text b :
  utf8_encode text = Some b -> hd_error text <> Some BOM ->
  utf8_sig_decode b = Some text.
Proof.
  intros Hb Hh. pose proof (utf8_decode_encode _ Hb) as Hd.
  unfold utf8_sig_decode.
  destruct b as [|b1 [|b2 [|b3 rest]]]; try exact Hd.
  { destruct (N.eqb_spec b1 239) as [->|]; [discriminate Hd|exact Hd]. }
  { destruct (N.eqb_spec b1 239) as [->|]; [|exact Hd].
    destruct (N.eqb_spec b2 187) as [->|]; [discriminate Hd|exact Hd]. }
  destruct ((b1 =? 239) && (b2 =? 187) && (b3 =? 191)) eqn:E; [|exact Hd].
  apply andb_true_iff in E as [E E3]. apply andb_true_iff in E as [E1 E2].
  apply N.eqb_eq in E1, E2, E3. subst. exfalso. apply Hh.
  cbn in Hd. destruct (utf8_decode rest); [|discriminate].
  cbn in Hd. now injection Hd as <-.
Qed.

Lemma translate_written os text :
  ~ In CR text -> translate_newlines (write_translate os text) = text.
Proof.
  induction text as [|c text IH]; intros Hc; [reflexivity|].
  assert (Hne : c <> CR) by (intros ->; apply Hc; now left).
  assert (Ht : ~ In CR text) by (intros H; apply Hc; now right).
  specialize (IH Ht). cbn [write_translate flat_map].
  fold (write_translate os text).
  destruct (N.eqb_spec c LF) as [->|Hlf].
  - destruct os; cbn [linesep app translate_newlines].
    + change (LF =? CR) with false. cbv iota. now rewrite IH.
    + change (CR =? CR) with true. change (LF =? LF) with true. cbv iota.
      now rewrite IH.
  - cbn [app translate_newlines]. apply N.eqb_neq in Hne. rewrite Hne.
    now rewrite IH.
Qed.

Lemma write_translate_app os a b :
  write_translate os (a ++ b) = write_translate os a ++ write_translate os b.
Proof. apply flat_map_app. Qed.

Lemma write_translate_head os text :
  hd_error text <> Some BOM -> hd_error (write_translate os text) <> Some BOM.
Proof.
  destruct text as [|c text]; [now intros H|]. cbn [write_translate flat_map].
  destruct (c =? LF).
  - destruct os; discriminate.
  - now intros H.
Qed.

(** ** The lines of the text written back *)

Lemma split_nl_one l : ~ In LF l -> split_nl l = [l].
Proof.
  induction l as [|c l IH]; intros H; [reflexivity|].
  cbn [split_nl]. destruct (N.eqb_spec c LF) as [->|Hc].
  - exfalso. apply H. now left.
  - rewrite IH; [reflexivity|]. intros Hin. apply H. now right.
Qed.

Lemma split_nl_line l rest :
  ~ In LF l -> split_nl (l ++ LF :: rest) = l :: split_nl rest.
Proof.
  induction l as [|c l IH]; intros H; [reflexivity|].
  cbn [split_nl app]. destruct (N.eqb_spec c LF) as [->|Hc].
  - exfalso. apply H. now left.
  - rewrite IH; [reflexivity|]. intros Hin. apply H. now right.
Qed.

Lemma split_nl_join lines :
  lines <> [] -> Forall (fun l => ~ In LF l) lines ->
  split_nl (join [LF] lines) = lines.
Proof.
  induction lines as [|l lines IH]; intros Hne H; [contradiction|].
  inversion H as [|? ? Hl Hrest]; subst.
  destruct lines as [|l2 lines].
  - cbn [join]. now apply split_nl_one.
  - change (join [LF] (l :: l2 :: lines))
      with (l ++ LF :: join [LF] (l2 :: lines)).
    rewrite split_nl_line by exact Hl. f_equal. apply IH; [discriminate|exact Hrest].
Qed.

Lemma join_app sep (A B : list str) :
  A <> [] -> B <> [] -> join sep (A ++ B) = join sep A ++ sep ++ join sep B.
Proof.
  intros HA HB. induction A as [|a A IH]; [contradiction|].
  destruct A as [|a2 A].
  - destruct B as [|b B]; [contradiction|]. reflexivity.
  - change (join sep ((a :: a2 :: A) ++ B))
      with (a ++ sep ++ join sep ((a2 :: A) ++ B)).
    rewrite IH by discriminate. cbn [join]. now rewrite <- !app_assoc.
Qed.

Lemma join_append_last sep (A : list str) t :
  A <> [] -> join sep (append_last A t) = join sep A ++ t.
Proof.
  intros HA. induction A as [|a A IH]; [contradiction|].
  destruct A as [|a2 A]; [reflexivity|].
  change (append_last (a :: a2 :: A) t) with (a :: append_last (a2 :: A) t).
  rewrite join_cons. rewrite IH by discriminate.
  destruct (append_last (a2 :: A) t) eqn:E.
  - destruct A; discriminate E.
  - cbn [join]. now rewrite <- !app_assoc.
Qed.

Lemma append_last_nonempty (A : list str) t : append_last A t <> [].
Proof. destruct A as [|a [|a2 A]]; discriminate. Qed.

Lemma map_append_last (f : str -> str) (A : list str) t :
  A <> [] -> (forall l, f (l ++ t) = f l ++ t) ->
  map f (append_last A t) = append_last (map f A) t.
Proof.
  intros HA Hf. induction A as [|a A IH]; [contradiction|].
  destruct A as [|a2 A]; [cbn; now rewrite Hf|].
  change (append_last (a :: a2 :: A) t) with (a :: append_last (a2 :: A) t).
  cbn [map]. rewrite IH by discriminate. reflexivity.
Qed.

Lemma join_pad_block k (b : list str) :
  b <> [] ->
  join [LF] (map (pad k) b) = repeat SPACE k ++ join [LF] (shift k b).
Proof.
  destruct b as [|l r]; [contradiction|]. intros _.
  cbn [map shift]. rewrite !join_cons. unfold pad at 1.
  now rewrite <- app_assoc.
Qed.

Lemma items_nonempty (blocks : list (list str)) :
  blocks <> [] -> Forall (fun b => b <> []) blocks -> items blocks <> [].
Proof.
  destruct blocks as [|b [|b2 rest]]; intros Hne H.
  - contradiction.
  - now inversion H.
  - cbn [items]. intros E. apply app_eq_nil in E as [E _].
    now apply append_last_nonempty in E.
Qed.

Lemma items_text (X : Type) (blk : X -> list str) (txt : X -> str) k xs :
  xs <> [] ->
  Forall (fun x => blk x <> [] /\ join [LF] (shift k (blk x)) = txt x) xs ->
  join [LF] (map (pad k) (items (map blk xs))) =
  repeat SPACE k ++ join (COMMA :: LF :: repeat SPACE k) (map txt xs).
Proof.
  induction xs as [|x xs IH]; intros Hne H; [contradiction|].
  inversion H as [|? ? [Hb Ht] Hrest]; subst.
  destruct xs as [|x2 xs].
  - cbn [map items join]. rewrite join_pad_block by exact Hb. now rewrite Ht.
  - change (items (map blk (x :: x2 :: xs)))
      with (append_last (blk x) [COMMA] ++ items (map blk (x2 :: xs))).
    change (map txt (x :: x2 :: xs)) with (txt x :: map txt (x2 :: xs)).
    rewrite map_app, join_app.
    + rewrite map_append_last; [|exact Hb|intros l; unfold pad; now rewrite app_assoc].
      rewrite join_append_last by (destruct (blk x); [contradiction|discriminate]).
      rewrite join_pad_block by exact Hb. rewrite Ht.
      rewrite (IH ltac:(discriminate) Hrest).
      rewrite join_cons. cbn [map]. rewrite <- !app_assoc. reflexivity.
    + intros E. apply map_eq_nil in E. now apply append_last_nonempty in E.
    + intros E. apply map_eq_nil in E. revert E. apply items_nonempty.
      * discriminate.
      * rewrite Forall_forall. intros b0 Hb0.
        apply in_map_iff in Hb0 as (y & <- & Hy).
        rewrite Forall_forall in Hrest. now apply Hrest.
Qed.

Lemma pad_indent k lines :
  map (pad k) (indent lines) = map (pad (S (S k))) lines.
Proof.
  unfold indent. rewrite map_map. apply map_ext. intros l. unfold pad.
  change (SPACE :: SPACE :: l) with ([SPACE; SPACE] ++ l).
  rewrite app_assoc. f_equal.
  change [SPACE; SPACE] with (repeat SPACE 2). rewrite <- repeat_app.
  f_equal. lia.
Qed.

Lemma hex_digit_not_newline n : hex_digit n <> LF.
Proof. unfold hex_digit. destruct (n <? 10); unfold LF; lia. Qed.

Lemma encode_char_no_newline c : ~ In LF (encode_char c).
Proof.
  unfold encode_char.
  repeat match goal with
         | |- context [?a =? ?b] => destruct (N.eqb_spec a b) as [->|?]
         | |- context [?a <? ?b] => destruct (a <? b)
         end;
    cbn [In]; intros H;
    repeat match goal with
           | H : _ \/ _ |- _ => destruct H as [H|H]
           | H : False |- _ => contradiction
           end;
    try discriminate H; try (now apply hex_digit_not_newline in H);
    congruence.
Qed.

Lemma encode_basestring_no_newline s : ~ In LF (encode_basestring s).
Proof.
  unfold encode_basestring. intros [H|H]; [discriminate H|].
  apply in_app_iff in H as [H|[H|[]]]; [|discriminate H].
  apply in_flat_map in H as (c & _ & H). now apply encode_char_no_newline in H.
Qed.

Lemma atoms_no_newline T : forallb atom_char T = true -> ~ In LF T.
Proof.
  intros H Hin. rewrite forallb_forall in H. specialize (H LF Hin).
  discriminate H.
Qed.

Lemma atoms_last T : forallb atom_char T = true -> last T SPACE <> LF.
Proof.
  induction T as [|c T IH]; [discriminate|].
  cbn [forallb]. rewrite andb_true_iff. intros [Hc HT].
  destruct T as [|c2 T]; [|now apply IH].
  cbn [last]. intros ->. discriminate Hc.
Qed.

Lemma append_last_Forall (P : str -> Prop) t : forall A,
  (forall l, P l -> P (l ++ t)) -> A <> [] ->
  Forall P A -> Forall P (append_last A t).
Proof.
  induction A as [|a A IH]; intros Ht HA H; [contradiction|].
  inversion H as [|? ? Ha Hrest]; subst.
  destruct A as [|a2 A].
  - cbn [append_last]. constructor; [now apply Ht|constructor].
  - change (append_last (a :: a2 :: A) t) with (a :: append_last (a2 :: A) t).
    constructor; [exact Ha|]. apply IH; [exact Ht|discriminate|exact Hrest].
Qed.

Lemma items_Forall (P : str -> Prop) : forall blocks,
  (forall l, P l -> P (l ++ [COMMA])) ->
  Forall (fun b => b <> [] /\ Forall P b) blocks -> Forall P (items blocks).
Proof.
  induction blocks as [|b blocks IH]; intros Ht H; [constructor|].
  inversion H as [|? ? [Hne Hb] Hrest]; subst.
  destruct blocks as [|b2 blocks]; [exact Hb|].
  change (items (b :: b2 :: blocks))
    with (append_last b [COMMA] ++ items (b2 :: blocks)).
  apply Forall_app. split.
  - now apply append_last_Forall.
  - now apply IH.
Qed.

Section Lines.
Context {PF : PyFloat} {PI : Interpreter}.

Lemma indented_nonempty v : indented v <> [].
Proof.
  destruct v as [| [|] | z | f | s | [|x lst] | [|kv dct]]; discriminate.
Qed.

Lemma join_container (open close : str) (M : list str) :
  M <> [] ->
  join [LF] (open :: M ++ [close]) =
  open ++ [LF] ++ join [LF] M ++ LF :: close.
Proof.
  intros HM. rewrite join_cons.
  destruct (M ++ [close]) eqn:E.
  { apply app_eq_nil in E as [_ E]. discriminate E. }
  rewrite <- E. rewrite join_app; [reflexivity|exact HM|discriminate].
Qed.

Lemma iterencode_lines v : forall level,
  iterencode v level = join [LF] (shift (2 * level) (indented v)).
Proof.
  induction v as [| b | z | f | s | lst IH | dct IH] using value_ind';
    intros level; try reflexivity.
  - now destruct b.
  - destruct lst as [|x lst]; [reflexivity|].
    change (indented (VList (x :: lst)))
      with ([LBRACKET] :: indent (items (map indented (x :: lst))) ++
            [[RBRACKET]]).
    change (iterencode (VList (x :: lst)) level)
      with ([LBRACKET] ++ newline_indent (S level) ++
            join (COMMA :: newline_indent (S level))
                 (map (fun v => iterencode v (S level)) (x :: lst)) ++
            newline_indent level ++ [RBRACKET]).
    cbn [shift]. rewrite map_app.
    change (map (pad (2 * level)) [[RBRACKET]]) with [pad (2 * level) [RBRACKET]].
    rewrite pad_indent. rewrite join_container.
    2:{ intros E. apply map_eq_nil in E. revert E.
        apply items_nonempty; [discriminate|]. rewrite Forall_forall.
        intros b Hb. apply in_map_iff in Hb as (v & <- & _).
        apply indented_nonempty. }
    rewrite (@items_text _ indented (fun v => iterencode v (S level))).
    + unfold newline_indent, pad.
      replace (2 * S level)%nat with (S (S (2 * level))) by lia.
      cbn [app]. rewrite <- !app_assoc. reflexivity.
    + discriminate.
    + eapply Forall_impl; [|exact IH]. intros v Hv. split.
      * apply indented_nonempty.
      * rewrite (Hv (S level)). f_equal. f_equal. lia.
  - destruct dct as [|kv dct]; [reflexivity|].
    change (indented (VDict (kv :: dct)))
      with ([LBRACE] ::
            indent (items (map (fun kv =>
                                  prepend_first
                                    (encode_basestring (fst kv) ++ [COLON; SPACE])
                                    (indented (snd kv))) (kv :: dct))) ++
            [[RBRACE]]).
    change (iterencode (VDict (kv :: dct)) level)
      with ([LBRACE] ++ newline_indent (S level) ++
            join (COMMA :: newline_indent (S level))
                 (map (fun kv => encode_basestring (fst kv) ++ [COLON; SPACE] ++
                                 iterencode (snd kv) (S level)) (kv :: dct)) ++
            newline_indent level ++ [RBRACE]).
    cbn [shift]. rewrite map_app.
    change (map (pad (2 * level)) [[RBRACE]]) with [pad (2 * level) [RBRACE]].
    rewrite pad_indent. rewrite join_container.
    2:{ intros E. apply map_eq_nil in E. revert E.
        apply items_nonempty; [discriminate|]. rewrite Forall_forall.
        intros b Hb. apply in_map_iff in Hb as ([k v] & <- & _). cbn [snd].
        destruct (indented v); discriminate. }
    rewrite (@items_text _ _
               (fun kv => encode_basestring (fst kv) ++ [COLON; SPACE] ++
                          iterencode (snd kv) (S level))).
    + unfold newline_indent, pad.
      replace (2 * S level)%nat with (S (S (2 * level))) by lia.
      cbn [app]. rewrite <- !app_assoc. reflexivity.
    + discriminate.
    + eapply Forall_impl; [|exact IH]. intros [k v] Hv. cbn [fst snd] in *. split.
      * destruct (indented v); discriminate.
      * rewrite (Hv (S level)).
        pose proof (indented_nonempty v) as Hne.
        destruct (indented v) as [|l r]; [contradiction|].
        cbn [prepend_first shift].
        replace (2 * S level)%nat with (S (S (2 * level))) by lia.
        rewrite !join_cons. now rewrite <- !app_assoc.
Qed.

Lemma indented_lines v :
  readable v -> Forall (fun l => ~ In LF l) (indented v).
Proof.
  assert (Hcomma : forall l, ~ In LF l -> ~ In LF (l ++ [COMMA])).
  { intros l Hl H. apply in_app_iff in H as [H|[H|[]]];
      [now apply Hl|discriminate H]. }
  assert (Hindent : forall lines,
            Forall (fun l => ~ In LF l) lines ->
            Forall (fun l => ~ In LF l) (indent lines)).
  { intros lines H. unfold indent. rewrite Forall_forall in *.
    intros l Hl. apply in_map_iff in Hl as (l0 & <- & Hl0).
    intros [E|[E|E]]; [discriminate E|discriminate E|].
    now apply (H l0 Hl0). }
  induction v as [| b | z | f | s | lst IH | dct IH] using value_ind';
    intros Hr.
  - repeat constructor. vm_compute. intuition discriminate.
  - destruct b; repeat constructor; vm_compute; intuition discriminate.
  - repeat constructor. apply atoms_no_newline, int_repr_atoms.
  - repeat constructor. apply atoms_no_newline, Hr.
  - repeat constructor. apply encode_basestring_no_newline.
  - destruct lst as [|x lst].
    { repeat constructor. vm_compute. intuition discriminate. }
    change (indented (VList (x :: lst)))
      with ([LBRACKET] :: indent (items (map indented (x :: lst))) ++
            [[RBRACKET]]).
    apply readable_list in Hr.
    constructor; [vm_compute; intuition discriminate|].
    apply Forall_app. split.
    + apply Hindent. apply items_Forall; [exact Hcomma|].
      rewrite Forall_forall in *. intros b Hb.
      apply in_map_iff in Hb as (v & <- & Hv). split.
      * apply indented_nonempty.
      * apply (IH v Hv). now apply Hr.
    + repeat constructor. vm_compute. intuition discriminate.
  - destruct dct as [|kv dct].
    { repeat constructor. vm_compute. intuition discriminate. }
    change (indented (VDict (kv :: dct)))
      with ([LBRACE] ::
            indent (items (map (fun kv =>
                                  prepend_first
                                    (encode_basestring (fst kv) ++ [COLON; SPACE])
                                    (indented (snd kv))) (kv :: dct))) ++
            [[RBRACE]]).
    apply readable_dict in Hr.
    constructor; [vm_compute; intuition discriminate|].
    apply Forall_app. split.
    + apply Hindent. apply items_Forall; [exact Hcomma|].
      rewrite Forall_forall in *. intros b Hb.
      apply in_map_iff in Hb as ([k v] & <- & Hv). cbn [fst snd].
      specialize (IH _ Hv (Hr _ Hv)). cbn [snd] in IH.
      pose proof (indented_nonempty v) as Hne.
      destruct (indented v) as [|l r]; [contradiction|].
      cbn [prepend_first]. split; [discriminate|].
      inversion IH as [|? ? Hl Hrest]; subst. constructor; [|exact Hrest].
      intros H. apply in_app_iff in H as [H|H].
      * apply in_app_iff in H as [H|[H|[H|[]]]];
          [now apply encode_basestring_no_newline in H
          |discriminate H|discriminate H].
      * now apply Hl.
    + repeat constructor. vm_compute. intuition discriminate.
Qed.

Lemma shift_0 lines : shift 0 lines = lines.
Proof.
  destruct lines as [|l r]; [reflexivity|]. cbn [shift]. f_equal.
  unfold pad. cbn [repeat app]. apply map_id.
Qed.

Lemma json_dump_lines v : json_dump v = join [LF] (indented v).
Proof.
  unfold json_dump. rewrite iterencode_lines.
  change (2 * 0)%nat with 0%nat. now rewrite shift_0.
Qed.

Lemma json_dump_last v :
  (forall f, v = VFloat f -> last (floatstr f) SPACE <> LF) ->
  last (json_dump v) SPACE <> LF.
Proof.
  intros Hf. unfold json_dump.
  destruct v as [| b | z | f | s | lst | dct]; cbn [iterencode].
  - discriminate.
  - destruct b; discriminate.
  - apply atoms_last, int_repr_atoms.
  - now apply Hf.
  - unfold encode_basestring. rewrite app_comm_cons, last_last. discriminate.
  - destruct lst; [discriminate|]. rewrite !app_assoc, last_last. discriminate.
  - destruct dct; [discriminate|]. rewrite !app_assoc, last_last. discriminate.
Qed.

End Lines.

(** ** What [json.dump] hands to the file *)

Section Dump.
Context {PF : PyFloat} {PI : Interpreter}.

Lemma concat_list_chunks (chunks : value -> list str) (text : value -> str)
    separator lst : forall buf,
  Forall (fun v => concat (chunks v) = text v) lst ->
  concat (list_chunks chunks text separator lst buf) =
  match lst with
  | [] => []
  | _ :: _ => buf ++ join separator (map text lst)
  end.
Proof.
  induction lst as [|v lst IH]; intros buf H; [reflexivity|].
  inversion H as [|? ? Hv Hrest]; subst.
  cbn [list_chunks map]. rewrite concat_app, (IH separator Hrest), join_cons.
  destruct (is_container v); cbn [concat]; rewrite ?Hv, ?app_nil_r;
    rewrite <- app_assoc; do 2 f_equal; now destruct lst.
Qed.

Lemma concat_dict_chunks (chunks : value -> list str) (text : value -> str)
    separator dct : forall first,
  Forall (fun kv => concat (chunks (snd kv)) = text (snd kv)) dct ->
  concat (dict_chunks chunks separator dct first) =
  match dct with
  | [] => []
  | _ :: _ =>
      (if first then [] else separator) ++
      join separator
        (map (fun kv => encode_basestring (fst kv) ++ [COLON; SPACE] ++
                        text (snd kv)) dct)
  end.
Proof.
  induction dct as [|[k v] dct IH]; intros first H; [reflexivity|].
  inversion H as [|? ? Hv Hrest]; subst. cbn [snd] in Hv.
  cbn [dict_chunks map fst snd].
  rewrite !concat_app, (IH false Hrest), join_cons. cbn [concat].
  rewrite Hv, app_nil_r.
  destruct first; cbn [concat app]; rewrite ?app_nil_r, <- ?app_assoc;
    cbn [app]; repeat f_equal; now destruct dct.
Qed.

Lemma concat_chunks v : forall level,
  concat (iterencode_chunks v level) = iterencode v level.
Proof.
  induction v as [| b | z | f | s | lst IH | dct IH] using value_ind';
    intros level; try (cbn [iterencode_chunks concat]; apply app_nil_r).
  - destruct lst as [|x lst]; [reflexivity|].
    cbn [iterencode_chunks iterencode]. rewrite concat_app.
    rewrite (@concat_list_chunks _ (fun v => iterencode v (S level))).
    + cbn [concat app]. now rewrite <- ?app_assoc.
    + eapply Forall_impl; [|exact IH]. intros v Hv. apply Hv.
  - destruct dct as [|kv dct]; [reflexivity|].
    cbn [iterencode_chunks iterencode]. rewrite !concat_app.
    rewrite (@concat_dict_chunks _ (fun v => iterencode v (S level))).
    + cbn [concat app]. now rewrite <- ?app_assoc.
    + eapply Forall_impl; [|exact IH]. intros p Hp. apply Hp.
Qed.

Variable os : platform.

Lemma write_chunks_all chunks b :
  write_chunks os chunks = (b, true) <->
  utf8_encode (write_translate os (concat chunks)) = Some b.
Proof.
  revert b. induction chunks as [|c chunks IH]; intros b; cbn [write_chunks concat].
  { cbn. split; intros [= <-]; reflexivity. }
  rewrite write_translate_app, utf8_encode_app.
  destruct (utf8_encode (write_translate os c)) as [bc|]; [|split; discriminate].
  destruct (write_chunks os chunks) as [bs ok].
  destruct (utf8_encode (write_translate os (concat chunks))) as [bs'|].
  - pose proof (proj2 (IH bs') eq_refl) as H. injection H as -> ->.
    split; intros [= <-]; reflexivity.
  - split; [|discriminate]. intros [= <- ->].
    now pose proof (proj1 (IH bs) eq_refl).
Qed.

Lemma write_chunks_stops chunks written :
  write_chunks os chunks = (written, false) ->
  exists pre bad post,
    chunks = pre ++ bad :: post /\
    utf8_encode (write_translate os (concat pre)) = Some written /\
    utf8_encode (write_translate os bad) = None.
Proof.
  revert written. induction chunks as [|c chunks IH]; intros written;
    cbn [write_chunks]; [discriminate|].
  destruct (utf8_encode (write_translate os c)) as [bc|] eqn:Ec.
  - destruct (write_chunks os chunks) as [bs ok]. intros [= <- ->].
    destruct (IH bs eq_refl) as (pre & bad & post & -> & Hp & Hb).
    exists (c :: pre), bad, post. split; [reflexivity|]. split; [|exact Hb].
    cbn [concat]. now rewrite write_translate_app, utf8_encode_app, Ec, Hp.
  - intros [= <-]. exists [], c, chunks. now repeat split.
Qed.

Lemma write_chunks_some chunks :
  (exists b, write_chunks os chunks = (b, true)) \/
  (exists b, write_chunks os chunks = (b, false)).
Proof.
  destruct (write_chunks os chunks) as [b [|]]; eauto.
Qed.

End Dump.

(** ** One file *)

Section OneFile.
Context {PF : PyFloat} {PI : Interpreter}.
Variable path : Type.
Variable path_eq_dec : forall p q : path, {p = q} + {p <> q}.
Variable os : platform.

Lemma clean_json_content_answers content :
  (exists json_data, clean_json_content content = Ok json_data) \/
  (exists d, clean_json_content content = MalformedJson d) \/
  (exists why, clean_json_content content = Unfinished why).
Proof.
  unfold clean_json_content.
  destruct (json_loads_answers
              (remove_comments_from_json_string (preprocess content)))
    as [(obj & ->)|[(e & ->)|[-> | ->]]]; eauto.
Qed.

Lemma process_json_file_cases file_path w :
  exists w',
    process_json_file path_eq_dec os file_path w = (Done tt, w') /\
    outcome_of path_eq_dec os w file_path w'.
Proof.
  unfold process_json_file, try_except, io_bind, read_text.
  destruct (files w file_path) as [f|] eqn:Ef.
  2:{ eexists. split; [reflexivity|]. now constructor. }
  destruct (utf8_sig_decode (data f)) as [text|] eqn:Ed.
  2:{ eexists. split; [reflexivity|]. econstructor; eassumption. }
  unfold clean_json_content_io.
  destruct (clean_json_content_answers (translate_newlines text))
    as [(json_data & Ec)|[(d & Ec)|(why & Ec)]]; rewrite Ec.
  2:{ eexists. split; [reflexivity|]. cbn [files stdout].
      rewrite <- !app_assoc. cbn [app].
      econstructor; eassumption. }
  2:{ assert (Hj : is_json_decode_error (limit_exn why) = false)
        by now destruct why.
      unfold raise. cbv beta iota. rewrite Hj.
      eexists. split; [reflexivity|]. econstructor; eassumption. }
  unfold io_ret, dump_to_file. rewrite Ef.
  destruct (writable f) eqn:Ew.
  2:{ eexists. split; [reflexivity|].
      econstructor; eassumption. }
  destruct (write_chunks os (iterencode_chunks json_data 0)) as [b [|]] eqn:Eb.
  - eexists. split; [reflexivity|]. cbn [files stdout set_file].
    econstructor; eassumption.
  - eexists. split; [reflexivity|]. cbn [files stdout set_file].
    econstructor; eassumption.
Qed.


(** ** All files *)

Lemma process_directory_counts json_files : forall n w,
  exists w',
    process_directory path_eq_dec os json_files n w =
    (Done (mkCounters (total_files n + length json_files)
                      (processed_files n + length json_files)
                      (successful_files n + length json_files)), w').
Proof.
  induction json_files as [|p rest IH]; intros n w.
  { exists w. destruct n. cbn. now rewrite !Nat.add_0_r. }
  cbn [process_directory]. unfold io_bind at 1, try_except, io_bind at 1.
  destruct (process_json_file_cases p w) as (w1 & -> & _).
  unfold io_ret at 1.
  destruct (IH (mkCounters (S (total_files n)) (S (processed_files n))
                           (S (successful_files n))) w1) as (w' & ->).
  exists w'. cbn [total_files processed_files successful_files length].
  now rewrite <- !Nat.add_succ_comm.
Qed.

Lemma process_directories_counts (t : tree path) directories : forall n w,
  exists w' k,
    process_directories path_eq_dec os t directories n w =
    (Done (mkCounters (total_files n + k) (processed_files n + k)
                      (successful_files n + k)), w') /\
    k = length (concat (map (fun d => match t d with
                                      | Some l => l
                                      | None => []
                                      end) directories)).
Proof.
  induction directories as [|d rest IH]; intros n w.
  { exists w, 0%nat. destruct n. cbn. now rewrite !Nat.add_0_r. }
  cbn [process_directories map concat]. destruct (t d) as [json_files|].
  - unfold io_bind.
    destruct (process_directory_counts json_files n w) as (w1 & ->).
    destruct (IH (mkCounters (total_files n + length json_files)
                             (processed_files n + length json_files)
                             (successful_files n + length json_files)) w1)
      as (w' & k & -> & ->).
    exists w'. eexists. split; [|reflexivity].
    cbn [total_files processed_files successful_files].
    now rewrite length_app, !Nat.add_assoc.
  - unfold io_bind, print.
    destruct (IH n (mkWorld (files w) (stdout w ++ [DirectoryNotFound path d])))
      as (w' & k & -> & ->).
    exists w'. eexists. split; reflexivity.
Qed.

(** X10: [process_json_file] lets no exception out, whatever is at the
    path; so the [except] clause of [main] is never entered and every path
    found is counted as successfully processed: the last line printed
    reports as many successes as files, also for files that could not be
    opened, decoded, parsed or written. *)
Theorem main_counts_every_file_as_successful :
  (forall file_path w, fst (process_json_file path_eq_dec os file_path w) = Done tt) /\
  (forall t w,
     exists w',
       main path_eq_dec os t w = (Done tt, w') /\
       last (stdout w') (Starting path) =
         SuccessfullyProcessedCount path (found_files t) (found_files t)).
Proof.
  split.
  { intros p w. now destruct (process_json_file_cases p w) as (w' & -> & _). }
  intros t w. unfold main, io_bind, print.
  destruct (process_directories_counts t [Themes; Plugins] (mkCounters 0 0 0)
              (mkWorld (files w) (stdout w ++ [Starting path])))
    as (w' & k & -> & Hk).
  eexists. split; [reflexivity|]. cbn [stdout files].
  rewrite last_last. cbn [total_files successful_files]. unfold found_files.
  now rewrite <- Hk.
Qed.

(** ** Which files change *)

Lemma outcome_frame w file_path w' :
  outcome_of path_eq_dec os w file_path w' ->
  forall q, q <> file_path -> files w' q = files w q.
Proof.
  intros H q Hq.
  destruct H; cbn [files]; try reflexivity;
    now destruct (path_eq_dec q file_path).
Qed.

(** X11: a call of [process_json_file] leaves every other file as it is,
    and changes the file at its path only if that file could be opened and
    decoded, its text passed [clean_json_content], and it could be opened
    for writing: a file that is not UTF-8, or that does not parse after
    cleaning, is never modified. *)
Theorem only_validated_files_are_written file_path w :
  let w' := snd (process_json_file path_eq_dec os file_path w) in
  (forall q, q <> file_path -> files w' q = files w q) /\
  (files w' file_path <> files w file_path ->
   exists f text json_data,
     files w file_path = Some f /\ writable f = true /\
     utf8_sig_decode (data f) = Some text /\
     clean_json_content (translate_newlines text) = Ok json_data /\
     files w' file_path =
       Some (mkFile (fst (write_chunks os (iterencode_chunks json_data 0)))
                    true)).
Proof.
  destruct (process_json_file_cases file_path w) as (w' & E & H).
  rewrite E. cbn [snd]. split; [now apply (@outcome_frame _ _ _ H)|].
  destruct H as [| | | | |f text json_data b Hf Hd Hc Hw Hk
                 |f text json_data b Hf Hd Hc Hw Hk];
    cbn [files]; try (intros Hne; now contradiction Hne);
    intros _; exists f, text, json_data; repeat (split; [assumption|]);
    (destruct (path_eq_dec file_path file_path); [|contradiction]);
    now rewrite Hk.
Qed.

(** ** A second run *)

Lemma cleaned_unique_keys content json_data :
  clean_json_content content = Ok json_data -> unique_keys json_data.
Proof.
  unfold clean_json_content.
  destruct (json_loads _) as [obj|e|] eqn:E; try discriminate.
  intros [= <-]. eapply json_loads_unique_keys, E.
Qed.

Lemma cleaned_within content json_data :
  clean_json_content content = Ok json_data ->
  (nesting json_data <= recursion_depth)%nat /\ short_ints json_data.
Proof.
  unfold clean_json_content.
  destruct (json_loads _) as [obj|e|] eqn:E; try discriminate.
  intros [= <-]. eapply json_loads_within, E.
Qed.

Lemma clean_dumped json_data :
  unique_keys json_data -> stable json_data -> short_ints json_data ->
  (nesting json_data <= recursion_depth)%nat ->
  clean_json_content (json_dump json_data) = Ok json_data.
Proof.
  intros Hu Hs Hi Hn. unfold clean_json_content.
  destruct (cleaning_plain_text _ (dump_plain json_data Hs)) as [-> ->].
  now rewrite json_loads_dump.
Qed.

Lemma text_char_not_CR s : forallb text_char s = true -> ~ In CR s.
Proof.
  intros H Hin. rewrite forallb_forall in H. specialize (H CR Hin).
  discriminate H.
Qed.

Lemma dumped_text_reads_back json_data b :
  stable json_data ->
  utf8_encode (write_translate os (json_dump json_data)) = Some b ->
  utf8_sig_decode b = Some (write_translate os (json_dump json_data)) /\
  translate_newlines (write_translate os (json_dump json_data)) =
    json_dump json_data.
Proof.
  intros Hs Hb. pose proof (dump_plain json_data Hs) as Hp.
  unfold plain_json_text in Hp. rewrite !andb_true_iff in Hp.
  destruct Hp as ((((Hh & Ht) & _) & _) & _). split.
  - apply (@utf8_sig_decode_encode _ _ Hb). apply write_translate_head.
    destruct (json_dump json_data) as [|c r]; [discriminate|].
    apply negb_true_iff, N.eqb_neq in Hh. cbn. congruence.
  - apply translate_written. now apply text_char_not_CR.
Qed.

(** X12: running the script again.  If a file was read, passed
    [clean_json_content] with a stable value, and was written back in full,
    then it holds the UTF-8 encoding of the serialization of that value,
    and a second call of [process_json_file] writes the same bytes: no file
    differs after the second call, here or on a platform that writes CR LF
    for a newline. *)
Theorem second_run_changes_no_file file_path w f text json_data b :
  files w file_path = Some f -> writable f = true ->
  utf8_sig_decode (data f) = Some text ->
  clean_json_content (translate_newlines text) = Ok json_data ->
  stable json_data ->
  utf8_encode (write_translate os (json_dump json_data)) = Some b ->
  let w1 := snd (process_json_file path_eq_dec os file_path w) in
  let w2 := snd (process_json_file path_eq_dec os file_path w1) in
  files w1 file_path = Some (mkFile b true) /\
  (forall q, files w2 q = files w1 q) /\
  stdout w2 = stdout w ++ [SuccessfullyProcessed file_path;
                           SuccessfullyProcessed file_path].
Proof.
  intros Ef Ew Ed Ec Hs Hb.
  assert (Hchunks : write_chunks os (iterencode_chunks json_data 0) = (b, true)).
  { apply write_chunks_all. now rewrite concat_chunks. }
  assert (Hrun : forall w0 f0 text0,
            files w0 file_path = Some f0 -> writable f0 = true ->
            utf8_sig_decode (data f0) = Some text0 ->
            clean_json_content (translate_newlines text0) = Ok json_data ->
            process_json_file path_eq_dec os file_path w0 =
            (Done tt,
             mkWorld (fun q => if path_eq_dec q file_path
                               then Some (mkFile b true) else files w0 q)
                     (stdout w0 ++ [SuccessfullyProcessed file_path]))).
  { intros w0 f0 text0 Hf0 Hw0 Hd0 Hc0.
    unfold process_json_file, try_except, io_bind, read_text.
    rewrite Hf0, Hd0. unfold clean_json_content_io. rewrite Hc0.
    unfold io_ret, dump_to_file. rewrite Hf0, Hw0, Hchunks. reflexivity. }
  cbv zeta. rewrite (Hrun w f text Ef Ew Ed Ec). cbn [snd].
  destruct (@dumped_text_reads_back _ _ Hs Hb) as [Hd1 Ht1].
  rewrite (Hrun _ (mkFile b true) (write_translate os (json_dump json_data))).
  - cbn [snd files stdout]. split; [|split].
    + now destruct (path_eq_dec file_path file_path).
    + intros q. now destruct (path_eq_dec q file_path).
    + now rewrite <- app_assoc.
  - cbn [files]. now destruct (path_eq_dec file_path file_path).
  - reflexivity.
  - exact Hd1.
  - rewrite Ht1. destruct (@cleaned_within _ _ Ec) as [Hn Hi].
    apply clean_dumped; [|exact Hs|exact Hi|exact Hn].
    exact (@cleaned_unique_keys _ _ Ec).
Qed.

(** ** A text that cannot be encoded *)

(** X13: a value that holds a lone surrogate (written in the input as an
    escape, which [json.loads] accepts) cannot be encoded as UTF-8.  The
    file has then been opened for writing and emptied: when the call
    returns it holds the encoding of a part of the new text that ends
    before the offending string, the rest of the text is missing, the old
    content is gone, and the error is reported as one of reading or
    writing. *)
Theorem unencodable_text_cuts_file_short file_path w f text json_data :
  files w file_path = Some f -> writable f = true ->
  utf8_sig_decode (data f) = Some text ->
  clean_json_content (translate_newlines text) = Ok json_data ->
  utf8_encode (write_translate os (json_dump json_data)) = None ->
  exists w' written pre rest,
    process_json_file path_eq_dec os file_path w = (Done tt, w') /\
    files w' file_path = Some (mkFile written true) /\
    json_dump json_data = pre ++ rest /\ rest <> [] /\
    utf8_encode (write_translate os pre) = Some written /\
    stdout w' =
      stdout w ++ [ErrorReadingWriting file_path UnicodeEncodeError].
Proof.
  intros Ef Ew Ed Ec Hb.
  destruct (write_chunks os (iterencode_chunks json_data 0)) as [written ok] eqn:Ek.
  destruct ok.
  { apply write_chunks_all in Ek. rewrite concat_chunks in Ek.
    unfold json_dump in Hb. congruence. }
  destruct (@write_chunks_stops _ _ _ Ek) as (pre & bad & post & Hc & Hp & Hbad).
  eexists _, written, (concat pre), (concat (bad :: post)).
  split; [|split; [|split; [|split; [|split]]]].
  - unfold process_json_file, try_except, io_bind, read_text.
    rewrite Ef, Ed. unfold clean_json_content_io. rewrite Ec.
    unfold io_ret, dump_to_file. rewrite Ef, Ew, Ek. reflexivity.
  - cbn [files set_file]. now destruct (path_eq_dec file_path file_path).
  - unfold json_dump. rewrite <- concat_chunks, Hc. apply concat_app.
  - cbn [concat]. intros H. apply app_eq_nil in H as [-> _].
    discriminate Hbad.
  - exact Hp.
  - reflexivity.
Qed.

(** ** The text written back *)

(** C10: when [process_json_file] reports success, the file at the path
    holds the UTF-8 encoding of the text that [json.dump] produced for the
    value that [clean_json_content] returned.  That text is the
    serialization of the value with an indent of two spaces: its lines,
    joined by newlines, are an opening line, the items two spaces further
    in, each but the last followed by a comma, and a closing line, for
    every container that is not empty.  When the text of each float of the
    value is read back as the same float, these are the lines of the text,
    and [json.loads] reads the text back as the value.  The last character
    of the text is not a newline (for a document that is a single float,
    provided the float's text does not end in one). *)
Theorem written_text_is_indented_serialization :
  (forall file_path w w',
     process_json_file path_eq_dec os file_path w = (Done tt, w') ->
     stdout w' = stdout w ++ [SuccessfullyProcessed file_path] ->
     exists f text json_data b,
       files w file_path = Some f /\
       utf8_sig_decode (data f) = Some text /\
       clean_json_content (translate_newlines text) = Ok json_data /\
       utf8_encode (write_translate os (json_dump json_data)) = Some b /\
       files w' file_path = Some (mkFile b true)) /\
  (forall content text,
     normalize content = Some text ->
     exists json_data,
       clean_json_content content = Ok json_data /\
       text = json_dump json_data /\
       text = join [LF] (indented json_data) /\
       (readable json_data ->
        split_nl text = indented json_data /\
        json_loads text = Value json_data) /\
       ((forall f, json_data = VFloat f -> last (floatstr f) SPACE <> LF) ->
        last text SPACE <> LF)) /\
  (indented (VList [VInt 1; VDict [(dq "a", VList [VNone; VBool true])]]) =
   [dq "["; dq "  1,"; dq "  {"; dq "    'a': ["; dq "      null,";
    dq "      true"; dq "    ]"; dq "  }"; dq "]"]).
Proof.
  split; [|split; [|reflexivity]].
  - intros file_path w w' Hrun Hout.
    destruct (process_json_file_cases file_path w) as (w1 & E & H).
    rewrite Hrun in E. injection E as <-.
    destruct H as [| | | | |f text json_data b Hf Hd Hc Hw Hk|];
      cbn [stdout] in Hout; apply app_inv_head in Hout;
      try discriminate Hout.
    exists f, text, json_data, b. repeat (split; [assumption|]).
    split.
    + apply write_chunks_all in Hk. now rewrite concat_chunks in Hk.
    + cbn [files]. now destruct (path_eq_dec file_path file_path).
  - intros content text. unfold normalize.
    destruct (clean_json_content content) as [v| |] eqn:Hc; try discriminate.
    intros [= <-]. exists v. split; [reflexivity|]. split; [reflexivity|].
    split; [apply json_dump_lines|]. split; [|apply json_dump_last].
    intros Hr. split.
    + rewrite json_dump_lines. apply split_nl_join.
      * apply indented_nonempty.
      * now apply indented_lines.
    + destruct (@cleaned_within _ _ Hc) as [Hn Hi].
      apply loads_after_dump; [|exact Hr|exact Hi|exact Hn].
      exact (@cleaned_unique_keys _ _ Hc).
Qed.

End OneFile.

(** ** Closed instances for files *)

Lemma only_validated_files_witness :
  exists f text json_data,
    f = mkFile (dq "{'a': 1, /* one */}") true /\
    utf8_sig_decode (data f) = Some text /\
    @clean_json_content text_float cpython (translate_newlines text) = Ok json_data.
Proof.
  destruct (proj2 (@only_validated_files_are_written
                     text_float cpython nat Nat.eq_dec Posix 7%nat
                     (one_file_world (dq "{'a': 1, /* one */}"))))
    as (f & text & json_data & Hf & _ & Hd & Hc & _).
  - vm_compute. discriminate.
  - exists f, text, json_data. vm_compute in Hf. injection Hf as <-.
    split; [reflexivity|]. split; assumption.
Defined.

Lemma second_run_witness :
  files (snd (@process_json_file text_float cpython nat Nat.eq_dec Windows 7%nat
           (snd (@process_json_file text_float cpython nat Nat.eq_dec Windows 7%nat
              (one_file_world
                 ([239; 187; 191] ++ dq "{'a': [1, 2,], // c" ++ [13; 10] ++
                  dq "'b': '" ++ [195; 169] ++ dq "'}")))))) 7%nat =
  files (snd (@process_json_file text_float cpython nat Nat.eq_dec Windows 7%nat
           (one_file_world
              ([239; 187; 191] ++ dq "{'a': [1, 2,], // c" ++ [13; 10] ++
               dq "'b': '" ++ [195; 169] ++ dq "'}")))) 7%nat.
Proof.
  refine (proj1 (proj2 (@second_run_changes_no_file
                          text_float cpython nat Nat.eq_dec Windows 7%nat
                          (one_file_world
                             ([239; 187; 191] ++ dq "{'a': [1, 2,], // c" ++
                              [13; 10] ++ dq "'b': '" ++ [195; 169] ++
                              dq "'}"))
                          _ _ _ _ _ _ _ _ _ _)) 7%nat).
  - reflexivity.
  - reflexivity.
  - vm_compute. reflexivity.
  - vm_compute. reflexivity.
  - cbn [stable]. repeat split; vm_compute; reflexivity.
  - vm_compute. reflexivity.
Defined.

Lemma unencodable_text_witness :
  exists w',
    @process_json_file text_float cpython nat Nat.eq_dec Posix 7%nat
      (one_file_world (dq "{'a': 1, 'b': ['\ud800']}")) = (Done tt, w') /\
    files w' 7%nat = Some (mkFile (dq "{" ++ [10] ++ dq "  'a': 1," ++ [10] ++
                                   dq "  'b': ") true).
Proof.
  destruct (@unencodable_text_cuts_file_short
              text_float cpython nat Nat.eq_dec Posix 7%nat
              (one_file_world (dq "{'a': 1, 'b': ['\ud800']}"))
              (mkFile (dq "{'a': 1, 'b': ['\ud800']}") true)
              (dq "{'a': 1, 'b': ['\ud800']}")
              (VDict [(dq "a", VInt 1); (dq "b", VList [VStr [55296]])]))
    as (w' & written & pre & rest & Hrun & Hf & _).
  - reflexivity.
  - reflexivity.
  - vm_compute. reflexivity.
  - vm_compute. reflexivity.
  - vm_compute. reflexivity.
  - exists w'. split; [exact Hrun|].
    assert (Hw : exists w0,
              @process_json_file text_float cpython nat Nat.eq_dec Posix 7%nat
                (one_file_world (dq "{'a': 1, 'b': ['\ud800']}")) =
              (Done tt, w0) /\
              files w0 7%nat =
                Some (mkFile (dq "{" ++ [10] ++ dq "  'a': 1," ++ [10] ++
                              dq "  'b': ") true))
      by (eexists; split; vm_compute; reflexivity).
    destruct Hw as (w0 & H0 & Hf0). rewrite Hrun in H0.
    injection H0 as <-. exact Hf0.
Defined.

Lemma written_text_witness :
  exists json_data b,
    @clean_json_content text_float cpython
      (dq "{'a': [1, 2,], // c" ++ [LF] ++ dq "}") = Ok json_data /\
    utf8_encode (write_translate Windows (@json_dump text_float json_data)) = Some b /\
    files (snd (@process_json_file text_float cpython nat Nat.eq_dec Windows 7%nat
                  (one_file_world (dq "{'a': [1, 2,], // c" ++ [13; 10] ++ dq "}"))))
          7%nat = Some (mkFile b true).
Proof.
  destruct (proj1 (@written_text_is_indented_serialization
                     text_float cpython nat Nat.eq_dec Windows) 7%nat
              (one_file_world (dq "{'a': [1, 2,], // c" ++ [13; 10] ++ dq "}"))
              (snd (@process_json_file text_float cpython nat Nat.eq_dec Windows 7%nat
                      (one_file_world
                         (dq "{'a': [1, 2,], // c" ++ [13; 10] ++ dq "}")))))
    as (f & text & json_data & b & Hf & Hd & Hc & Hb & Hw).
  - vm_compute. reflexivity.
  - vm_compute. reflexivity.
  - exists json_data, b. vm_compute in Hf. injection Hf as <-.
    vm_compute in Hd. injection Hd as <-.
    split; [exact Hc|]. split; [exact Hb|exact Hw].
Defined.
